(** * AI town: the simulation core, embedded and verified

    A shallow embedding of the TypeScript sources of the repository
    (min-heap, geometry, pathfinder, client time synchroniser, LLM client
    helpers and the game table), with the properties of its specification
    stated and settled over the embedding.

    Conventions.
    - A JavaScript [number] that holds a coordinate, a distance or a
      timestamp is a real number ([R]); rounding of IEEE doubles is not
      modelled, and [NaN] does not exist.  Array indices and counters are
      [nat].
    - A JavaScript array is a [list]; a read out of range gives the
      placeholder the array was created with, a write at or past the end
      extends the array.
    - A [Map] is a [gmap], a [Set] a [gset].
    - A function that can throw returns a sum or an option. *)

From Stdlib Require Import ZArith ZifyNat List Ascii Reals Lra Lia Bool Sorted Permutation.
From stdpp Require Import base list gmap sets strings sorting.

(* ===================================================================== *)
(** * convex/util/minheap.ts *)
(* ===================================================================== *)

Module MinHeap.

Section Heap.

Context {T : Type}.

(** [compare a b] is the comparator the heap is created with: "a is strictly
    greater than b". *)
Variable compare : T -> T -> bool.

(** The value of [null as T], stored at index 0 of the tree and never used. *)
Variable null : T.

(** [tree[i]]. *)
Definition rd (t : list T) (i : nat) : T := nth i t null.

(** [tree[i] = v]: inside the array the cell is replaced, at its end the
    array grows by one cell (cells skipped over would be holes). *)
Definition wr (t : list T) (i : nat) (v : T) : list T :=
  if i <? length t then <[i := v]> t
  else t ++ replicate (i - length t) null ++ [v].

(** The closure's state: [tree] and [endIndex]. *)
Record heap : Type := mkHeap { tree : list T; endIndex : nat }.

(** [const tree = [null as T]; let endIndex = 1]. *)
Definition empty : heap := {| tree := [null]; endIndex := 1 |}.

(** [peek: () => tree[1]]; [undefined] when the array has one cell only. *)
Definition peek (h : heap) : option T := tree h !! 1%nat.

(** [length: () => endIndex - 1]. *)
Definition length (h : heap) : nat := endIndex h - 1.

(** The loop of [push]:
    [while ((nextToCheck = destinationIndex >> 1) > 0) { ... }]
    followed by [tree[destinationIndex] = newValue].  The index halves at
    every round, so [destinationIndex] rounds are enough ([fuel]). *)
Fixpoint siftUp (fuel : nat) (t : list T) (newValue : T) (destinationIndex : nat)
  : list T :=
  match fuel with
  | O => wr t destinationIndex newValue
  | S fuel' =>
      let nextToCheck := Nat.shiftr destinationIndex 1 in
      if 0 <? nextToCheck then
        let existing := rd t nextToCheck in
        if compare newValue existing then wr t destinationIndex newValue
        else siftUp fuel' (wr t destinationIndex existing) newValue nextToCheck
      else wr t destinationIndex newValue
  end.

Definition push (newValue : T) (h : heap) : heap :=
  {| tree := siftUp (endIndex h) (tree h) newValue (endIndex h);
     endIndex := S (endIndex h) |}.

(** The loop of [pop]:
    [while ((nextToCheck = destinationIndex << 1) < endIndex) { ... }]
    followed by [tree[destinationIndex] = lastValue]; [e] is [endIndex]
    after its decrement.  The index doubles at every round. *)
Fixpoint siftDown (fuel : nat) (t : list T) (lastValue : T) (e destinationIndex : nat)
  : list T :=
  match fuel with
  | O => wr t destinationIndex lastValue
  | S fuel' =>
      let nextToCheck := Nat.shiftl destinationIndex 1 in
      if nextToCheck <? e then
        let nextToCheck :=
          if (nextToCheck + 1 <=? e) && compare (rd t nextToCheck) (rd t (nextToCheck + 1))
          then nextToCheck + 1 else nextToCheck in
        let existing := rd t nextToCheck in
        if compare existing lastValue then wr t destinationIndex lastValue
        else siftDown fuel' (wr t destinationIndex existing) lastValue e nextToCheck
      else wr t destinationIndex lastValue
  end.

(** [pop]: [None] is [undefined]. *)
Definition pop (h : heap) : option T * heap :=
  if endIndex h =? 1 then (None, h)
  else
    let e := endIndex h - 1 in
    let value := rd (tree h) 1 in
    let lastValue := rd (tree h) e in
    (Some value, {| tree := siftDown e (tree h) lastValue e 1; endIndex := e |}).

(** A run of pushes, in order. *)
Definition pushAll (xs : list T) (h : heap) : heap :=
  fold_left (fun h x => push x h) xs h.

(** [n] calls of [pop], with what each returned. *)
Fixpoint popN (n : nat) (h : heap) : list (option T) * heap :=
  match n with
  | O => ([], h)
  | S n' =>
      let '(v, h') := pop h in
      let '(vs, h'') := popN n' h' in
      (v :: vs, h'')
  end.

(** ** Verification of the heap *)

(** [a] is not greater than [b]: the order in which [pop] hands out
    elements. *)
Definition notGreater (a b : T) : Prop := compare a b = false.

(** The elements the heap holds: cells [1 .. n-1] of the tree. *)
Definition contents (t : list T) (n : nat) : list T := rd t <$> seq 1 (n - 1).

(** The heap order on cells [1 .. n-1]: no cell is greater than its
    children. *)
Definition heapOK (t : list T) (n : nat) : Prop :=
  forall i, 2 <= i < n -> notGreater (rd t (i / 2)) (rd t i).

(** While [push] runs: the order holds everywhere but between the cell
    [d] being filled and its parent, and the parent of [d] is not greater
    than the children of [d]. *)
Definition upInv (a : list T) (m d : nat) : Prop :=
  (forall i, 2 <= i < m -> i <> d -> notGreater (rd a (i / 2)) (rd a i)) /\
  (forall i, 2 <= i < m -> i / 2 = d -> 2 <= d -> notGreater (rd a (d / 2)) (rd a i)).

(** While [pop] runs: the cell [e] still holds the last value, the order
    holds everywhere but between the cell [d] being filled and its children,
    and the parent of [d] is not greater than the children of [d]. *)
Definition downInv (a : list T) (e d : nat) (lastValue : T) : Prop :=
  rd a e = lastValue /\
  (forall i, 2 <= i < e -> i / 2 <> d -> notGreater (rd a (i / 2)) (rd a i)) /\
  (forall i, 2 <= i < e -> i / 2 = d -> 2 <= d -> notGreater (rd a (d / 2)) (rd a i)).

Lemma rd_wr (t : list T) (i : nat) (v : T) (j : nat) :
  rd (wr t i v) j = if decide (j = i) then v else rd t j.
Proof.
  unfold rd, wr. rewrite !nth_lookup.
  destruct (Nat.ltb_spec i (List.length t)) as [Hlt|Hge].
  - rewrite list_lookup_insert.
    destruct (decide (j = i)) as [->|Hne].
    + rewrite decide_True by auto. reflexivity.
    + rewrite decide_False by (intros [? _]; congruence). reflexivity.
  - destruct (decide (j = i)) as [->|Hne].
    + rewrite lookup_app_r by lia.
      rewrite lookup_app_r by (rewrite length_replicate; lia).
      rewrite length_replicate.
      replace (i - List.length t - (i - List.length t)) with 0 by lia.
      reflexivity.
    + destruct (Nat.lt_ge_cases j (List.length t)) as [Hj|Hj].
      * rewrite lookup_app_l by lia. reflexivity.
      * rewrite (lookup_ge_None_2 t j) by lia.
        rewrite lookup_app_r by lia.
        destruct (Nat.lt_ge_cases (j - List.length t) (i - List.length t)) as [Hk|Hk].
        -- rewrite lookup_app_l by (rewrite length_replicate; lia).
           rewrite lookup_replicate_2 by lia. reflexivity.
        -- rewrite lookup_app_r by (rewrite length_replicate; lia).
           rewrite length_replicate.
           rewrite lookup_ge_None_2; [reflexivity|simpl; lia].
Qed.

Lemma shiftr1 (d : nat) : Nat.shiftr d 1 = d / 2.
Proof. rewrite Nat.shiftr_div_pow2. reflexivity. Qed.

Lemma shiftl1 (d : nat) : Nat.shiftl d 1 = 2 * d.
Proof. rewrite Nat.shiftl_mul_pow2. simpl. lia. Qed.

Lemma contents_ext (a b : list T) (m : nat) :
  (forall k, 1 <= k < m -> rd a k = rd b k) -> contents a m = contents b m.
Proof.
  intros H. unfold contents. apply list_fmap_ext.
  intros i k Hk. apply lookup_seq in Hk. apply H. lia.
Qed.

Lemma heapOK_ext (a b : list T) (m : nat) :
  (forall k, 1 <= k < m -> rd a k = rd b k) -> heapOK a m -> heapOK b m.
Proof.
  intros H Ha i Hi. rewrite <- !H by lia. apply Ha, Hi.
Qed.

(** Exchanging two cells of the heap keeps its elements. *)
Lemma contents_swap (a a1 : list T) (m i j : nat) :
  1 <= i < m -> 1 <= j < m ->
  (forall k, rd a1 k =
             if decide (k = i) then rd a j
             else if decide (k = j) then rd a i else rd a k) ->
  contents a1 m ≡ₚ contents a m.
Proof.
  intros Hi Hj Hrd. unfold contents.
  set (tau := fun k : nat =>
                if decide (k = i) then j else if decide (k = j) then i else k).
  assert (Htau : forall k, tau (tau k) = k).
  { intros k. unfold tau. repeat case_decide; lia. }
  assert (Hrange : forall k, 1 <= k < m -> 1 <= tau k < m).
  { intros k Hk. unfold tau. repeat case_decide; lia. }
  assert (rd a1 <$> seq 1 (m - 1) = rd a <$> (tau <$> seq 1 (m - 1))) as ->.
  { rewrite <- list_fmap_compose. apply list_fmap_ext. intros ? k _. simpl.
    rewrite Hrd. unfold tau. repeat case_decide; subst; reflexivity. }
  apply fmap_Permutation. apply NoDup_Permutation.
  - apply NoDup_fmap_2_strong; [|apply NoDup_seq].
    intros x y _ _ Hxy. rewrite <- (Htau x), <- (Htau y), Hxy. reflexivity.
  - apply NoDup_seq.
  - intros x. rewrite list_elem_of_fmap. setoid_rewrite elem_of_seq. split.
    + intros (y & -> & Hy). specialize (Hrange y). lia.
    + intros Hx. exists (tau x). split; [symmetry; apply Htau|].
      specialize (Hrange x). lia.
Qed.

(** The fuel of the two loops is enough: more of it changes nothing. *)
Lemma siftUp_fuel (v : T) :
  forall f1 f2 t d, d <= f1 -> d <= f2 -> siftUp f1 t v d = siftUp f2 t v d.
Proof.
  induction f1 as [|f1 IH]; intros f2 t d H1 H2.
  - assert (d = 0) as -> by lia. destruct f2; reflexivity.
  - destruct f2 as [|f2].
    + assert (d = 0) as -> by lia. reflexivity.
    + cbn [siftUp]. rewrite shiftr1.
      destruct (0 <? d / 2); [|reflexivity].
      destruct (compare v (rd t (d / 2))); [reflexivity|].
      apply IH; lia.
Qed.

Lemma siftDown_fuel (v : T) (e : nat) :
  forall f1 f2 t d,
    1 <= d -> e - d <= f1 -> e - d <= f2 ->
    siftDown f1 t v e d = siftDown f2 t v e d.
Proof.
  assert (Hout : forall f t d, e <= d -> 1 <= d -> siftDown f t v e d = wr t d v).
  { intros f t d H1 H2. destruct f; [reflexivity|]. cbn [siftDown].
    rewrite shiftl1. destruct (Nat.ltb_spec (2 * d) e); [lia|reflexivity]. }
  induction f1 as [|f1 IH]; intros f2 t d Hd H1 H2.
  - rewrite !Hout by lia. reflexivity.
  - destruct f2 as [|f2]; [rewrite !Hout by lia; reflexivity|].
    cbn [siftDown]. rewrite shiftl1.
    destruct (2 * d <? e); [|reflexivity].
    destruct (compare (rd t _) v); [reflexivity|].
    apply IH; destruct (_ && _); lia.
Qed.

Section Order.

(** The comparator is a strict "greater than": it is asymmetric, and
    "not greater than" is transitive (a strict weak order; every strict
    total order is one). *)
Hypothesis compare_asym : forall a b, compare a b = true -> compare b a = false.
Hypothesis compare_negtrans :
  forall a b c, compare a b = false -> compare b c = false -> compare a c = false.

Lemma notGreater_refl (a : T) : notGreater a a.
Proof.
  unfold notGreater. destruct (compare a a) eqn:E; [|reflexivity].
  pose proof (compare_asym _ _ E) as E'. congruence.
Qed.

Lemma notGreater_trans (a b c : T) :
  notGreater a b -> notGreater b c -> notGreater a c.
Proof. apply compare_negtrans. Qed.

(** The root is not greater than any element of the heap. *)
Lemma heap_root_min (t : list T) (n : nat) :
  heapOK t n -> forall i, 1 <= i < n -> notGreater (rd t 1) (rd t i).
Proof.
  intros H i. induction i as [i IH] using lt_wf_ind. intros Hi.
  destruct (decide (i = 1)) as [->|Hne]; [apply notGreater_refl|].
  apply notGreater_trans with (rd t (i / 2)).
  - apply IH; lia.
  - apply H; lia.
Qed.

Lemma siftUp_spec (m : nat) (v : T) :
  forall fuel t d,
    d <= fuel -> 1 <= d < m -> upInv (wr t d v) m d ->
    heapOK (siftUp fuel t v d) m /\
    contents (siftUp fuel t v d) m ≡ₚ contents (wr t d v) m.
Proof.
  induction fuel as [|fuel IH]; intros t d Hf Hd [He Hg]; [lia|].
  cbn [siftUp]. rewrite shiftr1.
  destruct (Nat.ltb_spec 0 (d / 2)) as [Hp|Hp].
  - destruct (compare v (rd t (d / 2))) eqn:Ec.
    + split; [|reflexivity]. intros i Hi.
      destruct (decide (i = d)) as [->|Hne]; [|apply He; auto].
      rewrite !rd_wr. rewrite decide_False by lia. rewrite decide_True by auto.
      apply compare_asym, Ec.
    + set (p := rd t (d / 2)) in *.
      assert (Hvp : notGreater v p) by exact Ec.
      assert (He' : forall i, 2 <= i < m -> i <> d -> i / 2 <> d ->
                              notGreater (rd t (i / 2)) (rd t i)).
      { intros i Hi H1 H2. specialize (He i Hi H1). rewrite !rd_wr in He.
        rewrite !decide_False in He by auto. exact He. }
      assert (Hg' : forall i, 2 <= i < m -> i / 2 = d -> notGreater p (rd t i)).
      { intros i Hi H1. specialize (Hg i Hi H1). rewrite !rd_wr in Hg.
        rewrite !decide_False in Hg by lia. apply Hg. lia. }
      destruct (IH (wr t d p) (d / 2)) as [H1 H2]; [lia|lia| |].
      * split.
        -- intros i Hi Hne. rewrite !rd_wr.
           destruct (decide (i = d)) as [->|Hid].
           ++ rewrite decide_True by auto.
              rewrite decide_False by lia. exact Hvp.
           ++ rewrite (decide_False (P := i = d / 2)) by auto.
              destruct (decide (i / 2 = d / 2)) as [Hs|Hs].
              ** apply notGreater_trans with p; [exact Hvp|].
                 unfold p. rewrite <- Hs. apply He'; lia.
              ** destruct (decide (i / 2 = d)) as [Hc|Hc].
                 --- apply Hg'; auto.
                 --- apply He'; auto.
        -- intros i Hi Hpar Hdd. rewrite !rd_wr.
           rewrite (decide_False (P := d / 2 / 2 = d / 2)) by lia.
           rewrite (decide_False (P := d / 2 / 2 = d)) by lia.
           rewrite (decide_False (P := i = d / 2)) by lia.
           assert (Hgp : notGreater (rd t (d / 2 / 2)) p).
           { unfold p. apply He'; lia. }
           destruct (decide (i = d)) as [->|Hid]; [exact Hgp|].
           apply notGreater_trans with p; [exact Hgp|].
           unfold p. rewrite <- Hpar. apply He'; lia.
      * split; [exact H1|]. rewrite H2.
        apply contents_swap with (i := d / 2) (j := d); [lia|lia|].
        intros k. rewrite !rd_wr.
        rewrite (decide_False (P := d / 2 = d)) by lia.
        rewrite (decide_True (P := d = d)) by auto.
        repeat case_decide; subst; try lia; reflexivity.
  - split; [|reflexivity]. intros i Hi. apply He; [auto|lia].
Qed.

Lemma siftDown_at_end (fuel : nat) (t : list T) (lastValue : T) (e : nat) :
  1 <= e -> siftDown fuel t lastValue e e = wr t e lastValue.
Proof.
  intros He. destruct fuel; [reflexivity|].
  cbn [siftDown]. rewrite shiftl1.
  destruct (Nat.ltb_spec (2 * e) e); [lia|reflexivity].
Qed.

Lemma siftDown_spec (e : nat) (lastValue : T) :
  forall fuel t d,
    e - d <= fuel -> 1 <= d < e -> downInv (wr t d lastValue) e d lastValue ->
    heapOK (siftDown fuel t lastValue e d) e /\
    contents (siftDown fuel t lastValue e d) e ≡ₚ contents (wr t d lastValue) e.
Proof.
  induction fuel as [|fuel IH]; intros t d Hf Hd (Hlast & He & Hg); [lia|].
  cbn [siftDown]. rewrite shiftl1.
  destruct (Nat.ltb_spec (2 * d) e) as [Hc|Hc].
  - assert (Hte : rd t e = lastValue).
    { rewrite rd_wr in Hlast. rewrite decide_False in Hlast by lia. exact Hlast. }
    assert (He' : forall i, 2 <= i < e -> i / 2 <> d -> i <> d ->
                            notGreater (rd t (i / 2)) (rd t i)).
    { intros i Hi H1 H2. specialize (He i Hi H1). rewrite !rd_wr in He.
      rewrite !decide_False in He by auto. exact He. }
    assert (Hg' : forall i, 2 <= i < e -> i / 2 = d -> 2 <= d ->
                            notGreater (rd t (d / 2)) (rd t i)).
    { intros i Hi H1 H2. specialize (Hg i Hi H1 H2). rewrite !rd_wr in Hg.
      rewrite !decide_False in Hg by lia. exact Hg. }
    replace (2 * d + 1 <=? e) with true by (symmetry; apply Nat.leb_le; lia).
    cbn [andb].
    set (c := if compare (rd t (2 * d)) (rd t (2 * d + 1))
              then 2 * d + 1 else 2 * d).
    assert (Hcr : 2 * d <= c <= 2 * d + 1).
    { unfold c. destruct (compare _ _); lia. }
    assert (Hmin : forall i, i / 2 = d -> notGreater (rd t c) (rd t i)).
    { intros i Hi. assert (i = 2 * d \/ i = 2 * d + 1) as [->| ->] by lia;
        unfold c; destruct (compare (rd t (2 * d)) (rd t (2 * d + 1))) eqn:E;
        try apply notGreater_refl.
      - apply compare_asym, E.
      - exact E. }
    assert (HA : notGreater lastValue (rd t c) -> heapOK (wr t d lastValue) e).
    { intros Hl i Hi. destruct (decide (i / 2 = d)) as [Hp|Hp]; [|apply He; auto].
      rewrite !rd_wr. rewrite decide_True by auto. rewrite decide_False by lia.
      apply notGreater_trans with (rd t c); [exact Hl|apply Hmin, Hp]. }
    destruct (compare (rd t c) lastValue) eqn:Ex.
    + split; [|reflexivity]. apply HA, compare_asym, Ex.
    + destruct (decide (c = e)) as [Hce|Hce].
      * assert (Hx : rd t c = lastValue) by (rewrite Hce; exact Hte).
        rewrite Hx, Hce, siftDown_at_end by lia.
        assert (Hsame : forall k, rd (wr t d lastValue) k =
                                  rd (wr (wr t d lastValue) e lastValue) k).
        { intros k. rewrite (rd_wr _ e). case_decide; [subst k|reflexivity].
          exact Hlast. }
        split.
        -- apply heapOK_ext with (wr t d lastValue); [intros; apply Hsame|].
           apply HA. rewrite Hx. apply notGreater_refl.
        -- erewrite contents_ext; [reflexivity|]. intros. symmetry. apply Hsame.
      * destruct (IH (wr t d (rd t c)) c) as [H1 H2]; [lia|lia| |].
        -- split; [|split].
           ++ rewrite !rd_wr. rewrite !decide_False by lia. exact Hte.
           ++ intros i Hi Hne. rewrite !rd_wr.
              rewrite (decide_False (P := i / 2 = c)) by auto.
              destruct (decide (i = c)) as [->|Hic].
              ** rewrite decide_True by lia. exact Ex.
              ** destruct (decide (i / 2 = d)) as [Hp|Hp].
                 --- rewrite decide_False by lia. apply Hmin, Hp.
                 --- destruct (decide (i = d)) as [->|Hid].
                     +++ apply Hg'; lia.
                     +++ apply He'; auto.
           ++ intros i Hi Hp Hcc. rewrite !rd_wr.
              rewrite (decide_False (P := c / 2 = c)) by lia.
              rewrite (decide_True (P := c / 2 = d)) by lia.
              rewrite !decide_False by lia.
              rewrite <- Hp. apply He'; lia.
        -- split; [exact H1|]. rewrite H2.
           apply contents_swap with (i := c) (j := d); [lia|lia|].
           intros k. rewrite !rd_wr.
           rewrite (decide_False (P := c = d)) by lia.
           rewrite (decide_True (P := d = d)) by auto.
           repeat case_decide; subst; try lia; reflexivity.
  - split; [|reflexivity]. intros i Hi. apply He; [auto|lia].
Qed.

Lemma push_spec (v : T) (h : heap) :
  1 <= endIndex h -> heapOK (tree h) (endIndex h) ->
  endIndex (push v h) = S (endIndex h) /\
  heapOK (tree (push v h)) (endIndex (push v h)) /\
  contents (tree (push v h)) (endIndex (push v h))
    ≡ₚ contents (tree h) (endIndex h) ++ [v].
Proof.
  destruct h as [t n]. cbn [endIndex tree push]. intros Hn Hh.
  split; [reflexivity|].
  destruct (siftUp_spec (S n) v n t n) as [H1 H2]; [lia|lia| |].
  - split.
    + intros i Hi Hne. rewrite !rd_wr. rewrite !decide_False by lia.
      apply Hh. lia.
    + intros i Hi Hp. lia.
  - split; [exact H1|]. rewrite H2. unfold contents.
    replace (S n - 1) with ((n - 1) + 1) by lia.
    rewrite seq_app, fmap_app. cbn [seq fmap list_fmap].
    replace (1 + (n - 1)) with n by lia.
    rewrite rd_wr, decide_True by auto.
    apply Permutation_app_tail. apply eq_subrelation; [apply _|].
    apply list_fmap_ext. intros ? k Hk. apply lookup_seq in Hk.
    rewrite rd_wr, decide_False by lia. reflexivity.
Qed.

Lemma pop_spec (h : heap) :
  2 <= endIndex h -> heapOK (tree h) (endIndex h) ->
  exists h',
    pop h = (Some (rd (tree h) 1), h') /\
    endIndex h' = endIndex h - 1 /\
    heapOK (tree h') (endIndex h') /\
    contents (tree h) (endIndex h) ≡ₚ rd (tree h) 1 :: contents (tree h') (endIndex h').
Proof.
  destruct h as [t n]. cbn [endIndex tree]. intros Hn Hh.
  unfold pop. cbn [endIndex tree].
  destruct (Nat.eqb_spec n 1) as [|_]; [lia|].
  eexists. split; [reflexivity|]. cbn [endIndex tree].
  split; [reflexivity|].
  set (e := n - 1). set (lastValue := rd t e).
  destruct (decide (e = 1)) as [He1|He1].
  - rewrite He1. cbn [siftDown]. rewrite shiftl1.
    destruct (Nat.ltb_spec (2 * 1) 1); [lia|].
    split; [intros i Hi; lia|].
    unfold contents. replace (n - 1) with 1 by lia. reflexivity.
  - destruct (siftDown_spec e lastValue e t 1) as [H1 H2]; [lia|lia| |].
    + split; [|split].
      * rewrite rd_wr, decide_False by lia. reflexivity.
      * intros i Hi Hp. rewrite !rd_wr. rewrite !decide_False by lia.
        apply Hh. lia.
      * intros i Hi Hp Hd. lia.
    + split; [exact H1|]. rewrite H2.
      assert (Hc1 : contents t n
                    = rd t 1 :: (rd t <$> seq 2 (e - 2)) ++ [lastValue]).
      { unfold contents. fold e. replace e with (S ((e - 2) + 1)) at 1 by lia.
        cbn [seq]. rewrite seq_app, fmap_cons, fmap_app. cbn [seq fmap list_fmap].
        replace (2 + (e - 2)) with e by lia. reflexivity. }
      assert (Hc2 : contents (wr t 1 lastValue) e
                    = lastValue :: (rd t <$> seq 2 (e - 2))).
      { unfold contents. replace (e - 1) with (S (e - 2)) by lia.
        cbn [seq]. rewrite fmap_cons, rd_wr, decide_True by auto. f_equal.
        apply list_fmap_ext. intros ? k Hk. apply lookup_seq in Hk.
        rewrite rd_wr, decide_False by lia. reflexivity. }
      rewrite Hc1, Hc2.
      constructor. rewrite Permutation_app_comm. reflexivity.
Qed.

Lemma pushAll_spec (xs : list T) :
  forall h,
    1 <= endIndex h -> heapOK (tree h) (endIndex h) ->
    endIndex (pushAll xs h) = endIndex h + List.length xs /\
    heapOK (tree (pushAll xs h)) (endIndex (pushAll xs h)) /\
    contents (tree (pushAll xs h)) (endIndex (pushAll xs h))
      ≡ₚ contents (tree h) (endIndex h) ++ xs.
Proof.
  induction xs as [|x xs IH]; intros h Hn Hh.
  - cbn. rewrite Nat.add_0_r, app_nil_r. auto.
  - destruct (push_spec x h Hn Hh) as (E1 & H1 & P1).
    destruct (IH (push x h)) as (E2 & H2 & P2); [lia|exact H1|].
    unfold pushAll in *. cbn [fold_left List.length].
    split; [lia|]. split; [exact H2|].
    rewrite P2, P1, <- app_assoc. reflexivity.
Qed.

Lemma popN_spec (k : nat) :
  forall h,
    endIndex h = S k -> heapOK (tree h) (endIndex h) ->
    exists out h',
      popN k h = (Some <$> out, h') /\
      out ≡ₚ contents (tree h) (endIndex h) /\
      StronglySorted notGreater out /\
      endIndex h' = 1.
Proof.
  induction k as [|k IH]; intros h Hn Hh.
  - exists [], h. cbn. unfold contents. rewrite Hn. cbn.
    repeat split; auto. constructor.
  - destruct (pop_spec h) as (h1 & Hpop & En & Hh1 & Hperm); [lia|exact Hh|].
    destruct (IH h1) as (out & h' & Hrun & Hp & Hs & Hend); [lia|exact Hh1|].
    exists (rd (tree h) 1 :: out), h'. cbn [popN]. rewrite Hpop, Hrun.
    split; [reflexivity|]. split; [|split; [|exact Hend]].
    + rewrite Hperm, Hp. reflexivity.
    + constructor; [exact Hs|].
      assert (Hall : Forall (notGreater (rd (tree h) 1))
                            (contents (tree h) (endIndex h))).
      { unfold contents. apply Forall_fmap, Forall_forall.
        intros i Hi. apply elem_of_seq in Hi. cbn.
        apply heap_root_min with (endIndex h); [exact Hh|lia]. }
      rewrite Hperm in Hall. apply Forall_cons in Hall as [_ Hall].
      rewrite Hp. exact Hall.
Qed.

(** [push] of one element on the empty heap, then [pop]: whatever the
    comparator. *)
Lemma push_pop_singleton (x : T) :
  exists h', pop (push x empty) = (Some x, h') /\ length h' = 0.
Proof. eexists. split; reflexivity. Qed.

(** C3: for a comparator that is a strict "greater than", after any run of
    pushes on the empty heap, calling [pop] once per pushed element returns
    exactly the pushed elements (a permutation of them), each not greater
    than those returned after it, and leaves the heap empty: its length is 0
    and a further [pop] returns [undefined].  And one [push] on the empty
    heap followed by [pop] returns the pushed element and leaves length 0. *)
Theorem minheap_pop_in_order (xs : list T) :
  (exists out h',
      popN (List.length xs) (pushAll xs empty) = (Some <$> out, h') /\
      out ≡ₚ xs /\
      StronglySorted notGreater out /\
      length h' = 0 /\
      pop h' = (None, h')) /\
  (forall x, exists h', pop (push x empty) = (Some x, h') /\ length h' = 0).
Proof.
  split; [|apply push_pop_singleton].
  destruct (pushAll_spec xs empty) as (En & Hh & Hp).
  { cbn. lia. }
  { intros i Hi. cbn in Hi. lia. }
  cbn [endIndex tree empty] in En.
  destruct (popN_spec (List.length xs) (pushAll xs empty)) as (out & h' & Hrun & Hperm & Hs & Hend).
  { rewrite En. reflexivity. }
  { exact Hh. }
  exists out, h'. split; [exact Hrun|]. split.
  - rewrite Hperm, Hp. reflexivity.
  - split; [exact Hs|]. split.
    + unfold length. rewrite Hend. reflexivity.
    + unfold pop. rewrite Hend. reflexivity.
Qed.

(** ** Any interleaving of [push] and [pop] *)

(** The heap [h] holds the elements [bag] (in some order): its cells
    [1 .. endIndex - 1] exist, are in heap order and are the elements of
    [bag]. *)
Definition holds (h : heap) (bag : list T) : Prop :=
  1 <= endIndex h <= List.length (tree h) /\
  heapOK (tree h) (endIndex h) /\
  contents (tree h) (endIndex h) ≡ₚ bag.

Lemma wr_length (t : list T) (i : nat) (v : T) :
  List.length (wr t i v) = Nat.max (List.length t) (S i).
Proof.
  unfold wr. destruct (Nat.ltb_spec i (List.length t)).
  - rewrite length_insert. lia.
  - rewrite !length_app, length_replicate. cbn. lia.
Qed.

Lemma siftUp_length (v : T) :
  forall fuel t d,
    List.length (siftUp fuel t v d) = Nat.max (List.length t) (S d).
Proof.
  induction fuel as [|fuel IH]; intros t d; cbn [siftUp]; [apply wr_length|].
  rewrite shiftr1.
  destruct (0 <? d / 2); [|apply wr_length].
  destruct (compare v (rd t (d / 2))); [apply wr_length|].
  rewrite IH, wr_length.
  assert (d / 2 <= d) by (apply Nat.Div0.div_le_upper_bound; lia). lia.
Qed.

Lemma siftDown_length (v : T) (e : nat) :
  forall fuel t d,
    List.length t <= List.length (siftDown fuel t v e d).
Proof.
  induction fuel as [|fuel IH]; intros t d; cbn [siftDown];
    [rewrite wr_length; lia|].
  destruct (_ <? e); [|rewrite wr_length; lia].
  destruct (compare _ v); [rewrite wr_length; lia|].
  etrans; [|apply IH]. rewrite wr_length. lia.
Qed.

Lemma holds_empty : holds (empty) [].
Proof.
  split; [cbn; lia|]. split; [intros i Hi; cbn in Hi; lia|reflexivity].
Qed.

Lemma holds_push (h : heap) (bag : list T) (x : T) :
  holds h bag -> holds (push x h) (bag ++ [x]).
Proof.
  intros ([Hn Hlen] & Hh & Hc).
  destruct (push_spec x h Hn Hh)
    as (He & Hh' & Hc').
  split; [|split; [exact Hh'|rewrite Hc', Hc; reflexivity]].
  rewrite He. cbn [push tree]. rewrite siftUp_length. lia.
Qed.

Lemma holds_length (h : heap) (bag : list T) :
  holds h bag -> length h = List.length bag.
Proof.
  intros (_ & _ & Hc). rewrite <- Hc. unfold contents, length.
  rewrite length_fmap, length_seq. reflexivity.
Qed.

Lemma holds_pop (h : heap) (bag : list T) :
  holds h bag ->
  match pop h with
  | (None, h') => bag = [] /\ h' = h
  | (Some v, h') =>
      exists bag', bag ≡ₚ v :: bag' /\ Forall (notGreater v) bag' /\ holds h' bag'
  end.
Proof.
  intros Hholds. pose proof (holds_length h bag Hholds) as Hl.
  destruct Hholds as ([Hn Hlen] & Hh & Hc).
  destruct (decide (endIndex h = 1)) as [H1|H1].
  - unfold pop. rewrite H1. cbn. split; [|reflexivity].
    unfold length in Hl. rewrite H1 in Hl. destruct bag; [reflexivity|discriminate].
  - destruct (pop_spec h) as (h' & Hpop & He & Hh' & Hperm);
      [lia|exact Hh|].
    rewrite Hpop. exists (contents (tree h') (endIndex h')).
    split; [rewrite <- Hc; exact Hperm|]. split.
    + assert (Hall : Forall (notGreater (rd (tree h) 1))
                            (contents (tree h) (endIndex h))).
      { unfold contents. apply Forall_fmap, Forall_forall.
        intros i Hi. apply elem_of_seq in Hi. cbn.
        apply heap_root_min with (endIndex h);
          [exact Hh|lia]. }
      rewrite Hperm in Hall. apply Forall_cons in Hall as [_ Hall]. exact Hall.
    + split; [|split; [exact Hh'|reflexivity]].
      rewrite He. split; [lia|].
      unfold pop in Hpop. destruct (Nat.eqb_spec (endIndex h) 1) as [|_]; [lia|].
      inversion Hpop as [Hh'eq]. cbn [tree].
      etrans; [|apply siftDown_length]. lia.
Qed.

(** X2: a heap created with a strict "greater than" comparator is a
    priority queue under any interleaving of [push] and [pop].  The empty
    heap holds nothing; [push] adds its argument to what the heap holds;
    [pop] on a heap that holds nothing returns [undefined] and changes
    nothing; otherwise [pop] returns an element the heap holds that is not
    greater than any other, and the heap holds the others afterwards; and
    [length] is the number of elements held. *)
Theorem heap_is_priority_queue :
  holds (empty) [] /\
  (forall h bag x, holds h bag -> holds (push x h) (bag ++ [x])) /\
  (forall h bag,
      holds h bag ->
      length h = List.length bag /\
      match pop h with
      | (None, h') => bag = [] /\ h' = h
      | (Some v, h') =>
          exists bag',
            bag ≡ₚ v :: bag' /\ Forall (notGreater v) bag' /\ holds h' bag'
      end).
Proof.
  split; [apply holds_empty|]. split; [apply holds_push|].
  intros h bag Hh. split; [apply (holds_length h bag Hh)|apply holds_pop, Hh].
Qed.

(** X3: [peek] returns the element the next [pop] returns and removes,
    without changing the heap, as long as the heap holds an element.  On a
    heap whose last element was just popped it does not return [undefined]:
    the cell it reads still holds the popped element. *)
Theorem peek_is_next_pop :
  (forall h bag,
      holds h bag -> bag <> [] ->
      exists v, peek h = Some v /\ (pop h).1 = Some v) /\
  (forall h bag v h',
      holds h bag -> pop h = (Some v, h') -> length h' = 0 ->
      peek h' = Some v /\ pop h' = (None, h')).
Proof.
  split.
  - intros h bag Hholds Hne.
    pose proof (holds_length h bag Hholds) as Hl.
    destruct Hholds as ([Hn Hlen] & Hh & Hc).
    assert (H2 : 2 <= endIndex h).
    { unfold length in Hl. destruct bag; [congruence|]. cbn in Hl. lia. }
    exists (rd (tree h) 1). split.
    + unfold peek, rd. rewrite nth_lookup.
      destruct (tree h !! 1) as [v|] eqn:Hv; [reflexivity|].
      apply lookup_ge_None in Hv. lia.
    + unfold pop. destruct (Nat.eqb_spec (endIndex h) 1); [lia|]. reflexivity.
  - intros h bag v h' Hholds Hpop H0. unfold pop in Hpop.
    destruct Hholds as ([Hn _] & _ & _).
    destruct (Nat.eqb_spec (endIndex h) 1) as [|Hne]; [discriminate|].
    injection Hpop as Hv Hh'. subst h'.
    unfold length in H0. cbn [endIndex] in H0.
    assert (He : endIndex h - 1 = 1) by lia.
    split.
    + unfold peek. cbn [tree]. rewrite He.
      change (siftDown 1 (tree h) (rd (tree h) 1) 1 1)
        with (wr (tree h) 1 (rd (tree h) 1)).
      pose proof (rd_wr (tree h) 1 (rd (tree h) 1) 1) as Hrd.
      rewrite decide_True in Hrd by reflexivity.
      unfold rd at 1 in Hrd. rewrite nth_lookup in Hrd.
      destruct (wr (tree h) 1 (rd (tree h) 1) !! 1) as [u|] eqn:Hu.
      * cbn in Hrd. rewrite Hrd, Hv. reflexivity.
      * apply lookup_ge_None in Hu. rewrite wr_length in Hu. lia.
    + unfold pop. cbn [endIndex]. rewrite He. reflexivity.
Qed.

End Order.

End Heap.

(** The heap of natural numbers under [>], as a test bed. *)
Definition natGreater (a b : nat) : bool := b <? a.

Example heap_sorts_five :
  fst (popN natGreater 0 6 (pushAll natGreater 0 [5; 3; 8; 1; 4] (empty 0)))
  = [Some 1; Some 3; Some 4; Some 5; Some 8; None].
Proof. reflexivity. Qed.

Example heap_keeps_duplicates :
  fst (popN natGreater 0 4 (pushAll natGreater 0 [2; 7; 2; 1] (empty 0)))
  = [Some 1; Some 2; Some 2; Some 7].
Proof. reflexivity. Qed.

Lemma minheap_pop_in_order_witness :
  (exists out h',
      popN natGreater 0 3 (pushAll natGreater 0 [3; 1; 2] (empty 0))
      = (Some <$> out, h') /\
      out ≡ₚ [3; 1; 2] /\
      StronglySorted (notGreater natGreater) out /\
      length h' = 0 /\
      pop natGreater 0 h' = (None, h')) /\
  (forall x, exists h',
      pop natGreater 0 (push natGreater 0 x (empty 0)) = (Some x, h') /\
      length h' = 0).
Proof.
  refine (minheap_pop_in_order natGreater 0 _ _ [3; 1; 2]).
  - intros a b H. unfold natGreater in *.
    apply Nat.ltb_lt in H. apply Nat.ltb_ge. lia.
  - intros a b c H1 H2. unfold natGreater in *.
    apply Nat.ltb_ge in H1, H2. apply Nat.ltb_ge. lia.
Defined.

Lemma heap_is_priority_queue_witness :
  holds natGreater 0 (push natGreater 0 1 (push natGreater 0 3 (empty 0))) [3; 1] /\
  length (push natGreater 0 1 (push natGreater 0 3 (empty 0))) = 2 /\
  exists h' bag',
    pop natGreater 0 (push natGreater 0 1 (push natGreater 0 3 (empty 0))) = (Some 1, h') /\
    [3; 1] ≡ₚ 1 :: bag' /\ holds natGreater 0 h' bag'.
Proof.
  assert (Ha : forall a b, natGreater a b = true -> natGreater b a = false).
  { intros a b H. unfold natGreater in *.
    apply Nat.ltb_lt in H. apply Nat.ltb_ge. lia. }
  assert (Hn : forall a b c,
             natGreater a b = false -> natGreater b c = false -> natGreater a c = false).
  { intros a b c H1 H2. unfold natGreater in *.
    apply Nat.ltb_ge in H1, H2. apply Nat.ltb_ge. lia. }
  destruct (heap_is_priority_queue natGreater 0 Ha Hn) as (Hempty & Hpush & Hpop).
  pose proof (Hpush _ _ 1 (Hpush _ _ 3 Hempty)) as Hheld. cbn [app] in Hheld.
  split; [exact Hheld|].
  destruct (Hpop _ _ Hheld) as [Hlen Hnext]. split; [exact Hlen|].
  change (pop natGreater 0 (push natGreater 0 1 (push natGreater 0 3 (empty 0))))
    with (Some 1, {| tree := [0; 3; 3]; endIndex := 2 |}) in Hnext.
  destruct Hnext as (bag' & Hperm & _ & Hheld').
  eexists _, bag'. split; [reflexivity|]. split; [exact Hperm|exact Hheld'].
Defined.

Lemma peek_is_next_pop_witness :
  (exists v, peek (push natGreater 0 1 (push natGreater 0 3 (empty 0))) = Some v /\
             (pop natGreater 0 (push natGreater 0 1 (push natGreater 0 3 (empty 0)))).1 = Some v) /\
  peek (pop natGreater 0 (push natGreater 0 5 (empty 0))).2 = Some 5.
Proof.
  assert (Ha : forall a b, natGreater a b = true -> natGreater b a = false).
  { intros a b H. unfold natGreater in *.
    apply Nat.ltb_lt in H. apply Nat.ltb_ge. lia. }
  assert (Hn : forall a b c,
             natGreater a b = false -> natGreater b c = false -> natGreater a c = false).
  { intros a b c H1 H2. unfold natGreater in *.
    apply Nat.ltb_ge in H1, H2. apply Nat.ltb_ge. lia. }
  destruct (peek_is_next_pop natGreater 0) as [Hpeek Hstale].
  split.
  - apply (Hpeek _ [3; 1]); [|discriminate].
    apply (holds_push natGreater 0 Ha Hn _ [3] 1).
    apply (holds_push natGreater 0 Ha Hn _ [] 3).
    apply holds_empty.
  - apply (Hstale (push natGreater 0 5 (empty 0)) [5] 5).
    + apply (holds_push natGreater 0 Ha Hn _ [] 5), holds_empty.
    + reflexivity.
    + reflexivity.
Defined.

End MinHeap.

(* ===================================================================== *)
(** * JavaScript numbers and failures *)
(* ===================================================================== *)

(** Comparisons of numbers are decided as the reals decide them. *)
#[global] Instance Rlt_decision (a b : R) : Decision (a < b)%R := Rlt_dec a b.
#[global] Instance Rle_decision (a b : R) : Decision (a <= b)%R := Rle_dec a b.
#[global] Instance Rgt_decision (a b : R) : Decision (a > b)%R := Rgt_dec a b.
#[global] Instance Rge_decision (a b : R) : Decision (a >= b)%R := Rge_dec a b.
#[global] Instance Req_decision : EqDecision R := Req_dec_T.

(** [Math.floor]. *)
Definition floor (r : R) : R := IZR (Int_part r).

(** What a call that can throw gives: its value, or the message of the
    [Error] it threw. *)
Inductive result (A : Type) : Type :=
| Ok (a : A)
| Throw (message : string).
Arguments Ok {A} a.
Arguments Throw {A} message.

(** Evaluation of a test on concrete numbers: the comparison is settled by
    linear arithmetic. *)
Ltac settle_number :=
  first
    [ lra
    | intros; lra
    | let H := fresh in intros H; inversion H; lra
    | let H := fresh in intros H; decompose [and or] H; lra
    | split; lra
    | left; lra
    | right; left; lra
    | right; right; left; lra
    | right; right; right; lra ].

Ltac evaluate_tests :=
  repeat match goal with
    | |- context [decide ?P] =>
        first [ rewrite (decide_True (P := P)) by (cbn; settle_number)
              | rewrite (decide_False (P := P)) by (cbn; settle_number) ]
    | |- context [bool_decide ?P] =>
        first [ rewrite (bool_decide_eq_true_2 P) by (cbn; settle_number)
              | rewrite (bool_decide_eq_false_2 P) by (cbn; settle_number) ]
    end.

Lemma floor_IZR (z : Z) : floor (IZR z) = IZR z.
Proof. unfold floor. f_equal. symmetry. apply Int_part_spec. lra. Qed.

Lemma floor_bounds (r : R) : (floor r <= r < floor r + 1)%R.
Proof. unfold floor. pose proof (base_Int_part r). lra. Qed.

(* ===================================================================== *)
(** * convex/util/types.ts and convex/util/geometry.ts *)
(* ===================================================================== *)

Module Geometry.

Local Open Scope R_scope.

Record Point : Type := mkPoint { x : R; y : R }.

Record Vector : Type := mkVector { dx : R; dy : R }.

(** One element of a [Path]. *)
Record PathPoint : Type := mkPathPoint { position : Point; facing : Vector; t : R }.

Definition Path : Type := list PathPoint.

(** What [pathPosition] returns. *)
Record Placement : Type :=
  mkPlacement { at_position : Point; at_facing : Vector; velocity : R }.

Definition distance (p0 p1 : Point) : R :=
  let dx := x p0 - x p1 in
  let dy := y p0 - y p1 in
  sqrt (dx * dx + dy * dy).

Definition pointsEqual (p0 p1 : Point) : bool :=
  bool_decide (x p0 = x p1) && bool_decide (y p0 = y p1).

Definition manhattanDistance (p0 p1 : Point) : R :=
  Rabs (x p0 - x p1) + Rabs (y p0 - y p1).

(** [path.at(-1)], for a path with a first element. *)
Definition lastOf (first : PathPoint) (rest : list PathPoint) : PathPoint :=
  List.last rest first.

Definition pathOverlaps (path : Path) (time : R) : result bool :=
  match path with
  | first :: ((_ :: _) as rest) =>
      Ok (bool_decide (t first <= time) && bool_decide (time <= t (lastOf first rest)))
  | _ => Throw "Invalid path"
  end.

(** The loop of [pathPosition] over the segments [path[i], path[i + 1]]:
    the first segment whose timestamps enclose [time]. *)
Fixpoint enclosingSegment (path : Path) (time : R) : option (PathPoint * PathPoint) :=
  match path with
  | segmentStart :: ((segmentEnd :: _) as rest) =>
      if decide (t segmentStart <= time /\ time <= t segmentEnd)
      then Some (segmentStart, segmentEnd)
      else enclosingSegment rest time
  | _ => None
  end.

(** The value [pathPosition] returns inside a segment. *)
Definition interpolate (segmentStart segmentEnd : PathPoint) (time : R) : Placement :=
  let interp := (time - t segmentStart) / (t segmentEnd - t segmentStart) in
  {| at_position :=
       {| x := x (position segmentStart)
               + interp * (x (position segmentEnd) - x (position segmentStart));
          y := y (position segmentStart)
               + interp * (y (position segmentEnd) - y (position segmentStart)) |};
     at_facing := facing segmentStart;
     velocity := distance (position segmentStart) (position segmentEnd)
                 / (t segmentEnd - t segmentStart) |}.

Definition pathPosition (path : Path) (time : R) : result Placement :=
  match path with
  | first :: ((_ :: _) as rest) =>
      if decide (time < t first) then
        Ok {| at_position := position first; at_facing := facing first; velocity := 0 |}
      else
        let last := lastOf first rest in
        if decide (t last < time) then
          Ok {| at_position := position last; at_facing := facing last; velocity := 0 |}
        else
          match enclosingSegment path time with
          | Some (segmentStart, segmentEnd) => Ok (interpolate segmentStart segmentEnd time)
          | None => Throw "Timestamp checks not exhaustive?"
          end
  | _ => Throw "Invalid path"
  end.

(** [EPSILON], [vector] and [normalize]. *)
Definition EPSILON : R := 1 / 10000.

Definition vector (p0 p1 : Point) : Vector :=
  {| dx := x p1 - x p0; dy := y p1 - y p0 |}.

Definition normalize (v : Vector) : option Vector :=
  let len := sqrt (dx v * dx v + dy v * dy v) in
  if decide (len < EPSILON) then None
  else Some {| dx := dx v / len; dy := dy v / len |}.

(** ** Verification of [pathPosition] *)

(** Timestamps strictly increase along the path. *)
Definition increasing (path : Path) : Prop :=
  Sorted (fun a b => t a < t b) path.

(** The segment [i] of [path] encloses [time]. *)
Definition encloses (path : Path) (i : nat) (time : R) : Prop :=
  exists a b, path !! i = Some a /\ path !! S i = Some b /\ t a <= time <= t b.

Lemma last_default (l : list PathPoint) (d d' : PathPoint) :
  l <> [] -> List.last l d = List.last l d'.
Proof.
  induction l as [|a l IH]; intros Hne; [congruence|].
  destruct l as [|b l]; [reflexivity|].
  change (List.last (b :: l) d = List.last (b :: l) d'). apply IH. congruence.
Qed.

Lemma lastOf_cons (first second : PathPoint) (rest : list PathPoint) :
  lastOf first (second :: rest) = lastOf second rest.
Proof.
  unfold lastOf. destruct rest as [|third rest]; [reflexivity|].
  change (List.last (third :: rest) first = List.last (third :: rest) second).
  apply last_default. congruence.
Qed.

Lemma increasing_first_last (first second : PathPoint) (rest : list PathPoint) :
  increasing (first :: second :: rest) -> t first < t (lastOf first (second :: rest)).
Proof.
  revert first second.
  induction rest as [|third rest IH]; intros first second Hinc;
    inversion Hinc as [|? ? Htl Hhd]; subst; inversion Hhd; subst.
  - cbn. assumption.
  - rewrite lastOf_cons. specialize (IH second third Htl). lra.
Qed.

Lemma enclosingSegment_found (time : R) :
  forall (first : PathPoint) (rest : list PathPoint),
    increasing (first :: rest) ->
    t first <= time <= t (lastOf first rest) ->
    rest <> [] ->
    exists i a b,
      enclosingSegment (first :: rest) time = Some (a, b) /\
      (first :: rest) !! i = Some a /\
      (first :: rest) !! S i = Some b /\
      t a <= time <= t b /\
      (forall j, (j < i)%nat -> ~ encloses (first :: rest) j time).
Proof.
  intros first rest. revert first.
  induction rest as [|second rest IH]; intros first Hinc Htime Hne; [congruence|].
  cbn [enclosingSegment].
  destruct (decide (t first <= time /\ time <= t second)) as [Hin|Hout].
  - exists 0%nat, first, second. repeat split; try tauto.
    intros j Hj. lia.
  - assert (Hlate : t second < time) by lra.
    rewrite lastOf_cons in Htime.
    assert (Hrest : rest <> []).
    { intros ->. cbn in Htime. lra. }
    destruct (IH second) as (i & a & b & Hfind & Ha & Hb & Hab & Hfirst).
    + inversion Hinc; assumption.
    + lra.
    + exact Hrest.
    + exists (S i), a, b. repeat split; try tauto; try assumption.
      intros j Hj (a' & b' & Ha' & Hb' & Hab').
      destruct j as [|j].
      * cbn in Ha', Hb'. inversion Ha'; inversion Hb'; subst. lra.
      * apply (Hfirst j); [lia|]. exists a', b'. auto.
Qed.

(** C6: on a path of at least two points whose timestamps strictly
    increase, [pathPosition] returns the first point at velocity 0 before
    the first timestamp, the last point at velocity 0 after the last
    timestamp, and otherwise the linear interpolation inside a segment whose
    timestamps enclose the time (the first such segment), with velocity the
    segment's Euclidean length over its duration. *)
Theorem pathPosition_interpolates
  (first : PathPoint) (rest : list PathPoint) (time : R) :
  (2 <= List.length (first :: rest))%nat ->
  increasing (first :: rest) ->
  let path := first :: rest in
  let last := lastOf first rest in
  (time < t first ->
   pathPosition path time
   = Ok {| at_position := position first; at_facing := facing first; velocity := 0 |}) /\
  (t last < time ->
   pathPosition path time
   = Ok {| at_position := position last; at_facing := facing last; velocity := 0 |}) /\
  (t first <= time <= t last ->
   exists i a b,
     path !! i = Some a /\ path !! S i = Some b /\
     t a <= time <= t b /\
     (forall j, (j < i)%nat -> ~ encloses path j time) /\
     pathPosition path time
     = Ok {| at_position :=
               {| x := x (position a)
                       + (time - t a) / (t b - t a) * (x (position b) - x (position a));
                  y := y (position a)
                       + (time - t a) / (t b - t a) * (y (position b) - y (position a)) |};
             at_facing := facing a;
             velocity :=
               sqrt ((x (position a) - x (position b)) * (x (position a) - x (position b))
                     + (y (position a) - y (position b)) * (y (position a) - y (position b)))
               / (t b - t a) |}).
Proof.
  intros Hlen Hinc path last.
  destruct rest as [|second rest]; [cbn in Hlen; lia|].
  assert (Hfl : t first < t last).
  { apply increasing_first_last, Hinc. }
  split; [|split].
  - intros Hbefore. unfold path, pathPosition.
    rewrite decide_True by assumption. reflexivity.
  - intros Hafter. unfold path, pathPosition. fold last.
    rewrite decide_False by lra. rewrite decide_True by assumption. reflexivity.
  - intros Hin.
    destruct (enclosingSegment_found time first (second :: rest))
      as (i & a & b & Hfind & Ha & Hb & Hab & Hfirst);
      [assumption|assumption|congruence|].
    exists i, a, b. repeat split; try tauto; try assumption.
    unfold path, pathPosition. fold last.
    rewrite decide_False by lra. rewrite decide_False by lra.
    rewrite Hfind. reflexivity.
Qed.

(** A path of three points, looked at half way along its first segment. *)
Definition samplePath : Path :=
  [ {| position := {| x := 0; y := 0 |}; facing := {| dx := 1; dy := 0 |}; t := 0 |};
    {| position := {| x := 3; y := 4 |}; facing := {| dx := 0; dy := 1 |}; t := 10 |};
    {| position := {| x := 3; y := 5 |}; facing := {| dx := 0; dy := 1 |}; t := 12 |} ].

Lemma samplePath_increasing : increasing samplePath.
Proof. unfold increasing, samplePath. repeat constructor; cbn; lra. Qed.

Lemma pathPosition_interpolates_witness :
  pathPosition samplePath 5
  = Ok {| at_position := {| x := 3 / 2; y := 2 |};
          at_facing := {| dx := 1; dy := 0 |};
          velocity := 1 / 2 |}.
Proof.
  destruct (pathPosition_interpolates
              (mkPathPoint (mkPoint 0 0) (mkVector 1 0) 0)
              [mkPathPoint (mkPoint 3 4) (mkVector 0 1) 10;
               mkPathPoint (mkPoint 3 5) (mkVector 0 1) 12] 5)
    as (_ & _ & H).
  - cbn. lia.
  - exact samplePath_increasing.
  - destruct H as (i & a & b & Ha & Hb & Hab & Hfirst & Heq).
    + cbn. lra.
    + destruct i as [|i].
      * cbn in Ha, Hb. inversion Ha; inversion Hb; subst a b; clear Ha Hb.
        unfold samplePath. rewrite Heq. cbn.
        replace ((0 - 3) * (0 - 3) + (0 - 4) * (0 - 4)) with (5 * 5) by lra.
        rewrite sqrt_square by lra.
        f_equal. f_equal; [f_equal|]; lra.
      * exfalso. apply (Hfirst 0%nat); [lia|].
        eexists _, _. split; [reflexivity|]. split; [reflexivity|]. cbn. lra.
Defined.

(** ** The two distances *)

Lemma sum_squares_nonneg (a b : R) : 0 <= a * a + b * b.
Proof. nra. Qed.

Lemma distance_dist_euc (p q : Point) :
  distance p q = dist_euc (x p) (y p) (x q) (y q).
Proof. reflexivity. Qed.

Lemma pointsEqual_true (p q : Point) :
  pointsEqual p q = true <-> x p = x q /\ y p = y q.
Proof.
  unfold pointsEqual. rewrite andb_true_iff, !bool_decide_eq_true. reflexivity.
Qed.

(** The length of a step along one axis. *)
Lemma distance_along_axis (a b : R) : sqrt (a * a + b * b) <= Rabs a + Rabs b.
Proof.
  rewrite <- (sqrt_square (Rabs a + Rabs b))
    by (pose proof (Rabs_pos a); pose proof (Rabs_pos b); lra).
  apply sqrt_le_1_alt.
  pose proof (Rabs_pos a). pose proof (Rabs_pos b).
  assert (Rabs a * Rabs a = a * a).
  { pose proof (Rsqr_abs a) as E. unfold Rsqr in E. lra. }
  assert (Rabs b * Rabs b = b * b).
  { pose proof (Rsqr_abs b) as E. unfold Rsqr in E. lra. }
  nra.
Qed.

(** X4: [distance] and [manhattanDistance] are distances: they are not
    negative, do not depend on the order of the two points, are 0 exactly
    when [pointsEqual] holds, and satisfy the triangle inequality; and the
    Euclidean distance never exceeds the Manhattan distance. *)
Theorem distances_are_metrics (p q r : Point) :
  (0 <= distance p q /\
   distance p q = distance q p /\
   (distance p q = 0 <-> pointsEqual p q = true) /\
   distance p r <= distance p q + distance q r) /\
  (0 <= manhattanDistance p q /\
   manhattanDistance p q = manhattanDistance q p /\
   (manhattanDistance p q = 0 <-> pointsEqual p q = true) /\
   manhattanDistance p r <= manhattanDistance p q + manhattanDistance q r) /\
  distance p q <= manhattanDistance p q.
Proof.
  split; [|split].
  - split; [apply sqrt_pos|]. split; [|split].
    + unfold distance. cbv zeta. f_equal. ring.
    + rewrite pointsEqual_true. unfold distance. cbv zeta. split.
      * intros H0. apply sqrt_eq_0 in H0; [|apply sum_squares_nonneg].
        pose proof (Rle_0_sqr (x p - x q)) as Hx. pose proof (Rle_0_sqr (y p - y q)) as Hy.
        unfold Rsqr in Hx, Hy.
        assert (Hx0 : (x p - x q) * (x p - x q) = 0) by lra.
        assert (Hy0 : (y p - y q) * (y p - y q) = 0) by lra.
        apply Rmult_integral in Hx0, Hy0. split; lra.
      * intros [Hx Hy]. rewrite Hx, Hy.
        replace ((x q - x q) * (x q - x q) + (y q - y q) * (y q - y q)) with 0 by ring.
        apply sqrt_0.
    + rewrite !distance_dist_euc. apply triangle.
  - unfold manhattanDistance.
    pose proof (Rabs_pos (x p - x q)). pose proof (Rabs_pos (y p - y q)).
    split; [lra|]. split; [|split].
    + rewrite (Rabs_minus_sym (x p)), (Rabs_minus_sym (y p)). reflexivity.
    + rewrite pointsEqual_true. split.
      * intros Hzero.
        assert (Hx : Rabs (x p - x q) = 0) by lra.
        assert (Hy : Rabs (y p - y q) = 0) by lra.
        split.
        -- destruct (Req_dec (x p - x q) 0) as [E|E]; [lra|].
           apply Rabs_no_R0 in E. contradiction.
        -- destruct (Req_dec (y p - y q) 0) as [E|E]; [lra|].
           apply Rabs_no_R0 in E. contradiction.
      * intros [Hx Hy]. rewrite Hx, Hy.
        replace (x q - x q) with 0 by ring. replace (y q - y q) with 0 by ring.
        rewrite Rabs_R0. ring.
    + replace (x p - x r) with ((x p - x q) + (x q - x r)) by ring.
      replace (y p - y r) with ((y p - y q) + (y q - y r)) by ring.
      pose proof (Rabs_triang (x p - x q) (x q - x r)).
      pose proof (Rabs_triang (y p - y q) (y q - y r)).
      lra.
  - apply distance_along_axis.
Qed.

(** ** [normalize] *)

(** X5: [normalize] returns [null] exactly for the vectors shorter than
    [EPSILON]; for any other vector it returns a vector of length 1 that
    points the same way (the vector is its length times the result).  The
    vector between two points is too short exactly when their [distance]
    is below [EPSILON]. *)
Theorem normalize_unit_length (v : Vector) :
  let len := sqrt (dx v * dx v + dy v * dy v) in
  (len < EPSILON -> normalize v = None) /\
  (EPSILON <= len ->
   exists u, normalize v = Some u /\
             sqrt (dx u * dx u + dy u * dy u) = 1 /\
             dx v = len * dx u /\ dy v = len * dy u) /\
  (forall p0 p1, v = vector p0 p1 ->
                 (normalize v = None <-> distance p0 p1 < EPSILON)).
Proof.
  cbv zeta. unfold normalize.
  set (len := sqrt (dx v * dx v + dy v * dy v)).
  split; [|split].
  - intros Hshort. rewrite decide_True by exact Hshort. reflexivity.
  - intros Hlong. rewrite decide_False by lra.
    assert (Hpos : 0 < len) by (unfold EPSILON in Hlong; lra).
    assert (Hsq : len * len = dx v * dx v + dy v * dy v).
    { unfold len. apply sqrt_sqrt, sum_squares_nonneg. }
    eexists. split; [reflexivity|]. cbn [dx dy]. split; [|split].
    + replace (dx v / len * (dx v / len) + dy v / len * (dy v / len))
        with ((dx v * dx v + dy v * dy v) / (len * len)) by (field; lra).
      rewrite <- Hsq. replace (len * len / (len * len)) with 1 by (field; lra).
      apply sqrt_1.
    + field. lra.
    + field. lra.
  - intros p0 p1 Hv.
    assert (Hlen : len = distance p0 p1).
    { unfold len, distance. cbv zeta. rewrite Hv. cbn [dx dy vector]. f_equal. ring. }
    rewrite <- Hlen. destruct (decide (len < EPSILON)) as [Hs|Hl].
    + split; [intros _; exact Hs|reflexivity].
    + split; [discriminate|contradiction].
Qed.

(** ** [pathPosition] along a path *)

Lemma increasing_lookup (path : Path) :
  increasing path ->
  forall i j a b,
    path !! i = Some a -> path !! j = Some b -> (i < j)%nat -> t a < t b.
Proof.
  intros Hinc.
  assert (Hss : StronglySorted (fun a b => t a < t b) path).
  { apply Sorted_StronglySorted; [|exact Hinc]. intros a b c. lra. }
  clear Hinc. induction Hss as [|c path Hss IH Hall]; intros i j a b Ha Hb Hij.
  - destruct i; discriminate.
  - destruct j as [|j]; [lia|]. cbn in Hb. destruct i as [|i].
    + cbn in Ha. inversion Ha; subst c.
      rewrite Forall_forall in Hall. apply Hall.
      eapply list_elem_of_lookup_2, Hb.
    + cbn in Ha. apply (IH i j a b Ha Hb). lia.
Qed.

Lemma increasing_tail (first : PathPoint) (rest : list PathPoint) :
  increasing (first :: rest) -> increasing rest.
Proof. intros Hinc. inversion Hinc; assumption. Qed.

Lemma before_last (first : PathPoint) (rest : list PathPoint) :
  increasing (first :: rest) ->
  forall j b, (first :: rest) !! j = Some b -> t b <= t (lastOf first rest).
Proof.
  revert first. induction rest as [|second rest IH]; intros first Hinc j b Hb.
  - destruct j as [|[|j]]; [|discriminate|discriminate].
    cbn in Hb. inversion Hb; subst. cbn. lra.
  - rewrite lastOf_cons. destruct j as [|j].
    + cbn in Hb. inversion Hb; subst b.
      pose proof (increasing_first_last _ _ _ Hinc) as Hlt.
      rewrite lastOf_cons in Hlt. lra.
    + cbn in Hb. apply (IH second (increasing_tail _ _ Hinc) j b Hb).
Qed.

(** The loop of [pathPosition] stops at the segment [j] for every time the
    segment encloses, but for its start time when an earlier segment ends
    there. *)
Lemma enclosingSegment_at (time : R) :
  forall path j a b,
    increasing path ->
    path !! j = Some a -> path !! S j = Some b ->
    t a <= time <= t b -> (j = 0%nat \/ t a < time) ->
    enclosingSegment path time = Some (a, b).
Proof.
  induction path as [|first path IH]; intros j a b Hinc Ha Hb Hab Hj.
  - destruct j; discriminate.
  - destruct path as [|second rest].
    { destruct j; discriminate. }
    cbn [enclosingSegment]. destruct j as [|j].
    + cbn in Ha, Hb. inversion Ha; inversion Hb; subst.
      rewrite decide_True by exact Hab. reflexivity.
    + cbn in Ha. change ((second :: rest) !! S j = Some b) in Hb.
      assert (Hlate : t second < time).
      { destruct Hj as [Hj|Hj]; [discriminate|].
        destruct j as [|j].
        - cbn in Ha. inversion Ha; subst. exact Hj.
        - assert (t second < t a); [|lra].
          apply (increasing_lookup _ (increasing_tail _ _ Hinc) 0%nat (S j));
            [reflexivity|exact Ha|lia]. }
      rewrite decide_False by lra.
      apply (IH j a b (increasing_tail _ _ Hinc) Ha Hb Hab).
      right. destruct Hj as [Hj|Hj]; [discriminate|exact Hj].
Qed.

Lemma pathPosition_at (path : Path) (j : nat) (a b : PathPoint) (time : R) :
  increasing path ->
  path !! j = Some a -> path !! S j = Some b ->
  t a <= time <= t b -> (j = 0%nat \/ t a < time) ->
  pathPosition path time = Ok (interpolate a b time).
Proof.
  intros Hinc Ha Hb Hab Hj.
  pose proof (enclosingSegment_at time path j a b Hinc Ha Hb Hab Hj) as Hfind.
  destruct path as [|first [|second rest]];
    [destruct j; discriminate|destruct j; discriminate|].
  unfold pathPosition.
  assert (Hfirst : t first <= t a).
  { destruct j as [|j]; [cbn in Ha; inversion Ha; lra|].
    assert (t first < t a); [|lra].
    apply (increasing_lookup _ Hinc 0%nat (S j)); [reflexivity|exact Ha|lia]. }
  pose proof (before_last first (second :: rest) Hinc (S j) b Hb) as Hlast.
  rewrite decide_False by lra. rewrite decide_False by lra.
  rewrite Hfind. reflexivity.
Qed.

(** X6: a path of increasing timestamps is followed through its points:
    at the timestamp of the point [i], [pathPosition] returns the position
    of that point.  The facing it returns there is the facing of the point
    before ([i - 1]) for every point but the first, since the segment that
    ends at the point is found first. *)
Theorem pathPosition_through_points (path : Path) (i : nat) (p : PathPoint) :
  (2 <= List.length path)%nat -> increasing path -> path !! i = Some p ->
  exists placement,
    pathPosition path (t p) = Ok placement /\
    at_position placement = position p /\
    match i with
    | O => at_facing placement = facing p
    | S j => exists a, path !! j = Some a /\ at_facing placement = facing a
    end.
Proof.
  intros Hlen Hinc Hp. destruct i as [|j].
  - destruct (path !! 1%nat) as [b|] eqn:Hb;
      [|apply lookup_ge_None in Hb; lia].
    assert (Hlt : t p < t b)
      by (apply (increasing_lookup _ Hinc 0%nat 1%nat); [exact Hp|exact Hb|lia]).
    exists (interpolate p b (t p)).
    split; [apply (pathPosition_at path 0 p b); auto; lra|].
    split; [|reflexivity].
    unfold interpolate. cbn [at_position]. destruct (position p) as [px py].
    cbn [x y]. f_equal; field; lra.
  - destruct (path !! j) as [a|] eqn:Ha;
      [|apply lookup_ge_None in Ha; apply lookup_lt_Some in Hp; lia].
    assert (Hlt : t a < t p)
      by (apply (increasing_lookup _ Hinc j (S j)); [exact Ha|exact Hp|lia]).
    exists (interpolate a p (t p)).
    split; [apply (pathPosition_at path j a p); auto; lra|].
    split; [|exists a; split; reflexivity].
    unfold interpolate. cbn [at_position]. destruct (position p) as [px py].
    cbn [x y]. f_equal; field; lra.
Qed.

(** X7: inside a segment of a path of increasing timestamps the position
    moves at the velocity [pathPosition] reports: between two times of the
    segment, the distance between the two positions returned is the
    velocity times the time elapsed, and the velocity and the facing are
    those of the segment. *)
Theorem pathPosition_moves_at_velocity
  (path : Path) (j : nat) (a b : PathPoint) (t1 t2 : R) :
  increasing path ->
  path !! j = Some a -> path !! S j = Some b ->
  t a < t1 -> t1 <= t2 -> t2 <= t b ->
  exists p1 p2,
    pathPosition path t1 = Ok p1 /\ pathPosition path t2 = Ok p2 /\
    velocity p1 = distance (position a) (position b) / (t b - t a) /\
    velocity p2 = velocity p1 /\
    at_facing p1 = facing a /\ at_facing p2 = facing a /\
    distance (at_position p1) (at_position p2) = velocity p1 * (t2 - t1).
Proof.
  intros Hinc Ha Hb H1 H12 H2.
  exists (interpolate a b t1), (interpolate a b t2).
  split; [apply (pathPosition_at path j a b); auto; lra|].
  split; [apply (pathPosition_at path j a b); auto; lra|].
  split; [reflexivity|]. split; [reflexivity|].
  split; [reflexivity|]. split; [reflexivity|].
  unfold interpolate. cbn [at_position velocity]. unfold distance. cbv zeta. cbn [x y].
  set (d := t b - t a). assert (Hd : 0 < d) by (unfold d; lra).
  set (ux := x (position a) - x (position b)).
  set (uy := y (position a) - y (position b)).
  set (k := (t2 - t1) / d).
  assert (Hk : 0 <= k).
  { unfold k. apply Rmult_le_pos; [lra|]. left. apply Rinv_0_lt_compat, Hd. }
  replace ((x (position a) + (t1 - t a) / d * (x (position b) - x (position a))
            - (x (position a) + (t2 - t a) / d * (x (position b) - x (position a))))
           * (x (position a) + (t1 - t a) / d * (x (position b) - x (position a))
              - (x (position a) + (t2 - t a) / d * (x (position b) - x (position a))))
           + (y (position a) + (t1 - t a) / d * (y (position b) - y (position a))
              - (y (position a) + (t2 - t a) / d * (y (position b) - y (position a))))
             * (y (position a) + (t1 - t a) / d * (y (position b) - y (position a))
                - (y (position a) + (t2 - t a) / d * (y (position b) - y (position a)))))
    with ((k * k) * (ux * ux + uy * uy)) by (unfold k, ux, uy; field; lra).
  rewrite sqrt_mult_alt by nra.
  rewrite sqrt_square by exact Hk.
  unfold k. field. lra.
Qed.

Lemma pathPosition_through_points_witness :
  exists placement,
    pathPosition samplePath 10 = Ok placement /\
    at_position placement = {| x := 3; y := 4 |} /\
    exists a, samplePath !! 0%nat = Some a /\ at_facing placement = facing a.
Proof.
  apply (pathPosition_through_points samplePath 1
           (mkPathPoint (mkPoint 3 4) (mkVector 0 1) 10)).
  - cbn. lia.
  - exact samplePath_increasing.
  - reflexivity.
Defined.

Lemma pathPosition_moves_at_velocity_witness :
  exists p1 p2,
    pathPosition samplePath 2 = Ok p1 /\ pathPosition samplePath 6 = Ok p2 /\
    velocity p1 = distance {| x := 0; y := 0 |} {| x := 3; y := 4 |} / (10 - 0) /\
    velocity p2 = velocity p1 /\
    at_facing p1 = {| dx := 1; dy := 0 |} /\ at_facing p2 = {| dx := 1; dy := 0 |} /\
    distance (at_position p1) (at_position p2) = velocity p1 * (6 - 2).
Proof.
  apply (pathPosition_moves_at_velocity samplePath 0
           (mkPathPoint (mkPoint 0 0) (mkVector 1 0) 0)
           (mkPathPoint (mkPoint 3 4) (mkVector 0 1) 10) 2 6).
  - exact samplePath_increasing.
  - reflexivity.
  - reflexivity.
  - cbn. lra.
  - lra.
  - cbn. lra.
Defined.

(** [pathPosition] does not throw on a path of two points or more whose
    timestamps increase. *)
Lemma pathPosition_total (path : Path) (time : R) :
  (2 <= List.length path)%nat -> increasing path ->
  exists placement, pathPosition path time = Ok placement.
Proof.
  intros Hlen Hinc. destruct path as [|first [|second rest]]; [cbn in Hlen; lia..|].
  unfold pathPosition.
  destruct (decide (time < t first)); [eauto|].
  destruct (decide (t (lastOf first (second :: rest)) < time)); [eauto|].
  destruct (enclosingSegment_found time first (second :: rest))
    as (i & a & b & Hfind & _); [exact Hinc|lra|discriminate|].
  rewrite Hfind. eauto.
Qed.

(** ** [orientationDegrees] *)

(** [Math.atan2(y, x)]: the angle, in (-PI, PI], of the direction from the
    origin to the point (x, y). *)
Definition atan2 (y x : R) : R :=
  if decide (0 < x) then atan (y / x)
  else if decide (x < 0) then
         if decide (0 <= y) then atan (y / x) + PI else atan (y / x) - PI
       else if decide (0 < y) then PI / 2
            else if decide (y < 0) then - PI / 2
                 else 0.

(** The integer part of a number, towards 0. *)
Definition truncate (r : R) : Z :=
  if decide (0 <= r) then Int_part r else (- Int_part (- r))%Z.

(** [a % b] on numbers: what remains of [a] after the division by [b]
    truncated towards 0. *)
Definition remainder (a b : R) : R := a - b * IZR (truncate (a / b)).

Definition orientationDegrees (v : Vector) : result R :=
  if decide (sqrt (dx v * dx v + dy v * dy v) < EPSILON)
  then Throw "Can't compute the orientation of too small vector"
  else
    let twoPi := 2 * PI in
    let radians := remainder (atan2 (dy v) (dx v) + twoPi) twoPi in
    Ok (radians / twoPi * 360).

Lemma sqrt_one_plus_square (a b : R) :
  a <> 0 -> sqrt (1 + (b / a)²) = sqrt (a * a + b * b) / Rabs a.
Proof.
  intros Ha. assert (Hpos : 0 < Rabs a) by (apply Rabs_pos_lt, Ha).
  assert (Hsq : Rabs a * Rabs a = a * a).
  { pose proof (Rsqr_abs a) as E. unfold Rsqr in E. lra. }
  apply sqrt_lem_1.
  - pose proof (Rle_0_sqr (b / a)). lra.
  - apply Rmult_le_pos; [apply sqrt_pos|]. left. apply Rinv_0_lt_compat, Hpos.
  - replace (sqrt (a * a + b * b) / Rabs a * (sqrt (a * a + b * b) / Rabs a))
      with ((sqrt (a * a + b * b) * sqrt (a * a + b * b)) / (Rabs a * Rabs a))
      by (field; lra).
    rewrite sqrt_sqrt by apply sum_squares_nonneg. rewrite Hsq.
    unfold Rsqr. field. exact Ha.
Qed.

(** [atan2] gives the angle of the vector. *)
Lemma atan2_angle (a b : R) :
  let len := sqrt (a * a + b * b) in
  0 < len ->
  - PI < atan2 b a <= PI /\
  a = len * cos (atan2 b a) /\ b = len * sin (atan2 b a).
Proof.
  intros len Hlen. pose proof PI_RGT_0 as Hpi. unfold atan2.
  pose proof (atan_bound (b / a)) as Hbound.
  destruct (decide (0 < a)) as [Hpos|Hnpos]; [|destruct (decide (a < 0)) as [Hneg|Hzero]].
  - split; [lra|].
    rewrite cos_atan, sin_atan, sqrt_one_plus_square by lra.
    rewrite Rabs_right by lra. fold len. split; field; lra.
  - assert (Hsqrt : sqrt (1 + (b / a)²) = len / - a).
    { rewrite sqrt_one_plus_square by lra. rewrite Rabs_left by lra. reflexivity. }
    destruct (decide (0 <= b)) as [Hb|Hb].
    + assert (Hq : atan (b / a) <= 0).
      { destruct (Req_dec b 0) as [->|Hb0].
        - replace (0 / a) with 0 by (field; lra). rewrite atan_0. lra.
        - left. rewrite <- atan_0. apply atan_increasing.
          assert (0 < b / - a) by (apply Rdiv_lt_0_compat; lra).
          replace (b / a) with (- (b / - a)) by (field; lra). lra. }
      split; [lra|].
      rewrite neg_cos, neg_sin, cos_atan, sin_atan, Hsqrt. split; field; lra.
    + assert (Hq : 0 < atan (b / a)).
      { rewrite <- atan_0. apply atan_increasing.
        replace (b / a) with (- b / - a) by (field; lra).
        apply Rdiv_lt_0_compat; lra. }
      split; [lra|].
      rewrite cos_minus, sin_minus, cos_PI, sin_PI, cos_atan, sin_atan, Hsqrt.
      split; field; lra.
  - assert (Ha : a = 0) by lra. subst a.
    assert (Hlen' : len = Rabs b).
    { unfold len. replace (0 * 0 + b * b) with (b²) by (unfold Rsqr; ring).
      apply sqrt_Rsqr_abs. }
    destruct (decide (0 < b)) as [Hb|Hb]; [|destruct (decide (b < 0)) as [Hb'|Hb']].
    + rewrite cos_PI2, sin_PI2, Hlen', Rabs_right by lra. split; [lra|]. split; lra.
    + replace (- PI / 2) with (- (PI / 2)) by lra.
      rewrite cos_neg, sin_neg, cos_PI2, sin_PI2, Hlen', Rabs_left by lra.
      split; [lra|]. split; lra.
    + assert (b = 0) by lra. subst b. rewrite Rabs_R0 in Hlen'. lra.
Qed.

(** The remainder that brings an angle of (-PI, PI] into [0, 2 PI). *)
Lemma remainder_turn (theta : R) :
  - PI < theta <= PI ->
  remainder (theta + 2 * PI) (2 * PI) = if decide (theta < 0) then theta + 2 * PI else theta.
Proof.
  intros Htheta. pose proof PI_RGT_0 as Hpi. unfold remainder, truncate.
  set (q := (theta + 2 * PI) / (2 * PI)).
  assert (Hq : q = theta / (2 * PI) + 1) by (unfold q; field; lra).
  assert (Hscale : - (1 / 2) < theta / (2 * PI) <= 1 / 2).
  { split.
    - apply Rmult_lt_reg_r with (2 * PI); [lra|].
      replace (theta / (2 * PI) * (2 * PI)) with theta by (field; lra). lra.
    - apply Rmult_le_reg_r with (2 * PI); [lra|].
      replace (theta / (2 * PI) * (2 * PI)) with theta by (field; lra). lra. }
  rewrite decide_True by lra.
  destruct (decide (theta < 0)) as [Hneg|Hpos].
  - assert (Hlow : theta / (2 * PI) < 0).
    { apply Rmult_lt_reg_r with (2 * PI); [lra|].
      replace (theta / (2 * PI) * (2 * PI)) with theta by (field; lra). lra. }
    rewrite <- (Int_part_spec q 0) by lra. lra.
  - assert (Hhigh : 0 <= theta / (2 * PI)).
    { apply Rmult_le_reg_r with (2 * PI); [lra|].
      replace (theta / (2 * PI) * (2 * PI)) with theta by (field; lra). lra. }
    rewrite <- (Int_part_spec q 1) by lra. lra.
Qed.

(** X26: [orientationDegrees] throws exactly for the vectors shorter than
    [EPSILON].  For any other vector it returns an angle in degrees, at
    least 0 and below 360, which is the direction of the vector: the vector
    is its length times the cosine and the sine of that angle.  ([Math.atan2]
    is the angle function of mathematics, and numbers are reals.) *)
Theorem orientationDegrees_is_the_angle (v : Vector) :
  let len := sqrt (dx v * dx v + dy v * dy v) in
  (len < EPSILON ->
   orientationDegrees v = Throw "Can't compute the orientation of too small vector") /\
  (EPSILON <= len ->
   exists degrees,
     orientationDegrees v = Ok degrees /\
     0 <= degrees < 360 /\
     dx v = len * cos (degrees / 360 * (2 * PI)) /\
     dy v = len * sin (degrees / 360 * (2 * PI))).
Proof.
  cbv zeta. unfold orientationDegrees.
  set (len := sqrt (dx v * dx v + dy v * dy v)).
  pose proof PI_RGT_0 as Hpi.
  split.
  - intros Hshort. rewrite decide_True by exact Hshort. reflexivity.
  - intros Hlong. rewrite decide_False by lra.
    assert (Hlen : 0 < len) by (unfold EPSILON in Hlong; lra).
    destruct (atan2_angle (dx v) (dy v) Hlen) as (Hrange & Hcos & Hsin).
    fold len in Hcos, Hsin.
    set (theta := atan2 (dy v) (dx v)) in *.
    eexists. split; [reflexivity|]. cbv zeta.
    rewrite (remainder_turn theta Hrange).
    destruct (decide (theta < 0)) as [Hneg|Hpos].
    + replace ((theta + 2 * PI) / (2 * PI) * 360 / 360 * (2 * PI))
        with (theta + 2 * PI) by (field; lra).
      rewrite cos_plus, sin_plus, cos_2PI, sin_2PI.
      split; [|split; [rewrite Hcos at 1|rewrite Hsin at 1]; ring].
      split.
      * apply Rmult_le_pos; [|lra]. apply Rmult_le_pos; [lra|].
        left. apply Rinv_0_lt_compat. lra.
      * apply Rmult_lt_reg_r with (2 * PI / 360); [lra|].
        replace ((theta + 2 * PI) / (2 * PI) * 360 * (2 * PI / 360))
          with (theta + 2 * PI) by (field; lra).
        lra.
    + replace (theta / (2 * PI) * 360 / 360 * (2 * PI)) with theta by (field; lra).
      split; [|split; assumption].
      split.
      * apply Rmult_le_pos; [|lra]. apply Rmult_le_pos; [lra|].
        left. apply Rinv_0_lt_compat. lra.
      * apply Rmult_lt_reg_r with (2 * PI / 360); [lra|].
        replace (theta / (2 * PI) * 360 * (2 * PI / 360)) with theta by (field; lra).
        lra.
Qed.

(** The four directions of the grid: east is 0 degrees, and the angle grows
    towards the positive y axis. *)
Example orientationDegrees_of_the_grid :
  orientationDegrees {| dx := 1; dy := 0 |} = Ok 0 /\
  orientationDegrees {| dx := 0; dy := 1 |} = Ok 90 /\
  orientationDegrees {| dx := -1; dy := 0 |} = Ok 180 /\
  orientationDegrees {| dx := 0; dy := -1 |} = Ok 270.
Proof.
  pose proof PI_RGT_0 as Hpi.
  assert (Hunit : forall a b, a * a + b * b = 1 ->
            orientationDegrees {| dx := a; dy := b |}
            = Ok (remainder (atan2 b a + 2 * PI) (2 * PI) / (2 * PI) * 360)).
  { intros a b Hab. unfold orientationDegrees. cbn [dx dy]. rewrite Hab, sqrt_1.
    rewrite decide_False by (unfold EPSILON; lra). reflexivity. }
  repeat split; rewrite Hunit by lra; f_equal.
  - assert (Ht : atan2 0 1 = 0).
    { unfold atan2. rewrite decide_True by lra.
      replace (0 / 1) with 0 by lra. apply atan_0. }
    rewrite Ht, remainder_turn by lra. rewrite decide_False by lra. field. lra.
  - assert (Ht : atan2 1 0 = PI / 2).
    { unfold atan2. rewrite !decide_False by lra. rewrite decide_True by lra.
      reflexivity. }
    rewrite Ht, remainder_turn by lra. rewrite decide_False by lra. field. lra.
  - assert (Ht : atan2 0 (-1) = PI).
    { unfold atan2. rewrite decide_False by lra. rewrite !decide_True by lra.
      replace (0 / -1) with 0 by lra. rewrite atan_0. lra. }
    rewrite Ht, remainder_turn by lra. rewrite decide_False by lra. field. lra.
  - assert (Ht : atan2 (-1) 0 = - PI / 2).
    { unfold atan2. rewrite !decide_False by lra. rewrite decide_True by lra.
      reflexivity. }
    rewrite Ht, remainder_turn by lra. rewrite decide_True by lra. field. lra.
Qed.

End Geometry.

(* ===================================================================== *)
(** * src/hooks/sendInput.ts: [HistoricalTimeManager] *)
(* ===================================================================== *)

Module TimeSync.

Local Open Scope R_scope.

Record ServerTimeInterval : Type := mkInterval { startTs : R; endTs : R }.

(** The fields of [Doc<'engines'>] the manager reads; both are optional. *)
Record EngineStatus : Type :=
  mkStatus { currentTime : option R; lastStepTs : option R }.

Record HistoricalTimeManager : Type := mkManager {
  intervals : list ServerTimeInterval;
  prevClientTs : option R;
  prevServerTs : option R;
  totalDuration : R;
  latestEngineStatus : option EngineStatus }.

(** [new HistoricalTimeManager()]. *)
Definition newManager : HistoricalTimeManager :=
  {| intervals := []; prevClientTs := None; prevServerTs := None;
     totalDuration := 0; latestEngineStatus := None |}.

Definition MAX_SERVER_BUFFER_AGE : R := 1250.
Definition SOFT_MAX_SERVER_BUFFER_AGE : R := 1000.
Definition SOFT_MIN_SERVER_BUFFER_AGE : R := 100.

(** [!n] for an optional number: [undefined] and [0] are falsy. *)
Definition falsy (n : option R) : bool :=
  match n with
  | None => true
  | Some v => bool_decide (v = 0)
  end.

(** [a ?? b]. *)
Definition nullish (a : option R) (b : R) : R :=
  match a with
  | Some v => v
  | None => b
  end.

(** [receive]: the manager after the call, and the error it threw if any
    ([latestEngineStatus] is assigned before anything can throw). *)
Definition receive (engineStatus : EngineStatus) (m : HistoricalTimeManager)
  : HistoricalTimeManager * option string :=
  let m := {| intervals := intervals m; prevClientTs := prevClientTs m;
              prevServerTs := prevServerTs m; totalDuration := totalDuration m;
              latestEngineStatus := Some engineStatus |} in
  if falsy (currentTime engineStatus) || falsy (lastStepTs engineStatus) then (m, None)
  else
    match currentTime engineStatus, lastStepTs engineStatus with
    | Some now, Some lastStep =>
        let push :=
          let newInterval := {| startTs := lastStep; endTs := now |} in
          ({| intervals := intervals m ++ [newInterval];
              prevClientTs := prevClientTs m;
              prevServerTs := prevServerTs m;
              totalDuration := totalDuration m + (endTs newInterval - startTs newInterval);
              latestEngineStatus := latestEngineStatus m |}, None) in
        match last (intervals m) with
        | Some latest =>
            if decide (endTs latest = now) then (m, None)
            else if decide (endTs latest > now)
                 then (m, Some "Received out-of-order engine status"%string)
                 else push
        | None => push
        end
    | _, _ => (m, None)
    end.

(** The loop of [historicalServerTime] over [this.intervals] from index [i]
    on: the server time, moved forward over gaps, and the chosen index. *)
Fixpoint choose (snapshots : list ServerTimeInterval) (i : nat)
         (serverTs : R) (chosen : option nat) : R * option nat :=
  match snapshots with
  | [] => (serverTs, chosen)
  | snapshot :: rest =>
      if decide (endTs snapshot < serverTs) then choose rest (S i) serverTs chosen
      else if decide (serverTs >= startTs snapshot) then (serverTs, Some i)
      else if decide (serverTs < startTs snapshot)
           then choose rest (S i) (startTs snapshot) (Some i)
           else choose rest (S i) serverTs chosen
  end.

(** [this.intervals[this.intervals.length - 1].endTs], for a list with a
    first element. *)
Definition lastEnd (first : ServerTimeInterval) (rest : list ServerTimeInterval) : R :=
  endTs (List.last rest first).

Definition historicalServerTime (clientNow : R) (m : HistoricalTimeManager)
  : option R * HistoricalTimeManager :=
  match intervals m with
  | [] => (None, m)
  | first :: rest =>
      if decide (prevClientTs m = Some clientNow) then (prevServerTs m, m)
      else
        let prevClient := nullish (prevClientTs m) clientNow in
        let prevServer := nullish (prevServerTs m) (startTs first) in
        let lastServerTs := lastEnd first rest in
        let bufferDuration := lastServerTs - prevServer in
        let rate :=
          if decide (bufferDuration < SOFT_MIN_SERVER_BUFFER_AGE) then 8 / 10
          else if decide (bufferDuration > SOFT_MAX_SERVER_BUFFER_AGE) then 12 / 10
          else 1 in
        let serverTs :=
          Rmax (prevServer + (clientNow - prevClient) * rate)
               (lastServerTs - MAX_SERVER_BUFFER_AGE) in
        let '(serverTs, chosen) := choose (intervals m) 0 serverTs None in
        let '(serverTs, chosen) :=
          match chosen with
          | Some c => (serverTs, c)
          | None => (lastEnd first rest, (List.length (intervals m) - 1)%nat)
          end in
        let toTrim := Nat.max (chosen - 1) 0 in
        let trimmedDuration :=
          if (0 <? toTrim)%nat
          then fold_left (fun d snapshot => d - (endTs snapshot - startTs snapshot))
                         (take toTrim (intervals m)) (totalDuration m)
          else totalDuration m in
        let trimmed :=
          if (0 <? toTrim)%nat then drop toTrim (intervals m) else intervals m in
        (Some serverTs,
         {| intervals := trimmed;
            prevClientTs := Some clientNow;
            prevServerTs := Some serverTs;
            totalDuration := trimmedDuration;
            latestEngineStatus := latestEngineStatus m |})
  end.

Definition bufferHealth (m : HistoricalTimeManager) : R :=
  match intervals m with
  | [] => 0
  | first :: rest => lastEnd first rest - nullish (prevServerTs m) (startTs first)
  end.

(** Successive animation frames: [historicalServerTime] called with each
    client time in turn, no status received in between. *)
Fixpoint frames (clientNows : list R) (m : HistoricalTimeManager) : list (option R) :=
  match clientNows with
  | [] => []
  | clientNow :: later =>
      let '(serverTs, m') := historicalServerTime clientNow m in
      serverTs :: frames later m'
  end.

(** A manager that holds the intervals [ivs] and has served no frame yet. *)
Definition holding (ivs : list ServerTimeInterval) : HistoricalTimeManager :=
  {| intervals := ivs; prevClientTs := None; prevServerTs := None;
     totalDuration := fold_left (fun d iv => d + (endTs iv - startTs iv)) ivs 0;
     latestEngineStatus := None |}.

(** An interval list as the status feed builds it: every interval ends no
    earlier than it starts, and the intervals end in order. *)
Definition ordered (ivs : list ServerTimeInterval) : Prop :=
  Forall (fun iv => startTs iv <= endTs iv) ivs /\
  Sorted (fun a b => endTs a <= endTs b) ivs.

(** ** Verification of [historicalServerTime] *)

(** What holds of a manager between frames while its interval list ends at
    [L]: every interval starts and ends at or before [L], and the last
    server time served lies in the window, with a client time beside it. *)
Definition Inv (L : R) (m : HistoricalTimeManager) : Prop :=
  endTs <$> last (intervals m) = Some L /\
  Forall (fun iv => startTs iv <= L /\ endTs iv <= L) (intervals m) /\
  (forall c, prevClientTs m = Some c -> is_Some (prevServerTs m)) /\
  (forall s, prevServerTs m = Some s -> L - MAX_SERVER_BUFFER_AGE <= s <= L).

Lemma last_List_last (first : ServerTimeInterval) (rest : list ServerTimeInterval) :
  last (first :: rest) = Some (List.last rest first).
Proof.
  revert first. induction rest as [|second rest IH]; intros first; [reflexivity|].
  rewrite last_cons_cons, IH. f_equal.
  destruct rest as [|third rest]; [reflexivity|].
  cbn [List.last].
  change (List.last (third :: rest) second = List.last (third :: rest) first).
  clear IH. revert third. induction rest as [|fourth rest IH]; intros third;
    [reflexivity|].
  change (List.last (fourth :: rest) second = List.last (fourth :: rest) first).
  apply IH.
Qed.

Lemma last_drop_lt (n : nat) (l : list ServerTimeInterval) :
  (n < List.length l)%nat -> last (drop n l) = last l.
Proof.
  revert l. induction n as [|n IH]; intros l Hn; [rewrite drop_0; reflexivity|].
  destruct l as [|a l]; [cbn in Hn; lia|].
  destruct l as [|b l]; [cbn in Hn; lia|].
  rewrite last_cons_cons. cbn [drop]. apply IH. cbn in *. lia.
Qed.

Lemma ordered_bounded (ivs : list ServerTimeInterval) (L : R) :
  ordered ivs -> endTs <$> last ivs = Some L ->
  Forall (fun iv => startTs iv <= L /\ endTs iv <= L) ivs.
Proof.
  intros [Hse Hs]. induction ivs as [|a ivs IH]; intros HL; [constructor|].
  inversion Hse as [|? ? Ha Hse']; subst.
  inversion Hs as [|? ? Hs' Hhd]; subst.
  destruct ivs as [|b ivs].
  - cbn in HL. inversion HL; subst. constructor; [lra|constructor].
  - rewrite last_cons_cons in HL. specialize (IH Hse' Hs' HL).
    constructor; [|exact IH].
    inversion Hhd; subst. inversion IH; subst. lra.
Qed.

Lemma choose_spec (L : R) :
  forall snapshots i serverTs chosen serverTs' chosen',
    Forall (fun iv => startTs iv <= L /\ endTs iv <= L) snapshots ->
    (chosen <> None -> serverTs <= L) ->
    choose snapshots i serverTs chosen = (serverTs', chosen') ->
    serverTs <= serverTs' /\
    (chosen' <> None -> serverTs' <= L) /\
    (chosen' = None -> chosen = None) /\
    (forall c, chosen' = Some c ->
               chosen = Some c \/ (i <= c < i + List.length snapshots)%nat).
Proof.
  induction snapshots as [|snapshot rest IH];
    intros i serverTs chosen serverTs' chosen' Hall Hch Hrun.
  - cbn in Hrun. inversion Hrun; subst. repeat split; auto; lra.
  - inversion Hall as [|? ? [Hs He] Hall']; subst. cbn [choose] in Hrun.
    destruct (decide (endTs snapshot < serverTs)) as [Hpast|Hnot].
    + destruct (IH _ _ _ _ _ Hall' Hch Hrun) as (H1 & H2 & H3 & H4).
      repeat split; auto. intros c Hc. destruct (H4 c Hc); [auto|].
      right. cbn. lia.
    + destruct (decide (serverTs >= startTs snapshot)) as [Hin|Hgap].
      * inversion Hrun; subst. repeat split.
        -- lra.
        -- intros _. lra.
        -- congruence.
        -- intros c Hc. inversion Hc; subst. right. cbn. lia.
      * rewrite decide_True in Hrun by lra.
        destruct (IH _ _ _ _ _ Hall' (fun _ => Hs) Hrun) as (H1 & H2 & H3 & H4).
        repeat split.
        -- lra.
        -- exact H2.
        -- intros Hn. specialize (H3 Hn). congruence.
        -- intros c Hc. right. destruct (H4 c Hc) as [H|H]; [|cbn; lia].
           inversion H; subst. cbn. lia.
Qed.

(** One frame, from a manager in the invariant. *)
Lemma historicalServerTime_step (L : R) (clientNow : R) (m : HistoricalTimeManager) :
  Inv L m ->
  exists serverTs m',
    historicalServerTime clientNow m = (Some serverTs, m') /\
    L - MAX_SERVER_BUFFER_AGE <= serverTs <= L /\
    Inv L m' /\
    prevClientTs m' = Some clientNow /\
    prevServerTs m' = Some serverTs /\
    (forall prevClient prevServer,
        prevClientTs m = Some prevClient -> prevServerTs m = Some prevServer ->
        prevClient <= clientNow -> prevServer <= serverTs).
Proof.
  intros (HL & Hall & Hcs & Hs). unfold historicalServerTime.
  destruct (intervals m) as [|first rest] eqn:Hivs; [discriminate|].
  destruct (decide (prevClientTs m = Some clientNow)) as [Hsame|Hdiff].
  - destruct (Hcs _ Hsame) as [s Hps]. exists s, m.
    split; [rewrite Hps; reflexivity|]. split; [apply Hs, Hps|].
    split; [unfold Inv; rewrite Hivs; auto|].
    split; [exact Hsame|]. split; [exact Hps|].
    intros pc ps' _ Hps' _. rewrite Hps in Hps'. inversion Hps'; subst. lra.
  - assert (HlastEnd : lastEnd first rest = L).
    { unfold lastEnd. rewrite last_List_last in HL. cbn in HL. congruence. }
    rewrite HlastEnd.
    set (prevClient := nullish (prevClientTs m) clientNow).
    set (prevServer := nullish (prevServerTs m) (startTs first)).
    set (rate := if decide (L - prevServer < SOFT_MIN_SERVER_BUFFER_AGE) then 8 / 10
                 else if decide (L - prevServer > SOFT_MAX_SERVER_BUFFER_AGE)
                      then 12 / 10 else 1).
    assert (Hrate : 0 < rate).
    { unfold rate. repeat case_decide; lra. }
    set (serverTs0 := Rmax (prevServer + (clientNow - prevClient) * rate)
                           (L - MAX_SERVER_BUFFER_AGE)).
    assert (Hlow0 : L - MAX_SERVER_BUFFER_AGE <= serverTs0) by apply Rmax_r.
    destruct (choose (first :: rest) 0 serverTs0 None) as [serverTs1 chosen1] eqn:Hch.
    destruct (choose_spec L _ _ _ _ _ _ Hall (fun H => False_ind _ (H eq_refl)) Hch)
      as (Hge & Hle & _ & Hidx).
    assert (Hfin : exists serverTs chosen,
               match chosen1 with
               | Some c => (serverTs1, c)
               | None => (L, (List.length (first :: rest) - 1)%nat)
               end = (serverTs, chosen) /\
               L - MAX_SERVER_BUFFER_AGE <= serverTs <= L /\
               (chosen < List.length (first :: rest))%nat /\
               (serverTs = L \/ serverTs0 <= serverTs)).
    { destruct chosen1 as [c|]; eexists _, _; (split; [reflexivity|]).
      - split; [split; [lra|apply Hle; congruence]|].
        split; [|right; exact Hge].
        destruct (Hidx c eq_refl) as [H|H]; [discriminate|lia].
      - split; [unfold MAX_SERVER_BUFFER_AGE; lra|].
        split; [cbn; lia|left; reflexivity]. }
    destruct Hfin as (serverTs & chosen & Hfinal & Hbounds & Hchosen & Hfrom).
    rewrite Hfinal.
    eexists _, _. split; [reflexivity|]. cbn [prevClientTs prevServerTs].
    split; [exact Hbounds|]. split; [|split; [reflexivity|split; [reflexivity|]]].
    + unfold Inv. cbn [intervals prevClientTs prevServerTs].
      set (toTrim := Nat.max (chosen - 1) 0).
      assert (HtoTrim : (toTrim < List.length (first :: rest))%nat)
        by (unfold toTrim; lia).
      split; [|split; [|split]].
      * destruct (0 <? toTrim)%nat; [|exact HL].
        rewrite last_drop_lt by exact HtoTrim. exact HL.
      * destruct (0 <? toTrim)%nat; [|exact Hall]. apply Forall_drop, Hall.
      * intros c _. eauto.
      * intros s Hs'. inversion Hs'; subst. exact Hbounds.
    + intros pc ps Hpc Hps Hmono.
      assert (ps <= L) by (apply Hs, Hps).
      assert (ps <= serverTs0).
      { unfold serverTs0, prevServer, prevClient. rewrite Hpc, Hps. cbn [nullish].
        eapply Rle_trans; [|apply Rmax_l].
        assert (0 <= (clientNow - pc) * rate) by (apply Rmult_le_pos; lra). lra. }
      destruct Hfrom; lra.
Qed.

Lemma holding_Inv (first : ServerTimeInterval) (rest : list ServerTimeInterval) :
  ordered (first :: rest) -> Inv (lastEnd first rest) (holding (first :: rest)).
Proof.
  intros Hord. unfold Inv, holding. cbn [intervals prevClientTs prevServerTs].
  assert (HL : endTs <$> last (first :: rest) = Some (lastEnd first rest)).
  { rewrite last_List_last. reflexivity. }
  split; [exact HL|]. split; [apply ordered_bounded; assumption|].
  split; intros ? H; discriminate.
Qed.

Lemma frames_spec (L : R) :
  forall clientNows m,
    Inv L m ->
    exists serverTss,
      frames clientNows m = Some <$> serverTss /\
      Forall (fun serverTs => L - MAX_SERVER_BUFFER_AGE <= serverTs <= L) serverTss /\
      (forall prevClient prevServer,
          prevClientTs m = Some prevClient -> prevServerTs m = Some prevServer ->
          Sorted Rle (prevClient :: clientNows) -> Sorted Rle (prevServer :: serverTss)) /\
      (prevClientTs m = None -> Sorted Rle clientNows -> Sorted Rle serverTss).
Proof.
  induction clientNows as [|clientNow later IH]; intros m HInv.
  - exists []. cbn. repeat split; auto.
  - destruct (historicalServerTime_step L clientNow m HInv)
      as (serverTs & m' & Hstep & Hb & HInv' & Hpc & Hps & Hmono).
    destruct (IH m' HInv') as (rs & Hrun & Hall & Hsorted & _).
    exists (serverTs :: rs). cbn [frames]. rewrite Hstep, Hrun.
    split; [reflexivity|]. split; [constructor; assumption|].
    assert (Htail : Sorted Rle (clientNow :: later) -> Sorted Rle (serverTs :: rs)).
    { intros Hs. apply (Hsorted clientNow serverTs Hpc Hps Hs). }
    split.
    + intros pc ps Hpc0 Hps0 Hs.
      inversion Hs as [|? ? Hs' Hhd]; subst. inversion Hhd; subst.
      constructor; [apply Htail, Hs'|]. constructor. eapply Hmono; eauto.
    + intros _ Hs. apply Htail, Hs.
Qed.

(** What [receive] appends keeps the list ordered, when the status has
    [lastStepTs <= currentTime] as the engine has it. *)
Lemma receive_ordered (now lastStep : R) (m : HistoricalTimeManager) :
  ordered (intervals m) -> lastStep <= now ->
  ordered (intervals (receive {| currentTime := Some now; lastStepTs := Some lastStep |} m).1).
Proof.
  intros [Hse Hs] Hle. unfold receive. cbn [currentTime lastStepTs].
  destruct (falsy (Some now) || falsy (Some lastStep)); [split; assumption|].
  cbn [intervals].
  assert (Hpush : forall latest,
             last (intervals m) = Some latest -> endTs latest <= now ->
             ordered (intervals m ++ [{| startTs := lastStep; endTs := now |}])).
  { intros latest Hlast Hend. split.
    - apply Forall_app. split; [exact Hse|]. constructor; [exact Hle|constructor].
    - clear Hse. revert Hlast. induction (intervals m) as [|a l IH]; intros Hlast;
        [discriminate|].
      inversion Hs as [|? ? Hs' Hhd]; subst. destruct l as [|b l].
      + cbn in Hlast. inversion Hlast; subst. cbn.
        constructor; [constructor; constructor|]. constructor. exact Hend.
      + rewrite last_cons_cons in Hlast. specialize (IH Hs' Hlast).
        cbn [app] in *. constructor; [exact IH|].
        inversion Hhd; subst. constructor. assumption. }
  destruct (last (intervals m)) as [latest|] eqn:Hlast.
  - destruct (decide (endTs latest = now)); [split; assumption|].
    destruct (decide (endTs latest > now)); [split; assumption|].
    cbn [fst intervals]. apply (Hpush latest eq_refl). lra.
  - cbn [fst intervals]. apply last_None in Hlast. rewrite Hlast. cbn.
    split; [constructor; [exact Hle|constructor]|].
    constructor; constructor.
Qed.

(** Frames within the window: on a manager that holds a fixed, non-empty
    list of intervals (each ending no earlier than it starts, ending in
    order), that has served no frame yet or whose last served time lies
    within 1250 of the end of the last interval, whatever the client times
    of the successive frames, every
    value [historicalServerTime] returns is a number, at least the last
    interval's end minus 1250 and at most the last interval's end; and when
    the client times do not decrease from frame to frame (starting from the
    client time of the last frame served, if any), neither do the values
    returned. *)
Theorem historicalServerTime_monotone_bounded
  (m : HistoricalTimeManager) (first : ServerTimeInterval)
  (rest : list ServerTimeInterval) (clientNows : list R) :
  intervals m = first :: rest ->
  ordered (first :: rest) ->
  (forall c, prevClientTs m = Some c -> is_Some (prevServerTs m)) ->
  (forall s, prevServerTs m = Some s ->
             endTs (List.last rest first) - 1250 <= s <= endTs (List.last rest first)) ->
  exists serverTss,
    frames clientNows m = Some <$> serverTss /\
    Forall (fun serverTs =>
              endTs (List.last rest first) - 1250 <= serverTs
              <= endTs (List.last rest first)) serverTss /\
    (prevClientTs m = None -> Sorted Rle clientNows -> Sorted Rle serverTss) /\
    (forall prevClient prevServer,
        prevClientTs m = Some prevClient -> prevServerTs m = Some prevServer ->
        Sorted Rle (prevClient :: clientNows) -> Sorted Rle (prevServer :: serverTss)).
Proof.
  intros Hivs Hord Hcs Hs.
  destruct (frames_spec (lastEnd first rest) clientNows m)
    as (rs & Hrun & Hall & Hprev & Hsorted).
  { unfold Inv. rewrite Hivs.
    assert (HL : endTs <$> last (first :: rest) = Some (lastEnd first rest)).
    { rewrite last_List_last. reflexivity. }
    split; [exact HL|]. split; [apply ordered_bounded; assumption|].
    split; [exact Hcs|exact Hs]. }
  exists rs. split; [exact Hrun|]. split; [exact Hall|].
  split; [exact Hsorted|exact Hprev].
Qed.

(** The rate-control scenario of the specification: two seconds of buffer
    make the playback run at 1.2. *)
Definition twoSeconds : list ServerTimeInterval :=
  [ {| startTs := 0; endTs := 1000 |}; {| startTs := 1000; endTs := 2000 |} ].

Example rate_control_scenario :
  fst (historicalServerTime 1000
         {| intervals := twoSeconds; prevClientTs := Some 0; prevServerTs := Some 0;
            totalDuration := 2000; latestEngineStatus := None |})
  = Some 1200.
Proof.
  unfold historicalServerTime, twoSeconds, lastEnd, SOFT_MIN_SERVER_BUFFER_AGE,
    SOFT_MAX_SERVER_BUFFER_AGE, MAX_SERVER_BUFFER_AGE.
  cbn [intervals prevClientTs prevServerTs List.last endTs startTs nullish].
  evaluate_tests.
  rewrite Rmax_left by lra.
  cbn [choose endTs startTs]. evaluate_tests.
  cbn. f_equal. lra.
Qed.

Lemma historicalServerTime_monotone_bounded_witness :
  exists serverTss,
    frames [0; 16; 16; 1000] (holding twoSeconds) = Some <$> serverTss /\
    Forall (fun serverTs => 2000 - 1250 <= serverTs <= 2000) serverTss /\
    (Sorted Rle [0; 16; 16; 1000] -> Sorted Rle serverTss).
Proof.
  destruct (historicalServerTime_monotone_bounded
              (holding twoSeconds)
              {| startTs := 0; endTs := 1000 |}
              [ {| startTs := 1000; endTs := 2000 |} ] [0; 16; 16; 1000])
    as (serverTss & Hrun & Hall & Hsorted & _).
  - reflexivity.
  - split; repeat constructor; cbn; lra.
  - intros c Hc. discriminate.
  - intros s Hs. discriminate.
  - exists serverTss. split; [exact Hrun|]. split; [exact Hall|].
    apply Hsorted. reflexivity.
Defined.

(** ** [receive] *)

(** The manager with [interval] appended, as [receive] leaves it. *)
Definition appended (engineStatus : EngineStatus) (interval : ServerTimeInterval)
           (m : HistoricalTimeManager) : HistoricalTimeManager :=
  {| intervals := intervals m ++ [interval];
     prevClientTs := prevClientTs m;
     prevServerTs := prevServerTs m;
     totalDuration := totalDuration m + (endTs interval - startTs interval);
     latestEngineStatus := Some engineStatus |}.

(** A status with both timestamps set and different from 0: a no-op on the
    intervals when [currentTime] is the end of the last interval, the
    out-of-order error when it is earlier, the interval
    [[lastStepTs, currentTime]] appended otherwise. *)
Lemma receive_nonzero (now lastStep : R) (m : HistoricalTimeManager) :
  now <> 0 -> lastStep <> 0 ->
  let engineStatus := {| currentTime := Some now; lastStepTs := Some lastStep |} in
  let '(m', error) := receive engineStatus m in
  match last (intervals m) with
  | Some latest =>
      (endTs latest = now -> intervals m' = intervals m /\ error = None) /\
      (now < endTs latest ->
       intervals m' = intervals m /\
       error = Some "Received out-of-order engine status"%string) /\
      (endTs latest < now ->
       m' = appended engineStatus {| startTs := lastStep; endTs := now |} m /\
       error = None)
  | None =>
      m' = appended engineStatus {| startTs := lastStep; endTs := now |} m /\
      error = None
  end.
Proof.
  intros Hnow Hstep. unfold receive. cbn [currentTime lastStepTs falsy].
  rewrite !bool_decide_eq_false_2 by assumption. cbn [orb intervals].
  destruct (last (intervals m)) as [latest|].
  - destruct (decide (endTs latest = now)) as [Heq|Hne].
    + repeat split; auto; intros; lra.
    + destruct (decide (endTs latest > now)) as [Hgt|Hle].
      * repeat split; auto; intros; lra.
      * repeat split; auto; intros; lra.
  - split; reflexivity.
Qed.

(** A status that misses one of the timestamps changes no interval. *)
Lemma receive_missing (engineStatus : EngineStatus) (m : HistoricalTimeManager) :
  currentTime engineStatus = None \/ lastStepTs engineStatus = None ->
  intervals (fst (receive engineStatus m)) = intervals m /\
  snd (receive engineStatus m) = None.
Proof.
  intros H. unfold receive.
  destruct (currentTime engineStatus), (lastStepTs engineStatus);
    destruct H; try discriminate; cbn [falsy orb];
    try (destruct (bool_decide _)); split; reflexivity.
Qed.

(** C7 (where the code departs from it): a status whose [lastStepTs] is set
    to 0 and whose [currentTime] is 1000, received by a manager with no
    interval, appends nothing: [!engineStatus.lastStepTs] takes 0 for a
    missing timestamp. *)
Theorem receive_drops_zero_timestamp :
  receive {| currentTime := Some 1000; lastStepTs := Some 0 |} newManager
  = ({| intervals := []; prevClientTs := None; prevServerTs := None;
        totalDuration := 0;
        latestEngineStatus :=
          Some {| currentTime := Some 1000; lastStepTs := Some 0 |} |},
     None).
Proof.
  unfold receive. cbn [currentTime lastStepTs falsy].
  evaluate_tests. reflexivity.
Qed.

(** ** The bookkeeping of the manager *)

(** [clockSkew]: [!n] takes a timestamp of 0 for a missing one. *)
Definition clockSkew (m : HistoricalTimeManager) : R :=
  if falsy (prevClientTs m) || falsy (prevServerTs m) then 0
  else
    match prevClientTs m, prevServerTs m with
    | Some prevClient, Some prevServer => prevClient - prevServer
    | _, _ => 0
    end.

(** The time the intervals [ivs] cover. *)
Fixpoint durations (ivs : list ServerTimeInterval) : R :=
  match ivs with
  | [] => 0
  | iv :: later => (endTs iv - startTs iv) + durations later
  end.

(** [totalDuration] is the time the intervals of the manager cover. *)
Definition accounted (m : HistoricalTimeManager) : Prop :=
  totalDuration m = durations (intervals m).

(** The intervals end later and later. *)
Definition endsIncreasing (ivs : list ServerTimeInterval) : Prop :=
  Sorted (fun a b => endTs a < endTs b) ivs.

Lemma durations_app (ivs more : list ServerTimeInterval) :
  durations (ivs ++ more) = durations ivs + durations more.
Proof.
  induction ivs as [|iv ivs IH]; cbn [app durations]; [lra|]. rewrite IH. lra.
Qed.

Lemma endsIncreasing_snoc (ivs : list ServerTimeInterval) (new : ServerTimeInterval) :
  endsIncreasing ivs ->
  (forall latest, last ivs = Some latest -> endTs latest < endTs new) ->
  endsIncreasing (ivs ++ [new]).
Proof.
  unfold endsIncreasing. induction ivs as [|a l IH]; intros Hinc Hlater.
  - cbn. constructor; constructor.
  - inversion Hinc as [|? ? Hinc' Hhd]; subst. destruct l as [|b l].
    + cbn. constructor; [constructor; constructor|]. constructor.
      apply (Hlater a). reflexivity.
    + cbn [app]. constructor.
      * apply IH; [exact Hinc'|]. intros latest Hl. apply Hlater.
        rewrite last_cons_cons. exact Hl.
      * inversion Hhd; subst. constructor. assumption.
Qed.

Lemma durations_trim (n : nat) :
  forall (ivs : list ServerTimeInterval) (total : R),
    fold_left (fun d snapshot => d - (endTs snapshot - startTs snapshot))
              (take n ivs) total
    = total - durations (take n ivs).
Proof.
  induction n as [|n IH]; intros ivs total.
  - rewrite take_0. cbn [fold_left durations]. lra.
  - destruct ivs as [|iv ivs]; [cbn [take fold_left durations]; lra|].
    cbn [take fold_left durations]. rewrite IH. lra.
Qed.

(** The index [choose] settles on is an index of the list. *)
Lemma choose_index :
  forall snapshots i serverTs chosen serverTs' c,
    choose snapshots i serverTs chosen = (serverTs', Some c) ->
    chosen = Some c \/ (i <= c < i + List.length snapshots)%nat.
Proof.
  induction snapshots as [|snapshot rest IH]; intros i serverTs chosen serverTs' c Hrun.
  - cbn in Hrun. inversion Hrun; subst. left. reflexivity.
  - cbn [choose] in Hrun. cbn [List.length].
    destruct (decide (endTs snapshot < serverTs)).
    + destruct (IH _ _ _ _ _ Hrun) as [H|H]; [left; exact H|right; lia].
    + destruct (decide (serverTs >= startTs snapshot)).
      * inversion Hrun; subst. right. lia.
      * destruct (decide (serverTs < startTs snapshot)).
        -- destruct (IH _ _ _ _ _ Hrun) as [H|H]; [|right; lia].
           inversion H; subst. right. lia.
        -- destruct (IH _ _ _ _ _ Hrun) as [H|H]; [left; exact H|right; lia].
Qed.

(** What one call of [historicalServerTime] that computes a new time
    leaves: a number was returned and recorded with the client time, and
    the intervals lost fewer elements at their front than they had. *)
Lemma historicalServerTime_fresh (clientNow : R) (m : HistoricalTimeManager) :
  intervals m <> [] -> prevClientTs m <> Some clientNow ->
  exists serverTs n,
    (historicalServerTime clientNow m).1 = Some serverTs /\
    prevClientTs (historicalServerTime clientNow m).2 = Some clientNow /\
    prevServerTs (historicalServerTime clientNow m).2 = Some serverTs /\
    (n < List.length (intervals m))%nat /\
    intervals (historicalServerTime clientNow m).2 = drop n (intervals m) /\
    totalDuration (historicalServerTime clientNow m).2
    = totalDuration m - durations (take n (intervals m)) /\
    latestEngineStatus (historicalServerTime clientNow m).2 = latestEngineStatus m.
Proof.
  intros Hne Hfresh. unfold historicalServerTime.
  destruct (intervals m) as [|first rest] eqn:Hivs; [congruence|].
  rewrite decide_False by exact Hfresh.
  destruct (choose (first :: rest) 0 _ None) as [serverTs1 chosen1] eqn:Hch.
  assert (Hfin : exists serverTs chosen,
             match chosen1 with
             | Some c => (serverTs1, c)
             | None => (lastEnd first rest, (List.length (first :: rest) - 1)%nat)
             end = (serverTs, chosen) /\
             (chosen < List.length (first :: rest))%nat).
  { destruct chosen1 as [c|]; eexists _, _; (split; [reflexivity|]).
    - destruct (choose_index _ _ _ _ _ _ Hch) as [H|H]; [discriminate|lia].
    - cbn. lia. }
  destruct Hfin as (serverTs & chosen & Hfinal & Hchosen). rewrite Hfinal.
  exists serverTs, (Nat.max (chosen - 1) 0).
  cbn [fst snd prevClientTs prevServerTs intervals totalDuration latestEngineStatus].
  split; [reflexivity|]. split; [reflexivity|]. split; [reflexivity|].
  split; [lia|].
  destruct (Nat.ltb_spec 0 (Nat.max (chosen - 1) 0)) as [Hpos|Hzero].
  - split; [reflexivity|]. split; [apply durations_trim|reflexivity].
  - replace (Nat.max (chosen - 1) 0) with 0%nat by lia.
    rewrite drop_0, take_0. cbn [durations].
    split; [reflexivity|]. split; [lra|reflexivity].
Qed.

(** X8: [totalDuration] always is the time the intervals held cover: it is
    so for a new manager, and [receive] and [historicalServerTime] (which
    trims intervals) keep it so. *)
Theorem totalDuration_is_covered_time :
  accounted newManager /\
  (forall m engineStatus, accounted m -> accounted (receive engineStatus m).1) /\
  (forall m clientNow, accounted m -> accounted (historicalServerTime clientNow m).2).
Proof.
  split; [reflexivity|]. split.
  - intros m engineStatus Hacc. unfold accounted in *. unfold receive.
    destruct (falsy (currentTime engineStatus) || falsy (lastStepTs engineStatus));
      [exact Hacc|].
    destruct (currentTime engineStatus) as [now|]; [|exact Hacc].
    destruct (lastStepTs engineStatus) as [lastStep|]; [|exact Hacc].
    cbn [intervals totalDuration].
    assert (Hpush : totalDuration m + (now - lastStep)
                    = durations (intervals m ++ [{| startTs := lastStep; endTs := now |}])).
    { rewrite durations_app, Hacc. cbn [durations startTs endTs]. lra. }
    destruct (last (intervals m)) as [latest|]; [|exact Hpush].
    destruct (decide (endTs latest = now)); [exact Hacc|].
    destruct (decide (endTs latest > now)); [exact Hacc|exact Hpush].
  - intros m clientNow Hacc. unfold accounted in *.
    destruct (decide (intervals m = [])) as [Hnil|Hne].
    { unfold historicalServerTime. rewrite Hnil. exact Hacc. }
    destruct (decide (prevClientTs m = Some clientNow)) as [Hsame|Hfresh].
    { unfold historicalServerTime. destruct (intervals m) eqn:Hivs; [congruence|].
      rewrite decide_True by exact Hsame. cbn [snd]. rewrite Hivs. exact Hacc. }
    destruct (historicalServerTime_fresh clientNow m Hne Hfresh)
      as (serverTs & n & _ & _ & _ & _ & Hivs & Htotal & _).
    rewrite Htotal, Hivs, Hacc.
    rewrite <- (take_drop n (intervals m)) at 1. rewrite durations_app. lra.
Qed.

Lemma totalDuration_is_covered_time_witness :
  accounted
    (historicalServerTime 16
       (receive {| currentTime := Some 2000; lastStepTs := Some 1000 |} newManager).1).2.
Proof.
  destruct totalDuration_is_covered_time as (Hnew & Hreceive & Hframe).
  apply Hframe, Hreceive, Hnew.
Defined.

(** X9: [receive] is idempotent (the hook hands it the same status at
    every render): a second call with the same status changes nothing and
    ends as the first did.  It never removes or changes an interval, it
    adds at most one at the end, it keeps the intervals ending later and
    later, and when it throws the intervals are those it found. *)
Theorem receive_idempotent (engineStatus : EngineStatus) (m : HistoricalTimeManager) :
  receive engineStatus (receive engineStatus m).1 = receive engineStatus m /\
  (exists added,
      intervals (receive engineStatus m).1 = intervals m ++ added /\
      (List.length added <= 1)%nat) /\
  (endsIncreasing (intervals m) -> endsIncreasing (intervals (receive engineStatus m).1)) /\
  ((receive engineStatus m).2 <> None ->
   intervals (receive engineStatus m).1 = intervals m).
Proof.
  unfold receive.
  destruct (falsy (currentTime engineStatus) || falsy (lastStepTs engineStatus)) eqn:Hfalsy.
  { cbn [fst snd intervals prevClientTs prevServerTs totalDuration latestEngineStatus].
    repeat split; auto. exists []. rewrite app_nil_r. split; [reflexivity|cbn; lia]. }
  destruct (currentTime engineStatus) as [now|] eqn:Hnow; [|discriminate].
  destruct (lastStepTs engineStatus) as [lastStep|] eqn:Hstep;
    [|cbn in Hfalsy; rewrite orb_true_r in Hfalsy; discriminate].
  cbn [intervals prevClientTs prevServerTs totalDuration latestEngineStatus].
  set (new := {| startTs := lastStep; endTs := now |}).
  destruct (last (intervals m)) as [latest|] eqn:Hlast.
  - destruct (decide (endTs latest = now)) as [Heq|Hne].
    + cbn [fst snd intervals]. rewrite Hlast, decide_True by exact Heq.
      repeat split; auto. exists []. rewrite app_nil_r. split; [reflexivity|cbn; lia].
    + destruct (decide (endTs latest > now)) as [Hgt|Hle].
      * cbn [fst snd intervals]. rewrite Hlast, decide_False by exact Hne.
        rewrite decide_True by exact Hgt.
        repeat split; auto. exists []. rewrite app_nil_r. split; [reflexivity|cbn; lia].
      * cbn [fst snd intervals prevClientTs prevServerTs totalDuration latestEngineStatus].
        rewrite last_snoc. cbn [endTs new]. rewrite decide_True by reflexivity.
        split; [reflexivity|]. split; [exists [new]; split; [reflexivity|cbn; lia]|].
        split; [|intros Hthrew; congruence].
        intros Hinc. apply endsIncreasing_snoc; [exact Hinc|].
        intros l Hl. rewrite Hlast in Hl. inversion Hl; subst. cbn. lra.
  - cbn [fst snd intervals prevClientTs prevServerTs totalDuration latestEngineStatus].
    rewrite last_snoc. cbn [endTs new]. rewrite decide_True by reflexivity.
    split; [reflexivity|]. split; [exists [new]; split; [reflexivity|cbn; lia]|].
    split; [|intros Hthrew; congruence].
    intros _. apply last_None in Hlast. rewrite Hlast. cbn.
    constructor; constructor.
Qed.

Lemma last_drop_keeps (n : nat) (ivs : list ServerTimeInterval) :
  (n < List.length ivs)%nat -> drop n ivs <> [] /\ last (drop n ivs) = last ivs.
Proof.
  intros Hn. split; [|apply last_drop_lt, Hn].
  intros Hnil. apply (f_equal (@List.length _)) in Hnil.
  rewrite length_drop in Hnil. cbn in Hnil. lia.
Qed.

(** X10: [historicalServerTime] answers [undefined] without touching the
    manager while there is no interval.  Otherwise it answers a number, and
    asked again for the same client time it answers the same and changes
    nothing.  What it trims are intervals at the front of the list, never
    all of them: the list stays non-empty and keeps its last interval. *)
Theorem historicalServerTime_repeatable (clientNow : R) (m : HistoricalTimeManager) :
  let served := (historicalServerTime clientNow m).1 in
  let m' := (historicalServerTime clientNow m).2 in
  (intervals m = [] -> served = None /\ m' = m) /\
  (intervals m <> [] ->
   (prevClientTs m <> Some clientNow -> is_Some served) /\
   historicalServerTime clientNow m' = (served, m') /\
   (exists n, (n < List.length (intervals m))%nat /\ intervals m' = drop n (intervals m)) /\
   intervals m' <> [] /\
   last (intervals m') = last (intervals m)).
Proof.
  cbv zeta. split.
  - intros Hnil. unfold historicalServerTime. rewrite Hnil. split; reflexivity.
  - intros Hne.
    destruct (decide (prevClientTs m = Some clientNow)) as [Hsame|Hfresh].
    + assert (Hcached : historicalServerTime clientNow m = (prevServerTs m, m)).
      { unfold historicalServerTime. destruct (intervals m); [congruence|].
        rewrite decide_True by exact Hsame. reflexivity. }
      rewrite Hcached. cbn [fst snd].
      split; [intros Hno; contradiction|]. split; [exact Hcached|].
      split; [|split; [exact Hne|reflexivity]].
      exists 0%nat. rewrite drop_0. split; [|reflexivity].
      destruct (intervals m); [congruence|cbn; lia].
    + destruct (historicalServerTime_fresh clientNow m Hne Hfresh)
        as (serverTs & n & Hserved & Hpc & Hps & Hn & Hivs & _ & _).
      destruct (last_drop_keeps n (intervals m) Hn) as [Hkept Hlast].
      split; [intros _; rewrite Hserved; eauto|].
      split; [|split; [exists n; split; assumption|rewrite Hivs; split; assumption]].
      destruct (historicalServerTime clientNow m) as [served m'] eqn:Hrun.
      cbn [fst snd] in *. unfold historicalServerTime.
      destruct (intervals m') as [|first rest]; [rewrite Hivs in Hkept; congruence|].
      rewrite decide_True by exact Hpc. rewrite Hps, Hserved. reflexivity.
Qed.

Lemma historicalServerTime_repeatable_witness :
  is_Some (historicalServerTime 16 (holding twoSeconds)).1 /\
  historicalServerTime 16 (historicalServerTime 16 (holding twoSeconds)).2
  = historicalServerTime 16 (holding twoSeconds).
Proof.
  destruct (historicalServerTime_repeatable 16 (holding twoSeconds)) as [_ H].
  destruct H as (Hserved & Hagain & _); [discriminate|].
  split; [apply Hserved; discriminate|].
  rewrite Hagain. destruct (historicalServerTime 16 (holding twoSeconds)); reflexivity.
Defined.

(** X11: after a frame on a manager whose intervals are ordered and whose
    last served time, if any, lies within 1250 of the end of the last
    interval, [bufferHealth] is that end minus the time just served, which
    is between 0 and 1250; and [clockSkew] is the client time of the frame
    minus the time served, or 0 when one of the two is 0. *)
Theorem bufferHealth_after_frame
  (m : HistoricalTimeManager) (first : ServerTimeInterval)
  (rest : list ServerTimeInterval) (clientNow : R) :
  intervals m = first :: rest ->
  ordered (first :: rest) ->
  (forall c, prevClientTs m = Some c -> is_Some (prevServerTs m)) ->
  (forall s, prevServerTs m = Some s ->
             endTs (List.last rest first) - 1250 <= s <= endTs (List.last rest first)) ->
  exists serverTs m',
    historicalServerTime clientNow m = (Some serverTs, m') /\
    bufferHealth m' = endTs (List.last rest first) - serverTs /\
    0 <= bufferHealth m' <= 1250 /\
    clockSkew m' = (if decide (clientNow = 0 \/ serverTs = 0) then 0
                    else clientNow - serverTs).
Proof.
  intros Hivs Hord Hcs Hs.
  assert (HL : endTs <$> last (first :: rest) = Some (lastEnd first rest)).
  { rewrite last_List_last. reflexivity. }
  destruct (historicalServerTime_step (lastEnd first rest) clientNow m)
    as (serverTs & m' & Hstep & Hb & (HL' & _) & Hpc & Hps & _).
  { unfold Inv. rewrite Hivs. split; [exact HL|].
    split; [apply ordered_bounded; assumption|]. split; [exact Hcs|exact Hs]. }
  exists serverTs, m'. split; [exact Hstep|].
  assert (Hhealth : bufferHealth m' = lastEnd first rest - serverTs).
  { unfold bufferHealth. destruct (intervals m') as [|first' rest']; [discriminate|].
    rewrite last_List_last in HL'. cbn in HL'. inversion HL' as [HL''].
    unfold lastEnd at 1. rewrite HL'', Hps. reflexivity. }
  split; [exact Hhealth|]. split.
  - rewrite Hhealth. unfold MAX_SERVER_BUFFER_AGE in Hb. unfold lastEnd in *. lra.
  - unfold clockSkew. rewrite Hpc, Hps. cbn [falsy].
    destruct (decide (clientNow = 0 \/ serverTs = 0)) as [[H0|H0]|Hnz].
    + rewrite (bool_decide_eq_true_2 _ H0). reflexivity.
    + rewrite (bool_decide_eq_true_2 _ H0), orb_true_r. reflexivity.
    + rewrite !bool_decide_eq_false_2 by tauto. reflexivity.
Qed.

Lemma bufferHealth_after_frame_witness :
  exists serverTs m',
    historicalServerTime 16 (holding twoSeconds) = (Some serverTs, m') /\
    bufferHealth m' = 2000 - serverTs /\
    0 <= bufferHealth m' <= 1250 /\
    clockSkew m' = (if decide (16 = 0 \/ serverTs = 0) then 0 else 16 - serverTs).
Proof.
  apply (bufferHealth_after_frame (holding twoSeconds)
           {| startTs := 0; endTs := 1000 |}
           [ {| startTs := 1000; endTs := 2000 |} ] 16).
  - reflexivity.
  - split; repeat constructor; cbn; lra.
  - intros c Hc. discriminate.
  - intros s Hs. discriminate.
Defined.

(** ** A session: statuses arriving between the frames *)

(** What the hook does with the manager: a render hands it the status of
    the engine, an animation frame asks it for the server time to show. *)
Inductive Step : Type :=
| Receive (engineStatus : EngineStatus)
| Frame (clientNow : R).

(** The server times the frames of a session are answered with, in order
    (a frame answered [undefined] shows nothing; a [receive] that throws
    leaves the manager with the intervals it had). *)
Fixpoint session (steps : list Step) (m : HistoricalTimeManager) : list R :=
  match steps with
  | [] => []
  | Receive engineStatus :: later => session later (receive engineStatus m).1
  | Frame clientNow :: later =>
      let '(served, m') := historicalServerTime clientNow m in
      match served with
      | Some serverTs => serverTs :: session later m'
      | None => session later m'
      end
  end.

(** The client times of the frames of a session, in order. *)
Fixpoint clientTimes (steps : list Step) : list R :=
  match steps with
  | [] => []
  | Receive _ :: later => clientTimes later
  | Frame clientNow :: later => clientNow :: clientTimes later
  end.

(** A status as the engine writes it: the step it reports did not end
    before it started. *)
Definition wellTimed (step : Step) : Prop :=
  match step with
  | Receive engineStatus =>
      forall now lastStep,
        currentTime engineStatus = Some now -> lastStepTs engineStatus = Some lastStep ->
        lastStep <= now
  | Frame _ => True
  end.

(** What holds of the manager all along a session: its intervals are
    ordered, and the last time served, recorded with its client time, is
    not after the end of the last interval. *)
Definition Served (m : HistoricalTimeManager) : Prop :=
  ordered (intervals m) /\
  (forall c, prevClientTs m = Some c -> is_Some (prevServerTs m)) /\
  (forall s, prevServerTs m = Some s ->
             is_Some (prevClientTs m) /\
             exists L, endTs <$> last (intervals m) = Some L /\ s <= L).

Lemma ordered_drop (n : nat) (ivs : list ServerTimeInterval) :
  ordered ivs -> ordered (drop n ivs).
Proof.
  intros [Hse Hs]. split; [apply Forall_drop, Hse|].
  clear Hse. revert ivs Hs. induction n as [|n IH]; intros ivs Hs;
    [rewrite drop_0; exact Hs|].
  destruct ivs as [|iv ivs]; [exact Hs|]. cbn [drop]. apply IH.
  inversion Hs; assumption.
Qed.

Lemma receive_keeps_prev (engineStatus : EngineStatus) (m : HistoricalTimeManager) :
  prevClientTs (receive engineStatus m).1 = prevClientTs m /\
  prevServerTs (receive engineStatus m).1 = prevServerTs m.
Proof.
  unfold receive.
  destruct (falsy (currentTime engineStatus) || falsy (lastStepTs engineStatus));
    [split; reflexivity|].
  destruct (currentTime engineStatus), (lastStepTs engineStatus); try (split; reflexivity).
  cbn [intervals]. destruct (last (intervals m)); [|split; reflexivity].
  repeat case_decide; split; reflexivity.
Qed.

(** What [receive] does to the intervals: nothing, or one interval more at
    the end, which ends after the others. *)
Lemma receive_intervals (engineStatus : EngineStatus) (m : HistoricalTimeManager) :
  intervals (receive engineStatus m).1 = intervals m \/
  exists now lastStep,
    engineStatus = {| currentTime := Some now; lastStepTs := Some lastStep |} /\
    intervals (receive engineStatus m).1
    = intervals m ++ [{| startTs := lastStep; endTs := now |}] /\
    (forall latest, last (intervals m) = Some latest -> endTs latest < now).
Proof.
  unfold receive.
  destruct (falsy (currentTime engineStatus) || falsy (lastStepTs engineStatus));
    [left; reflexivity|].
  destruct engineStatus as [[now|] [lastStep|]]; try (left; reflexivity).
  cbn [currentTime lastStepTs intervals].
  destruct (last (intervals m)) as [latest|] eqn:Hlast.
  - destruct (decide (endTs latest = now)); [left; reflexivity|].
    destruct (decide (endTs latest > now)); [left; reflexivity|].
    right. exists now, lastStep. split; [reflexivity|]. split; [reflexivity|].
    intros l Hl. inversion Hl; subst. lra.
  - right. exists now, lastStep. split; [reflexivity|]. split; [reflexivity|].
    intros l Hl. discriminate.
Qed.

Lemma receive_Served (engineStatus : EngineStatus) (m : HistoricalTimeManager) :
  wellTimed (Receive engineStatus) -> Served m -> Served (receive engineStatus m).1.
Proof.
  intros Hwell (Hord & Hcs & Hs).
  destruct (receive_keeps_prev engineStatus m) as [Hpc Hps].
  unfold Served. rewrite Hpc, Hps.
  destruct (receive_intervals engineStatus m)
    as [Hsame|(now & lastStep & Hstatus & Hpushed & Hlater)].
  - rewrite Hsame. auto.
  - subst engineStatus.
    pose proof (Hwell now lastStep eq_refl eq_refl) as Hle.
    split; [apply receive_ordered; assumption|]. split; [exact Hcs|].
    intros s Hsome. destruct (Hs s Hsome) as (Hclient & L & HL & HsL).
    split; [exact Hclient|].
    rewrite Hpushed, last_snoc. exists now. split; [reflexivity|].
    destruct (last (intervals m)) as [latest|] eqn:Hlast; [|discriminate].
    cbn in HL. inversion HL; subst L. specialize (Hlater latest eq_refl). lra.
Qed.

(** One frame of a session. *)
Lemma frame_Served (clientNow : R) (m : HistoricalTimeManager) :
  Served m -> intervals m <> [] ->
  exists serverTs m',
    historicalServerTime clientNow m = (Some serverTs, m') /\
    Served m' /\
    prevClientTs m' = Some clientNow /\
    prevServerTs m' = Some serverTs /\
    (forall prevClient prevServer,
        prevClientTs m = Some prevClient -> prevServerTs m = Some prevServer ->
        prevClient <= clientNow -> prevServer <= serverTs).
Proof.
  intros (Hord & Hcs & Hs) Hne. unfold historicalServerTime.
  destruct (intervals m) as [|first rest] eqn:Hivs; [congruence|].
  destruct (decide (prevClientTs m = Some clientNow)) as [Hsame|Hdiff].
  - destruct (Hcs _ Hsame) as [s Hps]. exists s, m.
    split; [rewrite Hps; reflexivity|]. split; [unfold Served; rewrite Hivs; auto|].
    split; [exact Hsame|]. split; [exact Hps|].
    intros pc ps' _ Hps' _. rewrite Hps in Hps'. inversion Hps'; subst. lra.
  - set (L := lastEnd first rest).
    assert (HL : endTs <$> last (first :: rest) = Some L).
    { rewrite last_List_last. reflexivity. }
    pose proof (ordered_bounded _ L Hord HL) as Hall.
    set (prevClient := nullish (prevClientTs m) clientNow).
    set (prevServer := nullish (prevServerTs m) (startTs first)).
    set (rate := if decide (L - prevServer < SOFT_MIN_SERVER_BUFFER_AGE) then 8 / 10
                 else if decide (L - prevServer > SOFT_MAX_SERVER_BUFFER_AGE)
                      then 12 / 10 else 1).
    assert (Hrate : 0 < rate).
    { unfold rate. repeat case_decide; lra. }
    set (serverTs0 := Rmax (prevServer + (clientNow - prevClient) * rate)
                           (L - MAX_SERVER_BUFFER_AGE)).
    destruct (choose (first :: rest) 0 serverTs0 None) as [serverTs1 chosen1] eqn:Hch.
    destruct (choose_spec L _ _ _ _ _ _ Hall (fun H => False_ind _ (H eq_refl)) Hch)
      as (Hge & Hle & _ & Hidx).
    assert (Hfin : exists serverTs chosen,
               match chosen1 with
               | Some c => (serverTs1, c)
               | None => (L, (List.length (first :: rest) - 1)%nat)
               end = (serverTs, chosen) /\
               serverTs <= L /\
               (chosen < List.length (first :: rest))%nat /\
               (serverTs = L \/ serverTs0 <= serverTs)).
    { destruct chosen1 as [c|]; eexists _, _; (split; [reflexivity|]).
      - split; [apply Hle; congruence|].
        split; [|right; exact Hge].
        destruct (Hidx c eq_refl) as [H|H]; [discriminate|lia].
      - split; [lra|]. split; [cbn; lia|left; reflexivity]. }
    destruct Hfin as (serverTs & chosen & Hfinal & HleL & Hchosen & Hfrom).
    rewrite Hfinal.
    eexists _, _. split; [reflexivity|]. cbn [prevClientTs prevServerTs].
    split; [|split; [reflexivity|split; [reflexivity|]]].
    + unfold Served. cbn [intervals prevClientTs prevServerTs].
      set (toTrim := Nat.max (chosen - 1) 0).
      assert (HtoTrim : (toTrim < List.length (first :: rest))%nat)
        by (unfold toTrim; lia).
      split; [|split].
      * destruct (0 <? toTrim)%nat; [apply ordered_drop|]; exact Hord.
      * intros c _. eauto.
      * intros s Hs'. inversion Hs'; subst. split; [eauto|]. exists L. split; [|exact HleL].
        destruct (0 <? toTrim)%nat; [|exact HL].
        rewrite last_drop_lt by exact HtoTrim. exact HL.
    + intros pc ps Hpc Hps Hmono.
      destruct (Hs ps Hps) as (_ & L' & HL' & HpsL).
      rewrite HL in HL'. inversion HL'; subst L'.
      assert (ps <= serverTs0).
      { unfold serverTs0, prevServer, prevClient. rewrite Hpc, Hps. cbn [nullish].
        eapply Rle_trans; [|apply Rmax_l].
        assert (0 <= (clientNow - pc) * rate) by (apply Rmult_le_pos; lra). lra. }
      destruct Hfrom; lra.
Qed.

Lemma session_sorted :
  forall steps m,
    Served m -> Forall wellTimed steps -> Sorted Rle (clientTimes steps) ->
    (forall c, prevClientTs m = Some c -> Forall (Rle c) (clientTimes steps)) ->
    Sorted Rle (session steps m) /\
    (forall s, prevServerTs m = Some s -> Forall (Rle s) (session steps m)).
Proof.
  induction steps as [|[engineStatus|clientNow] later IH];
    intros m HJ Hwell Hsorted Hprev.
  - split; [constructor|intros; constructor].
  - apply Forall_cons in Hwell as [Hw Hwell].
    destruct (receive_keeps_prev engineStatus m) as [Hpc Hps].
    cbn [session clientTimes] in *.
    destruct (IH (receive engineStatus m).1) as [H1 H2];
      [apply receive_Served; assumption|exact Hwell|exact Hsorted| |].
    + intros c Hc. rewrite Hpc in Hc. apply Hprev, Hc.
    + split; [exact H1|]. intros s Hs. apply H2. rewrite Hps. exact Hs.
  - apply Forall_cons in Hwell as [_ Hwell].
    cbn [session clientTimes] in *.
    assert (Hlater : Sorted Rle (clientTimes later)) by (inversion Hsorted; assumption).
    assert (Hafter : Forall (Rle clientNow) (clientTimes later)).
    { apply Sorted_StronglySorted in Hsorted; [|intros a b c; apply Rle_trans].
      inversion Hsorted; assumption. }
    destruct (decide (intervals m = [])) as [Hnil|Hne].
    + assert (Hrun : historicalServerTime clientNow m = (None, m)).
      { unfold historicalServerTime. rewrite Hnil. reflexivity. }
      rewrite Hrun. apply IH; [exact HJ|exact Hwell|exact Hlater|].
      intros c Hc. specialize (Hprev c Hc). apply Forall_cons in Hprev as [_ Hprev].
      exact Hprev.
    + destruct (frame_Served clientNow m HJ Hne)
        as (serverTs & m' & Hrun & HJ' & Hpc' & Hps' & Hmono).
      rewrite Hrun.
      destruct (IH m' HJ' Hwell Hlater) as [H1 H2].
      { intros c Hc. rewrite Hpc' in Hc. inversion Hc; subst. exact Hafter. }
      specialize (H2 serverTs Hps').
      split.
      * constructor; [exact H1|]. destruct (session later m'); constructor.
        apply Forall_cons in H2 as [H2 _]. exact H2.
      * intros s Hs. destruct HJ as (_ & _ & HJ3).
        destruct (HJ3 s Hs) as ([pc Hpc] & _).
        assert (Hle : s <= serverTs).
        { apply (Hmono pc s Hpc Hs). specialize (Hprev pc Hpc).
          apply Forall_cons in Hprev as [Hprev _]. exact Hprev. }
        constructor; [exact Hle|].
        eapply Forall_impl; [exact H2|]. intros v Hv. cbn in *. lra.
Qed.

(** X12: the time shown never runs backwards.  In a session on a new
    manager, whatever statuses arrive between the frames and whenever they
    do (each reporting a step that does not end before it starts; the ones
    [receive] ignores or rejects included), if the client times of the
    frames do not decrease then neither do the server times the frames are
    answered with. *)
Theorem session_never_runs_backwards (steps : list Step) :
  Forall wellTimed steps ->
  Sorted Rle (clientTimes steps) ->
  Sorted Rle (session steps newManager).
Proof.
  intros Hwell Hsorted.
  apply (session_sorted steps newManager); [|exact Hwell|exact Hsorted|].
  - split; [split; constructor|]. split; intros ? H; discriminate.
  - intros c Hc. discriminate.
Qed.

(** A session: a frame before any status, a status, two frames, a status
    that arrives twice, a frame. *)
Definition sampleSession : list Step :=
  [ Frame 0;
    Receive {| currentTime := Some 1000; lastStepTs := Some 1 |};
    Frame 16; Frame 32;
    Receive {| currentTime := Some 2000; lastStepTs := Some 1000 |};
    Receive {| currentTime := Some 2000; lastStepTs := Some 1000 |};
    Frame 48 ].

Lemma session_never_runs_backwards_witness :
  Sorted Rle (session sampleSession newManager).
Proof.
  apply session_never_runs_backwards.
  - unfold sampleSession.
    repeat (apply Forall_cons; split); try apply Forall_nil; cbn; try exact I;
      intros now lastStep Hn Hl; inversion Hn; inversion Hl; subst; lra.
  - unfold sampleSession. cbn. repeat constructor; lra.
Defined.

(** ** [historicalServerTime] on the manager of a session *)

(** The manager a session leaves. *)
Fixpoint managerAfter (steps : list Step) (m : HistoricalTimeManager)
  : HistoricalTimeManager :=
  match steps with
  | [] => m
  | Receive engineStatus :: later => managerAfter later (receive engineStatus m).1
  | Frame clientNow :: later => managerAfter later (historicalServerTime clientNow m).2
  end.

Lemma newManager_Served : Served newManager.
Proof. split; [split; constructor|]. split; intros ? H; discriminate. Qed.

Lemma managerAfter_Served :
  forall steps m,
    Served m -> Forall wellTimed steps -> Served (managerAfter steps m).
Proof.
  induction steps as [|[engineStatus|clientNow] later IH]; intros m HJ Hwell;
    [exact HJ| |]; apply Forall_cons in Hwell as [Hw Hwell]; cbn [managerAfter];
    apply IH; try exact Hwell.
  - apply receive_Served; assumption.
  - destruct (decide (intervals m = [])) as [Hnil|Hne].
    + unfold historicalServerTime. rewrite Hnil. exact HJ.
    + destruct (frame_Served clientNow m HJ Hne) as (serverTs & m' & Hrun & HJ' & _).
      rewrite Hrun. exact HJ'.
Qed.

(** A call that computes a new time answers within the window. *)
Lemma computed_in_window (L clientNow : R) (m : HistoricalTimeManager) :
  endTs <$> last (intervals m) = Some L ->
  Forall (fun iv => startTs iv <= L /\ endTs iv <= L) (intervals m) ->
  prevClientTs m <> Some clientNow ->
  exists serverTs,
    (historicalServerTime clientNow m).1 = Some serverTs /\
    L - MAX_SERVER_BUFFER_AGE <= serverTs <= L.
Proof.
  intros HL Hall Hdiff. unfold historicalServerTime.
  destruct (intervals m) as [|first rest] eqn:Hivs; [discriminate|].
  rewrite decide_False by exact Hdiff.
  assert (HlastEnd : lastEnd first rest = L).
  { unfold lastEnd. rewrite last_List_last in HL. cbn in HL. congruence. }
  rewrite HlastEnd.
  set (serverTs0 := Rmax _ (L - MAX_SERVER_BUFFER_AGE)).
  assert (Hlow0 : L - MAX_SERVER_BUFFER_AGE <= serverTs0) by apply Rmax_r.
  destruct (choose (first :: rest) 0 serverTs0 None) as [serverTs1 chosen1] eqn:Hch.
  destruct (choose_spec L _ _ _ _ _ _ Hall (fun H => False_ind _ (H eq_refl)) Hch)
    as (Hge & Hle & _ & _).
  destruct chosen1 as [c|]; cbn [fst]; eexists; (split; [reflexivity|]).
  - split; [lra|apply Hle; congruence].
  - unfold MAX_SERVER_BUFFER_AGE. lra.
Qed.

(** One frame on the manager a session left with the last interval ending
    at [L]. *)
Lemma frame_of_session (L clientNow : R) (m : HistoricalTimeManager) :
  Served m -> endTs <$> last (intervals m) = Some L ->
  exists serverTs m',
    historicalServerTime clientNow m = (Some serverTs, m') /\
    Served m' /\
    endTs <$> last (intervals m') = Some L /\
    prevClientTs m' = Some clientNow /\
    prevServerTs m' = Some serverTs /\
    serverTs <= L /\
    (prevClientTs m <> Some clientNow -> L - MAX_SERVER_BUFFER_AGE <= serverTs) /\
    (prevClientTs m = Some clientNow -> prevServerTs m = Some serverTs) /\
    (forall prevClient prevServer,
        prevClientTs m = Some prevClient -> prevServerTs m = Some prevServer ->
        prevClient <= clientNow -> prevServer <= serverTs).
Proof.
  intros HJ HL.
  assert (Hne : intervals m <> []) by (intros Hnil; rewrite Hnil in HL; discriminate).
  destruct (frame_Served clientNow m HJ Hne)
    as (serverTs & m' & Hrun & HJ' & Hpc' & Hps' & Hmono).
  assert (Hlast : last (intervals m') = last (intervals m)).
  { destruct (decide (prevClientTs m = Some clientNow)) as [Hsame|Hdiff].
    - unfold historicalServerTime in Hrun.
      destruct (intervals m) eqn:Hivs; [congruence|].
      rewrite decide_True in Hrun by exact Hsame. inversion Hrun; subst m'.
      rewrite Hivs. reflexivity.
    - destruct (historicalServerTime_fresh clientNow m Hne Hdiff)
        as (_ & n & _ & _ & _ & Hn & Hivs & _).
      rewrite Hrun in Hivs. cbn [snd] in Hivs. rewrite Hivs.
      apply last_drop_keeps, Hn. }
  assert (HL' : endTs <$> last (intervals m') = Some L) by (rewrite Hlast; exact HL).
  exists serverTs, m'. split; [exact Hrun|]. split; [exact HJ'|]. split; [exact HL'|].
  split; [exact Hpc'|]. split; [exact Hps'|]. split; [|split; [|split; [|exact Hmono]]].
  - destruct HJ' as (_ & _ & Hs'). destruct (Hs' serverTs Hps') as (_ & L' & HL'' & Hle).
    rewrite HL' in HL''. congruence.
  - intros Hdiff. destruct HJ as (Hord & _ & _).
    destruct (computed_in_window L clientNow m HL (ordered_bounded _ L Hord HL) Hdiff)
      as (s & Hs & Hwin).
    rewrite Hrun in Hs. cbn [fst] in Hs. inversion Hs; subst s. lra.
  - intros Hsame. unfold historicalServerTime in Hrun.
    destruct (intervals m); [congruence|].
    rewrite decide_True in Hrun by exact Hsame. congruence.
Qed.

(** Frames on the manager a session left, no status arriving meanwhile. *)
Lemma frames_of_session (L : R) :
  forall clientNows m,
    Served m -> endTs <$> last (intervals m) = Some L ->
    exists serverTss,
      frames clientNows m = Some <$> serverTss /\
      Forall (fun serverTs => serverTs <= L) serverTss /\
      (forall prevClient prevServer,
          prevClientTs m = Some prevClient -> prevServerTs m = Some prevServer ->
          Sorted Rle (prevClient :: clientNows) -> Sorted Rle (prevServer :: serverTss)) /\
      (Sorted Rle clientNows -> Sorted Rle serverTss) /\
      ((forall prevServer, prevServerTs m = Some prevServer ->
                           L - MAX_SERVER_BUFFER_AGE <= prevServer) ->
       Forall (fun serverTs => L - MAX_SERVER_BUFFER_AGE <= serverTs) serverTss) /\
      (forall clientNow, head clientNows = Some clientNow ->
                         prevClientTs m <> Some clientNow ->
       Forall (fun serverTs => L - MAX_SERVER_BUFFER_AGE <= serverTs) serverTss) /\
      (forall clientNow, head clientNows = Some clientNow ->
                         prevClientTs m = Some clientNow ->
       head serverTss = prevServerTs m).
Proof.
  induction clientNows as [|clientNow later IH]; intros m HJ HL.
  - exists []. cbn. repeat split; auto; discriminate.
  - destruct (frame_of_session L clientNow m HJ HL)
      as (serverTs & m' & Hrun & HJ' & HL' & Hpc' & Hps' & Hle & Hlow & Hcached & Hmono).
    destruct (IH m' HJ' HL') as (rs & Hframes & Hall & Hprev & _ & Hwin & _ & _).
    exists (serverTs :: rs). cbn [frames]. rewrite Hrun, Hframes.
    assert (Htail : Sorted Rle (clientNow :: later) -> Sorted Rle (serverTs :: rs))
      by (apply (Hprev clientNow serverTs Hpc' Hps')).
    assert (Hafter : L - MAX_SERVER_BUFFER_AGE <= serverTs ->
                     Forall (fun s => L - MAX_SERVER_BUFFER_AGE <= s) (serverTs :: rs)).
    { intros Hin. constructor; [exact Hin|]. apply Hwin.
      intros s Hs. rewrite Hps' in Hs. inversion Hs; subst s. exact Hin. }
    split; [reflexivity|]. split; [constructor; assumption|].
    split; [|split; [exact Htail|split; [|split]]].
    + intros pc ps Hpc Hps Hsorted.
      inversion Hsorted as [|? ? Hsorted' Hhd]; subst. inversion Hhd; subst.
      constructor; [apply Htail, Hsorted'|]. constructor. eapply Hmono; eauto.
    + intros Hstate. apply Hafter.
      destruct (decide (prevClientTs m = Some clientNow)) as [Hsame|Hdiff].
      * apply Hstate, Hcached, Hsame.
      * apply Hlow, Hdiff.
    + intros c Hc Hdiff. cbn in Hc. inversion Hc; subst c. apply Hafter, Hlow, Hdiff.
    + intros c Hc Hsame. cbn in Hc. inversion Hc; subst c. cbn [head].
      symmetry. apply Hcached, Hsame.
Qed.

(** C2, amended: take a manager as any session on a new manager leaves it
    (statuses received and frames served in any order, each status reporting
    a step that does not end before it starts), holding a non-empty list of
    intervals, and serve frames on it with no status arriving meanwhile.
    Every frame is answered with a number that does not exceed the end of
    the last interval; the answers do not decrease when the client times of
    the frames do not; and they are all at least the end of the last
    interval minus 1250, provided the first frame does not come with the
    client time of the frame served last.  A first frame that does is
    answered with the time served last, as it was recorded. *)
Theorem historicalServerTime_bounded_unless_repeated
  (steps : list Step) (first : ServerTimeInterval) (rest : list ServerTimeInterval)
  (clientNows : list R) :
  Forall wellTimed steps ->
  intervals (managerAfter steps newManager) = first :: rest ->
  let m := managerAfter steps newManager in
  let lastServerTs := endTs (List.last rest first) in
  exists serverTss,
    frames clientNows m = Some <$> serverTss /\
    Forall (fun serverTs => serverTs <= lastServerTs) serverTss /\
    (Sorted Rle clientNows -> Sorted Rle serverTss) /\
    (forall clientNow, head clientNows = Some clientNow ->
                       prevClientTs m <> Some clientNow ->
     Forall (fun serverTs => lastServerTs - 1250 <= serverTs) serverTss) /\
    (forall clientNow, head clientNows = Some clientNow ->
                       prevClientTs m = Some clientNow ->
     head serverTss = prevServerTs m).
Proof.
  intros Hwell Hivs. cbv zeta.
  pose proof (managerAfter_Served steps newManager newManager_Served Hwell) as HJ.
  assert (HL : endTs <$> last (intervals (managerAfter steps newManager))
               = Some (endTs (List.last rest first))).
  { rewrite Hivs, last_List_last. reflexivity. }
  destruct (frames_of_session _ clientNows _ HJ HL)
    as (serverTss & Hframes & Hall & _ & Hsorted & _ & Hwin & Hcached).
  exists serverTss. split; [exact Hframes|]. split; [exact Hall|].
  split; [exact Hsorted|]. split; [exact Hwin|exact Hcached].
Qed.

(** A status arrives late: the frame at client time 16 is served from the
    interval [[1, 1000]], then four seconds of intervals arrive. *)
Definition lateStatus : list Step :=
  [ Receive {| currentTime := Some 1000; lastStepTs := Some 1 |};
    Frame 16;
    Receive {| currentTime := Some 5000; lastStepTs := Some 1000 |} ].

Lemma managerAfter_lateStatus :
  managerAfter lateStatus newManager
  = {| intervals := [ {| startTs := 1; endTs := 1000 |};
                      {| startTs := 1000; endTs := 5000 |} ];
       prevClientTs := Some 16;
       prevServerTs := Some 1;
       totalDuration := 0 + (1000 - 1) + (5000 - 1000);
       latestEngineStatus := Some {| currentTime := Some 5000; lastStepTs := Some 1000 |} |}.
Proof.
  unfold lateStatus, newManager. cbn [managerAfter].
  unfold receive at 2. cbn [currentTime lastStepTs falsy intervals last orb].
  evaluate_tests. cbn [orb fst intervals prevClientTs prevServerTs totalDuration
                       latestEngineStatus app last endTs startTs].
  unfold historicalServerTime, lastEnd, SOFT_MIN_SERVER_BUFFER_AGE,
    SOFT_MAX_SERVER_BUFFER_AGE, MAX_SERVER_BUFFER_AGE.
  cbn [intervals prevClientTs prevServerTs List.last endTs startTs nullish].
  evaluate_tests.
  rewrite Rmax_left by lra.
  cbn [choose endTs startTs]. evaluate_tests.
  cbn [snd Nat.sub Nat.max Nat.ltb Nat.leb List.length intervals totalDuration
       latestEngineStatus].
  unfold receive. cbn [currentTime lastStepTs falsy intervals last orb].
  evaluate_tests. cbn [orb intervals last endTs]. evaluate_tests.
  cbn [fst intervals prevClientTs prevServerTs totalDuration latestEngineStatus app
       endTs startTs].
  f_equal. f_equal. lra.
Qed.

(** C2, as stated, fails.  After the session [lateStatus] the manager holds
    the intervals [[1, 1000]] and [[1000, 5000]]; a frame that comes again
    with the client time 16 is answered with the time served before the
    second interval arrived, 1, which is less than 5000 - 1250. *)
Lemma repeated_frame_counterexample :
  let m := managerAfter lateStatus newManager in
  Forall wellTimed lateStatus /\
  intervals m = [ {| startTs := 1; endTs := 1000 |}; {| startTs := 1000; endTs := 5000 |} ] /\
  frames [16] m = [Some 1] /\
  1 < 5000 - 1250.
Proof.
  cbv zeta. rewrite managerAfter_lateStatus. split; [|split; [|split]].
  - unfold lateStatus.
    repeat (apply Forall_cons; split); try apply Forall_nil; cbn; try exact I;
      intros now lastStep Hn Hl; inversion Hn; inversion Hl; subst; lra.
  - reflexivity.
  - unfold frames, historicalServerTime. cbn [intervals prevClientTs prevServerTs].
    rewrite decide_True by reflexivity. reflexivity.
  - lra.
Qed.

Lemma historicalServerTime_bounded_unless_repeated_witness :
  exists serverTss,
    frames [32; 48; 48] (managerAfter lateStatus newManager) = Some <$> serverTss /\
    Forall (fun serverTs => serverTs <= 5000) serverTss /\
    Sorted Rle serverTss /\
    Forall (fun serverTs => 5000 - 1250 <= serverTs) serverTss.
Proof.
  destruct (historicalServerTime_bounded_unless_repeated
              lateStatus {| startTs := 1; endTs := 1000 |}
              [ {| startTs := 1000; endTs := 5000 |} ] [32; 48; 48])
    as (serverTss & Hframes & Hall & Hsorted & Hwin & _).
  - unfold lateStatus.
    repeat (apply Forall_cons; split); try apply Forall_nil; cbn; try exact I;
      intros now lastStep Hn Hl; inversion Hn; inversion Hl; subst; lra.
  - rewrite managerAfter_lateStatus. reflexivity.
  - exists serverTss. split; [exact Hframes|]. split; [exact Hall|].
    split; [apply Hsorted; repeat constructor; lra|].
    apply (Hwin 32); [reflexivity|].
    rewrite managerAfter_lateStatus. cbn [prevClientTs]. intros H. inversion H; lra.
Defined.

End TimeSync.

(* ===================================================================== *)
(** * src/hooks/useHistoricalValue.ts: [HistoryManager] *)
(* ===================================================================== *)

Module HistoricalValue.

Local Open Scope R_scope.

(** What the manager reads of a [History]: its initial value and its
    samples, each a time and a value.  Histories are objects, and [receive]
    compares them with [==], that is by identity: [ref] is the identity of
    the object. *)
Record Sample : Type := mkSample { time : R; value : R }.

Record History : Type :=
  mkHistory { ref : nat; initialValue : R; samples : list Sample }.

(** [a == b] on two objects. *)
Definition sameObject (a b : History) : bool := bool_decide (ref a = ref b).

(** The manager, with its field [histories]. *)
Record HistoryManager : Type :=
  mkHistoryManager { histories : gmap string (list History) }.

(** [new HistoryManager()]. *)
Definition newHistoryManager : HistoryManager := {| histories := ∅ |}.

(** ** [receive] *)

(** The body of the loop of [receive], for the list [held] of the field
    (the empty list when the field was not there): [histories[length - 1]]
    is [undefined] on an empty list, which is [==] to no object. *)
Definition receiveField (history : History) (held : list History) : list History :=
  match last held with
  | Some latest => if sameObject latest history then held else held ++ [history]
  | None => held ++ [history]
  end.

(** [receive(sampleRecord)]: the loop over the entries of the record. *)
Definition receive (sampleRecord : gmap string History) (m : HistoryManager)
  : HistoryManager :=
  {| histories :=
       map_fold (fun fieldName history all =>
                   <[fieldName := receiveField history (default [] (all !! fieldName))]> all)
                (histories m) sampleRecord |}.

(** ** [query] *)

(** The inner loop, over the samples of one history: the current value when
    the loop ends, and whether it ended on a sample later than
    [historicalTime]. *)
Fixpoint scanSamples (historicalTime : R) (ss : list Sample) (currentValue : R)
  : R * bool :=
  match ss with
  | [] => (currentValue, false)
  | sample :: rest =>
      if decide (time sample > historicalTime) then (currentValue, true)
      else scanSamples historicalTime rest (value sample)
  end.

(** The outer loop from index [i] on: the current value at its end, and
    [foundIndex] ([None] for [null]). *)
Fixpoint scanHistories (historicalTime : R) (held : list History) (i : nat)
    (currentValue : R) : R * option nat :=
  match held with
  | [] => (currentValue, None)
  | history :: rest =>
      let '(currentValue', found) := scanSamples historicalTime (samples history) currentValue in
      if found then (currentValue', Some i)
      else scanHistories historicalTime rest (S i) currentValue'
  end.

(** One turn of the loop of [query]: nothing for an empty list, otherwise
    the value for the field and the list the field is left with. *)
Definition queryField (historicalTime : R) (held : list History)
  : option (R * list History) :=
  match held with
  | [] => None
  | first :: _ =>
      let '(currentValue, foundIndex) :=
        scanHistories historicalTime held 0 (initialValue first) in
      Some (currentValue,
            match foundIndex with
            | Some i => drop i held
            | None => held
            end)
  end.

(** [query(historicalTime)]: the record returned and the manager afterwards.
    The turns of the loop are independent, one per field. *)
Definition query (historicalTime : R) (m : HistoryManager)
  : gmap string R * HistoryManager :=
  (omap (fun held => fst <$> queryField historicalTime held) (histories m),
   {| histories :=
        (fun held => match queryField historicalTime held with
                     | Some (_, kept) => kept
                     | None => held
                     end) <$> histories m |}).

(** All the samples of a list of histories, in the order of the loops. *)
Definition allSamples (held : list History) : list Sample :=
  held ≫= samples.

(** The value a history ends with. *)
Definition finalValue (h : History) : R :=
  default (initialValue h) (value <$> last (samples h)).

(** Each history starts with the value the one before it ends with. *)
Fixpoint continuous (held : list History) : Prop :=
  match held with
  | h :: rest =>
      match rest with
      | h' :: _ => initialValue h' = finalValue h
      | [] => True
      end /\ continuous rest
  | [] => True
  end.

(** A use of the manager: calls of [receive] and [query] in any order. *)
Inductive Call : Type :=
| Receive (sampleRecord : gmap string History)
| Query (historicalTime : R).

Definition call (c : Call) (m : HistoryManager) : HistoryManager :=
  match c with
  | Receive sampleRecord => receive sampleRecord m
  | Query historicalTime => (query historicalTime m).2
  end.

Definition calls (cs : list Call) (m : HistoryManager) : HistoryManager :=
  foldl (fun m c => call c m) m cs.

(** The fields of the records received. *)
Fixpoint received (cs : list Call) : gset string :=
  match cs with
  | [] => ∅
  | Receive sampleRecord :: rest => dom sampleRecord ∪ received rest
  | Query _ :: rest => received rest
  end.

Lemma receive_lookup (r : gmap string History) (m : HistoryManager) (k : string) :
  histories (receive r m) !! k
  = match r !! k with
    | Some h => Some (receiveField h (default [] (histories m !! k)))
    | None => histories m !! k
    end.
Proof.
  unfold receive. cbn [histories]. revert k.
  apply (map_fold_weak_ind
           (fun (acc : gmap string (list History)) (r : gmap string History) =>
              forall k, acc !! k = match r !! k with
                                   | Some h => Some (receiveField h (default [] (histories m !! k)))
                                   | None => histories m !! k
                                   end)).
  - intros k. rewrite lookup_empty. reflexivity.
  - intros i x r' acc Hi IH k. destruct (decide (k = i)) as [->|Hne].
    + rewrite !lookup_insert_eq. rewrite (IH i), Hi. reflexivity.
    + rewrite !lookup_insert_ne by congruence. apply IH.
Qed.

Lemma receiveField_last (h : History) (hs : list History) :
  exists latest, last (receiveField h hs) = Some latest /\ ref latest = ref h.
Proof.
  unfold receiveField. destruct (last hs) as [latest|] eqn:Hlast.
  - unfold sameObject. destruct (bool_decide_reflect (ref latest = ref h)) as [Heq|Hne].
    + exists latest. split; assumption.
    + exists h. rewrite last_snoc. split; reflexivity.
  - exists h. rewrite last_snoc. split; reflexivity.
Qed.

Lemma receiveField_again (h : History) (hs : list History) :
  receiveField h (receiveField h hs) = receiveField h hs.
Proof.
  destruct (receiveField_last h hs) as (latest & Hlast & Href).
  unfold receiveField at 1. rewrite Hlast. unfold sameObject.
  rewrite bool_decide_eq_true_2 by exact Href. reflexivity.
Qed.

Lemma receiveField_prefix (h : History) (hs : list History) :
  hs `prefix_of` receiveField h hs /\
  (List.length (receiveField h hs) <= S (List.length hs))%nat /\
  receiveField h hs <> [].
Proof.
  unfold receiveField. destruct (last hs) as [latest|] eqn:Hlast.
  - destruct (sameObject latest h).
    + split; [reflexivity|]. split; [lia|]. intros ->. discriminate.
    + split; [apply prefix_app_r; reflexivity|].
      split; [rewrite length_app; cbn; lia|]. intros E. destruct hs; discriminate.
  - split; [apply prefix_app_r; reflexivity|].
    split; [rewrite length_app; cbn; lia|]. intros E. destruct hs; discriminate.
Qed.

(** The samples the inner loop passes before it stops. *)
Fixpoint upTo (historicalTime : R) (ss : list Sample) : list Sample :=
  match ss with
  | [] => []
  | sample :: rest =>
      if decide (time sample > historicalTime) then []
      else sample :: upTo historicalTime rest
  end.

Definition notLater (t : R) (s : Sample) : Prop := time s <= t.

Lemma last_value_app (c : R) (l1 l2 : list Sample) :
  default c (value <$> last (l1 ++ l2))
  = default (default c (value <$> last l1)) (value <$> last l2).
Proof.
  destruct l2 as [|s l2] using rev_ind.
  - rewrite app_nil_r. reflexivity.
  - rewrite app_assoc, !last_snoc. reflexivity.
Qed.

Lemma scanSamples_spec (t : R) (ss : list Sample) (c : R) :
  exists found,
    scanSamples t ss c = (default c (value <$> last (upTo t ss)), found) /\
    (found = false -> upTo t ss = ss /\ Forall (notLater t) ss) /\
    (found = true -> forall more, upTo t (ss ++ more) = upTo t ss).
Proof.
  revert c. induction ss as [|s ss IH]; intros c; cbn [scanSamples upTo].
  - exists false. split; [reflexivity|]. split; [|discriminate].
    intros _. split; [reflexivity|constructor].
  - destruct (decide (time s > t)) as [Hlater|Hnot].
    + exists true. split; [reflexivity|]. split; [discriminate|].
      intros _ more. cbn [app upTo]. rewrite decide_True by exact Hlater. reflexivity.
    + destruct (IH (value s)) as (found & Hscan & Hpass & Hstop).
      exists found. split; [|split].
      * rewrite Hscan. f_equal.
        change (s :: upTo t ss) with ([s] ++ upTo t ss).
        rewrite last_value_app. reflexivity.
      * intros Hf. destruct (Hpass Hf) as [Heq Hall]. split; [congruence|].
        constructor; [unfold notLater; lra|exact Hall].
      * intros Hf more. cbn [app upTo]. rewrite decide_False by exact Hnot.
        rewrite (Hstop Hf). reflexivity.
Qed.

Lemma upTo_all (t : R) (ss more : list Sample) :
  Forall (notLater t) ss -> upTo t (ss ++ more) = ss ++ upTo t more.
Proof.
  induction 1 as [|s ss Hs _ IH]; [reflexivity|].
  cbn [app upTo]. rewrite decide_False by (unfold notLater in Hs; lra).
  rewrite IH. reflexivity.
Qed.

Lemma scanSamples_all (t : R) (ss : list Sample) (c : R) :
  Forall (notLater t) ss ->
  scanSamples t ss c = (default c (value <$> last ss), false).
Proof.
  revert c. induction ss as [|s ss IH]; intros c Hall; [reflexivity|].
  apply Forall_cons in Hall as [Hs Hall]. cbn [scanSamples].
  rewrite decide_False by (unfold notLater in Hs; lra).
  rewrite (IH _ Hall). f_equal.
  change (s :: ss) with ([s] ++ ss). rewrite last_value_app. reflexivity.
Qed.

Lemma allSamples_cons (h : History) (hs : list History) :
  allSamples (h :: hs) = samples h ++ allSamples hs.
Proof. reflexivity. Qed.

Lemma allSamples_app (l1 l2 : list History) :
  allSamples (l1 ++ l2) = allSamples l1 ++ allSamples l2.
Proof. unfold allSamples. apply bind_app. Qed.

(** The outer loop: the value is the one of the last sample passed, and a
    found index [i + k] means that the [k] histories before it were passed
    entirely. *)
Lemma scanHistories_spec (t : R) (hs : list History) (i : nat) (c : R) :
  exists foundIndex,
    scanHistories t hs i c
    = (default c (value <$> last (upTo t (allSamples hs))), foundIndex) /\
    match foundIndex with
    | Some j => exists k, j = (i + k)%nat /\ (k < List.length hs)%nat /\
                          Forall (notLater t) (allSamples (take k hs))
    | None => Forall (notLater t) (allSamples hs)
    end.
Proof.
  revert i c. induction hs as [|h hs IH]; intros i c.
  - exists None. split; [reflexivity|constructor].
  - cbn [scanHistories]. rewrite allSamples_cons.
    destruct (scanSamples_spec t (samples h) c) as (found & Hscan & Hpass & Hstop).
    rewrite Hscan. destruct found.
    + exists (Some i). split.
      * rewrite (Hstop eq_refl). reflexivity.
      * exists 0%nat. split; [lia|]. split; [cbn; lia|]. constructor.
    + destruct (Hpass eq_refl) as [Heq Hall]. rewrite Heq.
      destruct (IH (S i) (default c (value <$> last (samples h))))
        as (foundIndex & Hrest & Hfound).
      exists foundIndex. split.
      * rewrite Hrest. f_equal. rewrite (upTo_all _ _ _ Hall), last_value_app.
        reflexivity.
      * destruct foundIndex as [j|].
        -- destruct Hfound as (k & -> & Hk & Hbefore).
           exists (S k). split; [lia|]. split; [cbn; lia|].
           cbn [take]. rewrite allSamples_cons. apply Forall_app. split; assumption.
        -- apply Forall_app. split; assumption.
Qed.

Lemma upTo_sorted (t : R) (ss : list Sample) :
  StronglySorted (fun a b => time a <= time b) ss ->
  upTo t ss = filter (notLater t) ss.
Proof.
  induction 1 as [|s ss Hsorted IH Hs]; [reflexivity|].
  cbn [upTo]. destruct (decide (time s > t)) as [Hlater|Hnot].
  - rewrite filter_cons_False by (unfold notLater; lra).
    clear IH Hsorted. induction Hs as [|s' ss Hs' _ IH]; [reflexivity|].
    rewrite filter_cons_False by (unfold notLater; lra). exact IH.
  - rewrite filter_cons_True by (unfold notLater; lra). rewrite IH. reflexivity.
Qed.

Lemma filter_later_passed (t : R) (ss : list Sample) :
  Forall (notLater t) ss -> filter (fun s => time s > t) ss = [].
Proof.
  induction 1 as [|s ss Hs _ IH]; [reflexivity|].
  rewrite filter_cons_False by (unfold notLater in Hs; lra). exact IH.
Qed.

(** What [query] does to a field holding at least one history. *)
Lemma queryField_spec (t : R) (h : History) (hs : list History) :
  exists k,
    queryField t (h :: hs)
    = Some (default (initialValue h) (value <$> last (upTo t (allSamples (h :: hs)))),
            drop k (h :: hs)) /\
    (k < List.length (h :: hs))%nat /\
    Forall (notLater t) (allSamples (take k (h :: hs))).
Proof.
  unfold queryField.
  destruct (scanHistories_spec t (h :: hs) 0 (initialValue h)) as (foundIndex & Hscan & Hfound).
  rewrite Hscan. destruct foundIndex as [j|].
  - destruct Hfound as (k & -> & Hk & Hbefore). exists k. cbn [Nat.add].
    split; [reflexivity|]. split; assumption.
  - exists 0%nat. split; [reflexivity|]. split; [cbn; lia|constructor].
Qed.

(** X27: for a field whose samples are in the order of their times through
    all the histories held, [query] returns the value of the latest sample
    not later than the time asked, or the initial value of the first history
    when there is none.  Whatever the order, the histories it drops are the
    leading ones, never all of them, and they hold no sample later than the
    time asked.  A field holding no history gets no value. *)
Theorem query_latest_sample (t : R) (m : HistoryManager) (field : string)
    (first : History) (rest : list History) :
  histories m !! field = Some (first :: rest) ->
  (StronglySorted (fun a b => time a <= time b) (allSamples (first :: rest)) ->
   (query t m).1 !! field
   = Some (default (initialValue first)
             (value <$> last (filter (fun s => time s <= t) (allSamples (first :: rest)))))) /\
  (exists kept,
     histories (query t m).2 !! field = Some kept /\
     kept <> [] /\
     kept `suffix_of` (first :: rest) /\
     filter (fun s => time s > t) (allSamples kept)
     = filter (fun s => time s > t) (allSamples (first :: rest))).
Proof.
  intros Hfield. unfold query. cbn [fst snd histories].
  rewrite lookup_omap, lookup_fmap, Hfield. cbn [mbind option_bind fmap option_fmap option_map].
  destruct (queryField_spec t first rest) as (k & Hquery & Hk & Hbefore).
  rewrite Hquery. cbn [fmap option_fmap option_map fst]. split.
  - intros Hsorted. rewrite (upTo_sorted t _ Hsorted). reflexivity.
  - exists (drop k (first :: rest)). split; [reflexivity|]. split; [|split].
    + intros E. apply (f_equal (@List.length _)) in E.
      rewrite length_drop in E. cbn [List.length] in E, Hk. lia.
    + exists (take k (first :: rest)). symmetry. apply take_drop.
    + rewrite <- (take_drop k (first :: rest)) at 2.
      rewrite allSamples_app, filter_app, (filter_later_passed t _ Hbefore).
      reflexivity.
Qed.

(** What earlier queries, at times not later than [t], can have left of a
    field: the leading histories dropped hold no sample later than [t]. *)
Definition pruned (t : R) (hs hs' : list History) : Prop :=
  exists k, hs' = drop k hs /\
            (hs <> [] -> (k < List.length hs)%nat) /\
            Forall (notLater t) (allSamples (take k hs)).

Lemma pruned_refl (t : R) (hs : list History) : pruned t hs hs.
Proof.
  exists 0%nat. split; [reflexivity|]. split; [|constructor].
  intros Hne. destruct hs; [congruence|cbn; lia].
Qed.

Lemma notLater_mono (t' t : R) (ss : list Sample) :
  t' <= t -> Forall (notLater t') ss -> Forall (notLater t) ss.
Proof.
  intros Hle Hall. eapply Forall_impl; [exact Hall|].
  intros s Hs. unfold notLater in *. lra.
Qed.

Lemma pruned_query (t t' : R) (hs hs' : list History) :
  t' <= t -> pruned t hs hs' ->
  pruned t hs (match queryField t' hs' with
               | Some (_, kept) => kept
               | None => hs'
               end).
Proof.
  intros Hle Hpruned. destruct hs' as [|h' tl]; [exact Hpruned|].
  destruct Hpruned as (k & Hdrop & Hk & Hbefore).
  destruct (queryField_spec t' h' tl) as (k' & Hquery & Hk' & Hbefore').
  rewrite Hquery, Hdrop, drop_drop.
  assert (Hlen : (k' < List.length hs - k)%nat).
  { rewrite <- length_drop, <- Hdrop. exact Hk'. }
  exists (k + k')%nat. split; [reflexivity|]. split; [lia|].
  rewrite <- take_take_drop, allSamples_app. apply Forall_app. split; [exact Hbefore|].
  rewrite <- Hdrop. apply (notLater_mono t' t _ Hle Hbefore').
Qed.

(** Along continuous histories, the value carried into a history is the
    one it starts with. *)
Lemma continuous_carry (k : nat) (h : History) (rest : list History)
    (hk : History) (tl : list History) :
  continuous (h :: rest) ->
  drop k (h :: rest) = hk :: tl ->
  default (initialValue h) (value <$> last (allSamples (take k (h :: rest))))
  = initialValue hk.
Proof.
  revert h rest. induction k as [|k IH]; intros h rest Hcont Hdrop.
  - cbn in Hdrop. injection Hdrop as -> _. reflexivity.
  - cbn [take drop] in *. rewrite allSamples_cons, last_value_app.
    destruct rest as [|h' rest']; [destruct k; discriminate|].
    destruct Hcont as [Hstart Hcont].
    fold (finalValue h). rewrite <- Hstart. apply IH; assumption.
Qed.

Lemma pruned_same_value (t : R) (hs hs' : list History) :
  continuous hs -> pruned t hs hs' ->
  fst <$> queryField t hs' = fst <$> queryField t hs.
Proof.
  intros Hcont (k & Hdrop & Hk & Hbefore).
  destruct hs as [|h rest]; [rewrite Hdrop, drop_nil; reflexivity|].
  specialize (Hk ltac:(discriminate)).
  destruct hs' as [|hk tl].
  { apply (f_equal (@List.length _)) in Hdrop. rewrite length_drop in Hdrop.
    cbn [List.length] in Hdrop, Hk. lia. }
  destruct (queryField_spec t h rest) as (k1 & -> & _ & _).
  destruct (queryField_spec t hk tl) as (k2 & -> & _ & _).
  cbn [fmap option_fmap option_map fst]. f_equal.
  rewrite <- (take_drop k (h :: rest)) at 1.
  rewrite allSamples_app, (upTo_all _ _ _ Hbefore), last_value_app, <- Hdrop.
  rewrite (continuous_carry k h rest hk tl Hcont (eq_sym Hdrop)). reflexivity.
Qed.

Lemma queries_pruned (t : R) (earlier : list R) (m m' : HistoryManager) :
  Forall (fun t' => t' <= t) earlier ->
  (forall field,
     option_Forall2 (pruned t) (histories m !! field) (histories m' !! field)) ->
  forall field,
    option_Forall2 (pruned t) (histories m !! field)
      (histories (calls (Query <$> earlier) m') !! field).
Proof.
  intros Hearlier. revert m'. induction Hearlier as [|t' earlier Hle _ IH]; intros m' Hinv.
  - exact Hinv.
  - cbn [fmap list_fmap calls foldl call]. apply IH. intros field.
    unfold query. cbn [snd histories]. rewrite lookup_fmap.
    destruct (Hinv field) as [hs hs' Hpruned|]; cbn [fmap option_fmap option_map].
    + constructor. apply pruned_query; assumption.
    + constructor.
Qed.

(** X28: when each history of every field starts with the value the history
    before it ends with, the record returned by [query] at a time is not
    changed by any queries made before at times not later: what they drop
    is not missed. *)
Theorem query_after_queries (t : R) (earlier : list R) (m : HistoryManager) :
  map_Forall (fun _ hs => continuous hs) (histories m) ->
  Forall (fun t' => t' <= t) earlier ->
  (query t (calls (Query <$> earlier) m)).1 = (query t m).1.
Proof.
  intros Hcont Hearlier.
  assert (Hstart : forall field,
            option_Forall2 (pruned t) (histories m !! field) (histories m !! field)).
  { intros field. destruct (histories m !! field); constructor. apply pruned_refl. }
  pose proof (queries_pruned t earlier m m Hearlier Hstart) as Hinv.
  unfold query. cbn [fst].
  apply map_eq. intros field. rewrite !lookup_omap.
  pose proof (Hinv field) as Hfield.
  inversion Hfield as [hs hs' Hpruned Hm Hm'|]; [|reflexivity].
  cbn [mbind option_bind].
  apply pruned_same_value; [|exact Hpruned].
  rewrite map_Forall_lookup in Hcont. apply (Hcont field). congruence.
Qed.

(** Every field held has at least one history. *)
Definition populated (m : HistoryManager) : Prop :=
  map_Forall (fun _ hs => hs <> []) (histories m).

Lemma receive_dom (r : gmap string History) (m : HistoryManager) :
  dom (histories (receive r m)) = dom r ∪ dom (histories m).
Proof.
  apply set_eq. intros field.
  rewrite elem_of_union, !elem_of_dom, receive_lookup.
  destruct (r !! field) as [h|].
  - split; [intros _; left|]; eauto.
  - split; [intros H; right; exact H|].
    intros [[h Hh]|H]; [discriminate|exact H].
Qed.

Lemma receive_populated (r : gmap string History) (m : HistoryManager) :
  populated m -> populated (receive r m).
Proof.
  unfold populated. rewrite !map_Forall_lookup. intros Hm field hs.
  rewrite receive_lookup. destruct (r !! field) as [h|].
  - intros [= <-]. apply receiveField_prefix.
  - apply Hm.
Qed.

Lemma query_populated (t : R) (m : HistoryManager) :
  populated m ->
  populated (query t m).2 /\
  dom (histories (query t m).2) = dom (histories m) /\
  dom (query t m).1 = dom (histories m).
Proof.
  unfold populated, query. cbn [fst snd histories].
  rewrite !map_Forall_lookup. intros Hm. split; [|split].
  - intros field kept. rewrite lookup_fmap.
    destruct (histories m !! field) as [hs|] eqn:Hfield; [|discriminate].
    cbn [fmap option_fmap option_map]. intros [= <-].
    destruct hs as [|h rest]; [exact (Hm _ _ Hfield)|].
    destruct (queryField_spec t h rest) as (k & -> & Hk & _).
    intros E. apply (f_equal (@List.length _)) in E. rewrite length_drop in E.
    cbn [List.length] in E, Hk. lia.
  - apply dom_fmap_L.
  - apply set_eq. intros field. rewrite !elem_of_dom, lookup_omap.
    destruct (histories m !! field) as [hs|] eqn:Hfield; cbn [mbind option_bind].
    + destruct hs as [|h rest]; [destruct (Hm _ _ Hfield eq_refl)|].
      destruct (queryField_spec t h rest) as (k & -> & _ & _).
      cbn [fmap option_fmap option_map]. split; eauto.
    + split; intros [? ?]; discriminate.
Qed.

Lemma calls_fields (cs : list Call) (m : HistoryManager) :
  populated m ->
  populated (calls cs m) /\
  dom (histories (calls cs m)) = dom (histories m) ∪ received cs.
Proof.
  revert m. induction cs as [|c cs IH]; intros m Hm.
  - split; [exact Hm|]. cbn [received calls foldl]. rewrite union_empty_r_L. reflexivity.
  - cbn [calls foldl]. destruct c as [r|t]; cbn [call received].
    + destruct (IH (receive r m) (receive_populated r m Hm)) as [Hpop Hdom].
      split; [exact Hpop|]. unfold calls in Hdom. rewrite Hdom, receive_dom.
      rewrite (union_comm_L (dom r)), union_assoc_L. reflexivity.
    + destruct (query_populated t m Hm) as (Hpop' & Hdom' & _).
      destruct (IH (query t m).2 Hpop') as [Hpop Hdom].
      split; [exact Hpop|]. unfold calls in Hdom. rewrite Hdom, Hdom'. reflexivity.
Qed.

(** X29: after any calls of [receive] and [query] on a new manager, [query]
    returns a value for exactly the fields of the records received so far,
    whatever the time asked: queries never empty a field. *)
Theorem query_reports_received_fields (cs : list Call) (t : R) :
  dom (query t (calls cs newHistoryManager)).1 = received cs.
Proof.
  assert (Hnew : populated newHistoryManager).
  { unfold populated, newHistoryManager. apply map_Forall_empty. }
  destruct (calls_fields cs newHistoryManager Hnew) as [Hpop Hdom].
  destruct (query_populated t _ Hpop) as (_ & _ & ->).
  rewrite Hdom. unfold newHistoryManager. cbn [histories]. rewrite dom_empty_L.
  apply union_empty_l_L.
Qed.

(** X30: [receive] leaves the fields that are not in the record as they are;
    to each field of the record it appends the history received, unless the
    last history held is that same object, and keeps the ones held.
    Receiving the same record again changes nothing. *)
Theorem receive_same_record_again (r : gmap string History) (m : HistoryManager) :
  receive r (receive r m) = receive r m /\
  (forall field,
     r !! field = None -> histories (receive r m) !! field = histories m !! field) /\
  (forall field h, r !! field = Some h ->
     exists hs',
       histories (receive r m) !! field = Some hs' /\
       default [] (histories m !! field) `prefix_of` hs' /\
       (List.length hs' <= S (List.length (default [] (histories m !! field))))%nat /\
       exists latest, last hs' = Some latest /\ ref latest = ref h).
Proof.
  split; [|split].
  - assert (Hsame : histories (receive r (receive r m)) = histories (receive r m)).
    { apply map_eq. intros field.
      rewrite !receive_lookup. destruct (r !! field) as [h|]; [|reflexivity].
      cbn [default from_option Datatypes.id]. rewrite receiveField_again. reflexivity. }
    destruct (receive r (receive r m)), (receive r m). cbn [histories] in Hsame.
    congruence.
  - intros field Hfield. rewrite receive_lookup, Hfield. reflexivity.
  - intros field h Hfield. rewrite receive_lookup, Hfield.
    eexists. split; [reflexivity|].
    destruct (receiveField_prefix h (default [] (histories m !! field))) as (Hpre & Hlen & _).
    split; [exact Hpre|]. split; [exact Hlen|]. apply receiveField_last.
Qed.

(** A field with two histories, the second starting where the first ends. *)
Definition sampleField : list History :=
  [ {| ref := 1; initialValue := 0;
       samples := [ {| time := 1; value := 10 |}; {| time := 2; value := 20 |} ] |};
    {| ref := 2; initialValue := 20;
       samples := [ {| time := 4; value := 40 |} ] |} ].

Definition sampleManager : HistoryManager := {| histories := {[ "x" := sampleField ]} |}.

Lemma query_latest_sample_witness :
  (StronglySorted (fun a b => time a <= time b) (allSamples sampleField) ->
   (query 3 sampleManager).1 !! "x"
   = Some (default 0 (value <$> last (filter (fun s => time s <= 3) (allSamples sampleField))))) /\
  (exists kept,
     histories (query 3 sampleManager).2 !! "x" = Some kept /\
     kept <> [] /\
     kept `suffix_of` sampleField /\
     filter (fun s => time s > 3) (allSamples kept)
     = filter (fun s => time s > 3) (allSamples sampleField)).
Proof.
  apply (query_latest_sample 3 sampleManager "x"
           {| ref := 1; initialValue := 0;
              samples := [ {| time := 1; value := 10 |}; {| time := 2; value := 20 |} ] |}).
  unfold sampleManager. cbn [histories]. apply lookup_singleton_eq.
Defined.

Lemma query_after_queries_witness :
  (query 3 (calls (Query <$> [1; 2.5]) sampleManager)).1 = (query 3 sampleManager).1.
Proof.
  apply query_after_queries.
  - unfold sampleManager. cbn [histories]. apply map_Forall_singleton.
    unfold sampleField. cbn. repeat split.
  - repeat constructor; lra.
Defined.

(** Without that, a query can change what the next one returns: here the
    second history starts with 99 although the first ends with 10, and after
    a query at time 2 the query at time 3 returns 99 instead of 10. *)
Example query_misses_dropped_history :
  let field := [ {| ref := 1; initialValue := 0; samples := [ {| time := 1; value := 10 |} ] |};
                 {| ref := 2; initialValue := 99; samples := [ {| time := 5; value := 50 |} ] |} ] in
  fst <$> queryField 3 field = Some 10 /\
  (exists kept, queryField 2 field = Some (10, kept) /\
                fst <$> queryField 3 kept = Some 99).
Proof.
  cbv zeta. unfold queryField. cbn [scanHistories scanSamples samples time value initialValue].
  repeat (first [rewrite decide_True by lra | rewrite decide_False by lra];
          cbn [scanHistories scanSamples samples time value initialValue]).
  split; [reflexivity|].
  eexists. split; [reflexivity|].
  cbn [drop scanHistories scanSamples samples time value initialValue].
  repeat (first [rewrite decide_True by lra | rewrite decide_False by lra];
          cbn [scanHistories scanSamples samples time value initialValue]).
  reflexivity.
Qed.

End HistoricalValue.

(* ===================================================================== *)
(** * convex/util/openai.ts *)
(* ===================================================================== *)

Module OpenAI.

(** ** [retryWithBackoff] *)

Definition RETRY_BACKOFF : list Z := [1000; 10000; 20000]%Z.

Definition RETRY_JITTER : Z := 100%Z.

(** What the wrapped operation throws: an object [{ retry, error }] as
    [chatCompletion] builds it ([error] may be missing), or any other value
    (an [Error], say), whose [retry] and [error] properties are undefined. *)
Inductive Thrown (E : Type) : Type :=
| RetryError (retry : bool) (error : option E)
| Other (e : E).
Arguments RetryError {E} retry error.
Arguments Other {E} e.

(** [retryError.retry], as a condition. *)
Definition retryOf {E : Type} (e : Thrown E) : bool :=
  match e with
  | RetryError retry _ => retry
  | Other _ => false
  end.

(** [if (retryError.error) throw retryError.error; else throw e]. *)
Definition rethrown {E : Type} (e : Thrown E) : Thrown E :=
  match e with
  | RetryError _ (Some error) => Other error
  | _ => e
  end.

(** What [retryWithBackoff] does that can be seen from outside: it calls the
    operation (and sees it return or throw) and it waits. *)
Inductive Event (T E : Type) : Type :=
| Called (outcome : T + Thrown E)
| Waited (backoff : Z).
Arguments Called {T E} outcome.
Arguments Waited {T E} backoff.

(** How a call of [retryWithBackoff] ends. *)
Inductive Ending (T E : Type) : Type :=
| Returned (result : T) (retries : nat) (ms : Z)
| Threw (e : Thrown E)
| Unreachable.
Arguments Returned {T E} result retries ms.
Arguments Threw {T E} e.
Arguments Unreachable {T E}.

Section Retry.

(** [W] is the state of the world the operation acts on, [T] what it
    returns, [E] the errors. *)
Context {W T E : Type}.

(** [fn]. *)
Variable fn : W -> (T + Thrown E) * W.

(** [Date.now()]. *)
Variable dateNow : W -> Z.

(** [await new Promise((resolve) => setTimeout(resolve, backoff + RETRY_JITTER * Math.random()))]. *)
Variable wait : Z -> W -> W.

(** The loop [for (; i <= RETRY_BACKOFF.length; i++)], with [rounds] rounds
    left: what it did, how it ended, and the world it left. *)
Fixpoint retryLoop (rounds : nat) (i : nat) (w : W) : list (Event T E) * Ending T E * W :=
  match rounds with
  | O => ([], Unreachable, w)
  | S rounds' =>
      let start := dateNow w in
      match fn w with
      | (inl result, w') =>
          ([Called (inl result)], Returned result i (dateNow w' - start)%Z, w')
      | (inr e, w') =>
          if (i <? List.length RETRY_BACKOFF) && retryOf e then
            let backoff := nth i RETRY_BACKOFF 0%Z in
            let w'' := wait backoff w' in
            let '(events, ending, w''') := retryLoop rounds' (S i) w'' in
            (Called (inr e) :: Waited backoff :: events, ending, w''')
          else ([Called (inr e)], Threw (rethrown e), w')
      end
  end.

Definition retryWithBackoff (w : W) : list (Event T E) * Ending T E * W :=
  retryLoop (S (List.length RETRY_BACKOFF)) 0 w.

(** The outcomes of the calls of the operation, in order. *)
Fixpoint calls (events : list (Event T E)) : list (T + Thrown E) :=
  match events with
  | [] => []
  | Called outcome :: events' => outcome :: calls events'
  | Waited _ :: events' => calls events'
  end.

(** The backoffs waited, in order. *)
Fixpoint waits (events : list (Event T E)) : list Z :=
  match events with
  | [] => []
  | Called _ :: events' => waits events'
  | Waited backoff :: events' => backoff :: waits events'
  end.

(** A call that threw a failure marked retriable. *)
Definition retriableFailure (outcome : T + Thrown E) : Prop :=
  exists e, outcome = inr e /\ retryOf e = true.

(** ** Verification of [retryWithBackoff] *)

Lemma retryLoop_spec :
  forall rounds i w,
    (1 <= rounds)%nat ->
    (i + rounds = S (List.length RETRY_BACKOFF))%nat ->
    let '(events, ending, _) := retryLoop rounds i w in
    let cs := calls events in
    (1 <= List.length cs <= rounds)%nat /\
    (forall k outcome,
        cs !! k = Some outcome -> (S k < List.length cs)%nat ->
        retriableFailure outcome) /\
    waits events = take (List.length cs - 1) (drop i RETRY_BACKOFF) /\
    match ending with
    | Returned result retries _ =>
        last cs = Some (inl result) /\ (retries = i + List.length cs - 1)%nat
    | Threw thrown =>
        exists e, last cs = Some (inr e) /\ thrown = rethrown e /\
                  (retryOf e = false \/ (i + List.length cs = 4)%nat)
    | Unreachable => False
    end.
Proof.
  induction rounds as [|rounds IH]; intros i w Hr Hi; [lia|].
  cbn [retryLoop]. destruct (fn w) as [[result|e] w'].
  - cbn. repeat split; lia.
  - destruct ((i <? List.length RETRY_BACKOFF)%nat && retryOf e) eqn:Hretry.
    + apply andb_true_iff in Hretry as [Hlt Hflag]. apply Nat.ltb_lt in Hlt.
      specialize (IH (S i) (wait (nth i RETRY_BACKOFF 0%Z) w')).
      destruct (retryLoop rounds (S i) (wait (nth i RETRY_BACKOFF 0%Z) w'))
        as [[events ending] w''].
      cbn in Hi, Hlt.
      destruct IH as (Hlen & Hpre & Hwaits & Hend); [lia|cbn; lia|].
      cbn [calls waits List.length]. split; [lia|]. split; [|split].
      * intros k outcome Hk Hlast. destruct k as [|k].
        -- cbn in Hk. inversion Hk; subst. exists e. auto.
        -- cbn in Hk. apply (Hpre k outcome Hk). lia.
      * rewrite Hwaits.
        replace (S (List.length (calls events)) - 1)%nat
          with (S (List.length (calls events) - 1)) by lia.
        assert (Hdrop : drop i RETRY_BACKOFF
                        = nth i RETRY_BACKOFF 0%Z :: drop (S i) RETRY_BACKOFF).
        { unfold RETRY_BACKOFF in *.
          destruct i as [|[|[|i]]]; try reflexivity. cbn in Hlt. lia. }
        rewrite Hdrop. reflexivity.
      * destruct (calls events) as [|c cs'] eqn:Hcs; [cbn in Hlen; lia|].
        rewrite last_cons_cons.
        destruct ending as [result retries ms|thrown|]; [| |exact Hend].
        -- destruct Hend as [H1 H2]. split; [exact H1|]. cbn in *. lia.
        -- destruct Hend as (e' & H1 & H2 & H3). exists e'.
           split; [exact H1|]. split; [exact H2|].
           destruct H3 as [H3|H3]; [left; exact H3|right; cbn in *; lia].
    + cbn. split; [lia|]. split; [intros k outcome _ Hk; lia|].
      split; [reflexivity|].
      exists e. split; [reflexivity|]. split; [reflexivity|].
      apply andb_false_iff in Hretry as [Hlt|Hflag]; [|left; exact Hflag].
      apply Nat.ltb_ge in Hlt. cbn in Hlt, Hi. right. lia.
Qed.

(** The contract of [retryWithBackoff], for any operation. *)
Lemma retryWithBackoff_spec (w : W) :
  let '(events, ending, _) := retryWithBackoff w in
  let cs := calls events in
  (1 <= List.length cs <= 4)%nat /\
  (forall k outcome,
      cs !! k = Some outcome -> (S k < List.length cs)%nat ->
      retriableFailure outcome) /\
  (forall k e,
      cs !! k = Some (inr e) -> retryOf e = false ->
      S k = List.length cs /\ ending = Threw (rethrown e)) /\
  waits events = take (List.length cs - 1) RETRY_BACKOFF /\
  match ending with
  | Returned result retries _ =>
      last cs = Some (inl result) /\ retries = (List.length cs - 1)%nat
  | Threw thrown =>
      exists e, last cs = Some (inr e) /\ thrown = rethrown e /\
                (retryOf e = false \/ List.length cs = 4%nat)
  | Unreachable => False
  end.
Proof.
  unfold retryWithBackoff.
  pose proof (retryLoop_spec (S (List.length RETRY_BACKOFF)) 0 w) as H.
  destruct (retryLoop (S (List.length RETRY_BACKOFF)) 0 w) as [[events ending] w'].
  destruct H as (Hlen & Hpre & Hwaits & Hend); [lia|reflexivity|].
  cbn in Hlen. split; [exact Hlen|]. split; [exact Hpre|].
  split; [|split; [exact Hwaits|]].
  - intros k e Hk Hflag.
    assert (Hk' : (k < List.length (calls events))%nat)
      by (apply lookup_lt_is_Some; eauto).
    destruct (decide (S k = List.length (calls events))) as [Hlast|Hmid].
    + split; [exact Hlast|].
      assert (Hl : last (calls events) = Some (inr e)).
      { rewrite last_lookup. rewrite <- Hlast. cbn. exact Hk. }
      destruct ending as [result retries ms|thrown|]; [| |contradiction].
      * destruct Hend as [H1 _]. congruence.
      * destruct Hend as (e' & H1 & H2 & _). congruence.
    + destruct (Hpre k (inr e) Hk) as (e' & He' & Hr); [lia|].
      inversion He'; subst. congruence.
  - destruct ending as [result retries ms|thrown|]; [| |exact Hend].
    + destruct Hend as [H1 H2]. split; [exact H1|lia].
    + destruct Hend as (e & H1 & H2 & H3). exists e. repeat split; auto.
Qed.

End Retry.

(** ** The operation [chatCompletion] wraps *)

(** What [fetch] resolved to, as far as [chatCompletion] looks at it:
    [result.ok] (the status is in 200..299), [result.status], the text of the
    body and the content of the first choice of its JSON. *)
Record Response : Type :=
  mkResponse { status : Z; text : string; content : option string }.

Definition ok (r : Response) : bool := (200 <=? status r)%Z && (status r <=? 299)%Z.

(** The errors [chatCompletion] builds. *)
Inductive ChatError : Type :=
| FailedWithCode (status : Z) (text : string)
| UnexpectedResult.

(** The callback [chatCompletion] hands to [retryWithBackoff] (not
    streaming), given what [fetch] resolved to. *)
Definition chatCompletionAttempt (r : Response) : string + Thrown ChatError :=
  if negb (ok r) then
    inr (RetryError ((status r =? 429)%Z || (500 <=? status r)%Z)
                    (Some (FailedWithCode (status r) (text r))))
  else
    match content r with
    | Some content => inl content
    | None => inr (Other UnexpectedResult)
    end.

(** ** [ChatCompletionContent.read] *)

(** A JavaScript string as [read] handles it: the sequence of its
    characters.  [+=] is [++], [s.substring(0, n)] is [take n s],
    [s.substring(s.length - n)] is [drop (length s - n) s]. *)
Definition chars : Type := list ascii.

(** A string literal. *)
Definition str (s : string) : chars := String.list_ascii_of_string s.

(** [s.indexOf(w)]: the first position at which [w] starts in [s]; [None]
    is -1. *)
Fixpoint indexOf (s w : chars) : option nat :=
  if bool_decide (w `prefix_of` s) then Some 0%nat
  else match s with
       | [] => None
       | _ :: s' => S <$> indexOf s' w
       end.

(** [suffixOverlapsPrefix]: some non-empty suffix of [s1] is a prefix of
    [s2]. *)
Definition suffixOverlapsPrefix (s1 s2 : chars) : bool :=
  existsb
    (fun i =>
       let suffix := drop (List.length s1 - i) s1 in
       let prefix := take i s2 in
       bool_decide (suffix = prefix))
    (seq 1 (Nat.min (List.length s1) (List.length s2))).

(** The loop of [read] over the stop words, for one value of
    [lastFragment]: the index at which it found a stop word ([inl]), or
    whether it saw an overlap ([inr hasOverlap]). *)
Fixpoint scanStopWords (stopWords : list chars) (lastFragment : chars)
         (hasOverlap : bool) : nat + bool :=
  match stopWords with
  | [] => inr hasOverlap
  | stopWord :: more =>
      match indexOf lastFragment stopWord with
      | Some idx => inl idx
      | None =>
          scanStopWords more lastFragment
            (if suffixOverlapsPrefix lastFragment stopWord then true else hasOverlap)
      end
  end.

(** [read]: the chunks it yields, given the chunks [readInner] yields
    ([datas]) and the fragment held back so far. *)
Fixpoint readFrom (stopWords : list chars) (lastFragment : chars)
         (datas : list chars) : list chars :=
  match datas with
  | [] => [lastFragment]
  | data :: later =>
      let lastFragment := lastFragment ++ data in
      match scanStopWords stopWords lastFragment false with
      | inl idx => [take idx lastFragment]
      | inr true => readFrom stopWords lastFragment later
      | inr false => lastFragment :: readFrom stopWords [] later
      end
  end.

Definition read (stopWords : list chars) (datas : list chars) : list chars :=
  readFrom stopWords [] datas.

(** [readAll]. *)
Definition readAll (stopWords : list chars) (datas : list chars) : chars :=
  fold_left (fun allContent chunk => allContent ++ chunk) (read stopWords datas) [].

(** What the specification asks of [read], in its words: the whole content
    of the stream, cut immediately before the first occurrence of any stop
    word. *)
Definition firstStop (stopWords : list chars) (s : chars) : option nat :=
  fold_right
    (fun stopWord best =>
       match indexOf s stopWord, best with
       | Some i, Some j => Some (Nat.min i j)
       | Some i, None => Some i
       | None, best => best
       end)
    None stopWords.

Definition truncated (stopWords : list chars) (s : chars) : chars :=
  match firstStop stopWords s with
  | Some idx => take idx s
  | None => s
  end.

Definition wholeContent (datas : list chars) : chars :=
  fold_left (fun s data => s ++ data) datas [].

(** [s] holds a complete occurrence of one of the stop words. *)
Definition leaks (stopWords : list chars) (s : chars) : bool :=
  existsb (fun stopWord => bool_decide (is_Some (indexOf s stopWord))) stopWords.

(** [w] occurs in [s] at position [i]. *)
Definition occurs (w s : chars) (i : nat) : Prop := w `prefix_of` drop i s.

(** No occurrence of [w] starts within [yielded], whatever follows it. *)
Definition settled (w yielded : chars) : Prop :=
  forall rest i, (i < List.length yielded)%nat -> ~ occurs w (yielded ++ rest) i.

(** No occurrence of [w] starts within [s]. *)
Definition clear (w s : chars) : Prop :=
  forall i, (i < List.length s)%nat -> ~ occurs w s i.

(** The failure thrown on a response that is not ok is marked retriable
    exactly for the status 429 and the statuses from 500 on; a response
    that is ok throws nothing retriable. *)
Lemma chatCompletion_retriable (r : Response) :
  (ok r = false ->
   exists retry error,
     chatCompletionAttempt r = inr (RetryError retry (Some error)) /\
     (retry = true <-> (status r = 429 \/ 500 <= status r)%Z)) /\
  (ok r = true ->
   forall e, chatCompletionAttempt r = inr e -> retryOf e = false).
Proof.
  unfold chatCompletionAttempt. split; intros Hok; rewrite Hok; cbn [negb].
  - eexists _, _. split; [reflexivity|].
    rewrite orb_true_iff, Z.eqb_eq, Z.leb_le. reflexivity.
  - intros e. destruct (content r); intros H; inversion H; subst. reflexivity.
Qed.

(** C8: [retryWithBackoff] calls the operation at most four times; every
    call but the last threw a failure marked retriable (so it retries only
    then, and a failure not marked retriable is the last call and is what
    propagates); when it returns, the last call succeeded and [retries] is
    the number of failed calls before it; it waited 1 s, 10 s and 20 s (plus
    jitter), in this order, between the calls; and the failure
    [chatCompletion] throws on a response that is not ok is marked retriable
    exactly when the status is 429 or at least 500. *)
Theorem retryWithBackoff_retries
  {W T E : Type} (fn : W -> (T + Thrown E) * W) (dateNow : W -> Z)
  (wait : Z -> W -> W) (w : W) :
  (let '(events, ending, _) := retryWithBackoff fn dateNow wait w in
   let cs := calls events in
   (1 <= List.length cs <= 4)%nat /\
   (forall k outcome,
       cs !! k = Some outcome -> (S k < List.length cs)%nat ->
       retriableFailure outcome) /\
   (forall k e,
       cs !! k = Some (inr e) -> retryOf e = false ->
       S k = List.length cs /\ ending = Threw (rethrown e)) /\
   waits events = take (List.length cs - 1) [1000; 10000; 20000]%Z /\
   match ending with
   | Returned result retries _ =>
       last cs = Some (inl result) /\ retries = (List.length cs - 1)%nat
   | Threw thrown =>
       exists e, last cs = Some (inr e) /\ thrown = rethrown e /\
                 (retryOf e = false \/ List.length cs = 4%nat)
   | Unreachable => False
   end) /\
  (forall r : Response,
      ok r = false ->
      exists retry error,
        chatCompletionAttempt r = inr (RetryError retry (Some error)) /\
        (retry = true <-> (status r = 429 \/ 500 <= status r)%Z)).
Proof.
  split.
  - apply retryWithBackoff_spec.
  - intros r. apply chatCompletion_retriable.
Qed.

(** An operation that answers 503, then 429, then returns: the world is the
    number of calls made so far. *)
Definition flaky (n : nat) : (string + Thrown ChatError) * nat :=
  (match n with
   | O => chatCompletionAttempt {| status := 503; text := "busy"; content := None |}
   | S O => chatCompletionAttempt {| status := 429; text := "slow down"; content := None |}
   | _ => chatCompletionAttempt {| status := 200; text := ""; content := Some "hello" |}
   end, S n).

Example flaky_retried_twice :
  retryWithBackoff flaky (fun n => Z.of_nat n) (fun _ n => n) 0%nat
  = ([ Called (inr (RetryError true (Some (FailedWithCode 503 "busy"))));
       Waited 1000;
       Called (inr (RetryError true (Some (FailedWithCode 429 "slow down"))));
       Waited 10000;
       Called (inl "hello") ],
     Returned "hello" 2 1, 3%nat).
Proof. reflexivity. Qed.

(** A 400 is not retried: one call, and its error propagates. *)
Example bad_request_not_retried :
  retryWithBackoff
    (fun n : nat =>
       (chatCompletionAttempt {| status := 400; text := "bad"; content := None |}, S n))
    (fun n => Z.of_nat n) (fun _ n => n) 0%nat
  = ([ Called (inr (RetryError false (Some (FailedWithCode 400 "bad")))) ],
     Threw (Other (FailedWithCode 400 "bad")), 1%nat).
Proof. reflexivity. Qed.

(** ** [read] and the stop words *)

Lemma fold_left_app_concat (l : list chars) (a : chars) :
  fold_left (fun s d => s ++ d) l a = a ++ concat l.
Proof.
  revert a. induction l as [|x l IH]; intros a; cbn.
  - rewrite app_nil_r. reflexivity.
  - rewrite IH, app_assoc. reflexivity.
Qed.

Lemma indexOf_Some (s w : chars) (i : nat) :
  indexOf s w = Some i <-> occurs w s i /\ forall j, j < i -> ~ occurs w s j.
Proof.
  revert i. induction s as [|c s IH]; intros i; cbn [indexOf].
  - case_bool_decide as Hp.
    + split.
      * intros Hi. inversion Hi; subst. split; [exact Hp|]. intros j Hj. lia.
      * intros [Ho Hmin]. destruct i; [reflexivity|].
        exfalso. apply (Hmin 0); [lia|exact Hp].
    + split; [discriminate|]. intros [Ho _]. exfalso. apply Hp.
      unfold occurs in Ho. rewrite drop_nil in Ho. exact Ho.
  - case_bool_decide as Hp.
    + split.
      * intros Hi. inversion Hi; subst. split; [exact Hp|]. intros j Hj. lia.
      * intros [Ho Hmin]. destruct i; [reflexivity|].
        exfalso. apply (Hmin 0); [lia|exact Hp].
    + destruct i as [|i].
      * split; [destruct (indexOf s w); discriminate|].
        intros [Ho _]. exfalso. apply Hp, Ho.
      * split.
        -- intros Hi. destruct (indexOf s w) as [k|] eqn:Hk; [|discriminate].
           cbn in Hi. inversion Hi; subst k.
           destruct (proj1 (IH i) eq_refl) as [Ho Hmin]. split; [exact Ho|].
           intros [|j] Hj; [exact Hp|]. apply Hmin. lia.
        -- intros [Ho Hmin].
           assert (Hk : indexOf s w = Some i).
           { apply IH. split; [exact Ho|]. intros j Hj. apply (Hmin (S j)). lia. }
           rewrite Hk. reflexivity.
Qed.

Lemma indexOf_None (s w : chars) :
  indexOf s w = None <-> forall j, ~ occurs w s j.
Proof.
  induction s as [|c s IH]; cbn [indexOf].
  - case_bool_decide as Hp.
    + split; [discriminate|]. intros Hno. exfalso. apply (Hno 0). exact Hp.
    + split; [|reflexivity]. intros _ j Ho. apply Hp.
      unfold occurs in Ho. rewrite drop_nil in Ho. exact Ho.
  - case_bool_decide as Hp.
    + split; [discriminate|]. intros Hno. exfalso. apply (Hno 0). exact Hp.
    + split.
      * intros Hn. destruct (indexOf s w) eqn:Hk; [discriminate|].
        intros [|j]; [exact Hp|]. apply IH. reflexivity.
      * intros Hno. assert (Hk : indexOf s w = None).
        { apply IH. intros j. apply (Hno (S j)). }
        rewrite Hk. reflexivity.
Qed.

Lemma indexOf_le (s w : chars) (i : nat) :
  indexOf s w = Some i -> i <= List.length s.
Proof.
  revert i. induction s as [|c s IH]; intros i; cbn [indexOf];
    case_bool_decide; intros Hi; try (inversion Hi; lia); try discriminate.
  destruct (indexOf s w) as [k|]; [|discriminate].
  cbn in Hi. inversion Hi; subst. specialize (IH k eq_refl). cbn. lia.
Qed.

Lemma prefix_of_app_short (w d rest : chars) :
  w `prefix_of` d ++ rest -> List.length w <= List.length d -> w `prefix_of` d.
Proof.
  intros [k Hk] Hlen. exists (drop (List.length w) d).
  rewrite <- (take_drop (List.length w) d) at 1. f_equal.
  apply (f_equal (take (List.length w))) in Hk.
  rewrite take_app_le in Hk by exact Hlen.
  rewrite take_app_length in Hk. exact Hk.
Qed.

Lemma prefix_of_app_long (w d rest : chars) :
  w `prefix_of` d ++ rest -> List.length d <= List.length w ->
  d = take (List.length d) w.
Proof.
  intros [k Hk] Hlen.
  apply (f_equal (take (List.length d))) in Hk.
  rewrite take_app_length in Hk.
  rewrite take_app_le in Hk by exact Hlen. exact Hk.
Qed.

Lemma suffixOverlapsPrefix_false (s1 s2 : chars) (i : nat) :
  suffixOverlapsPrefix s1 s2 = false ->
  1 <= i -> i <= List.length s1 -> i <= List.length s2 ->
  drop (List.length s1 - i) s1 <> take i s2.
Proof.
  unfold suffixOverlapsPrefix. intros Hno H1 H2 H3 Heq.
  assert (Hyes : existsb
    (fun i => bool_decide (drop (List.length s1 - i) s1 = take i s2))
    (seq 1 (Nat.min (List.length s1) (List.length s2))) = true).
  { apply existsb_exists. exists i. split.
    - apply in_seq. lia.
    - apply bool_decide_eq_true_2. exact Heq. }
  cbv zeta in Hno. rewrite Hno in Hyes. discriminate.
Qed.

Lemma settled_nil (w : chars) : settled w [].
Proof. intros rest i Hi. cbn in Hi. lia. Qed.

Lemma clear_nil (w : chars) : clear w [].
Proof. intros i Hi. cbn in Hi. lia. Qed.

Lemma settled_app (w yielded fragment : chars) :
  settled w yielded ->
  indexOf fragment w = None ->
  suffixOverlapsPrefix fragment w = false ->
  settled w (yielded ++ fragment).
Proof.
  intros Hset Hnone Hover rest i Hi Hocc.
  rewrite length_app in Hi.
  destruct (decide (i < List.length yielded)) as [Hlt|Hge].
  - apply (Hset (fragment ++ rest) i Hlt). rewrite app_assoc. exact Hocc.
  - unfold occurs in Hocc.
    rewrite <- app_assoc, drop_app_ge in Hocc by lia.
    set (j := i - List.length yielded) in *.
    assert (Hj : j < List.length fragment) by (unfold j; lia).
    rewrite drop_app_le in Hocc by lia.
    destruct (decide (List.length w <= List.length (drop j fragment))) as [Hshort|Hlong].
    + apply (proj1 (indexOf_None fragment w) Hnone j).
      apply (prefix_of_app_short _ _ _ Hocc Hshort).
    + apply prefix_of_app_long in Hocc; [|lia].
      rewrite length_drop in Hocc, Hlong.
      apply (suffixOverlapsPrefix_false fragment w (List.length fragment - j) Hover);
        [lia|lia|lia|].
      replace (List.length fragment - (List.length fragment - j)) with j by lia.
      exact Hocc.
Qed.

Lemma firstStop_single (w s : chars) : firstStop [w] s = indexOf s w.
Proof. cbn. destruct (indexOf s w); reflexivity. Qed.

Lemma truncated_clear (w s : chars) : clear w s -> truncated [w] s = s.
Proof.
  intros Hclear. unfold truncated. rewrite firstStop_single.
  destruct (indexOf s w) as [i|] eqn:Hi; [|reflexivity].
  apply take_ge.
  destruct (decide (List.length s <= i)) as [Hle|Hgt]; [exact Hle|].
  exfalso. apply (Hclear i); [lia|]. apply indexOf_Some in Hi. apply Hi.
Qed.

Lemma settled_clear (w yielded fragment : chars) :
  settled w yielded -> clear w fragment -> clear w (yielded ++ fragment).
Proof.
  intros Hset Hclear i Hi Hocc. rewrite length_app in Hi.
  destruct (decide (i < List.length yielded)) as [Hlt|Hge].
  - apply (Hset fragment i Hlt Hocc).
  - apply (Hclear (i - List.length yielded)); [lia|].
    unfold occurs in *. rewrite drop_app_ge in Hocc by lia. exact Hocc.
Qed.

Lemma indexOf_settled (w yielded fragment rest : chars) (idx : nat) :
  settled w yielded ->
  indexOf fragment w = Some idx ->
  indexOf (yielded ++ fragment ++ rest) w = Some (List.length yielded + idx).
Proof.
  intros Hset Hidx.
  pose proof (indexOf_le _ _ _ Hidx) as Hle.
  apply indexOf_Some in Hidx as [Hocc Hmin].
  apply indexOf_Some. split.
  - unfold occurs in *. rewrite drop_app_ge by lia.
    replace (List.length yielded + idx - List.length yielded) with idx by lia.
    rewrite drop_app_le by lia.
    apply prefix_app_r. exact Hocc.
  - intros j Hj Hoj.
    destruct (decide (j < List.length yielded)) as [Hlt|Hge].
    + apply (Hset (fragment ++ rest) j Hlt Hoj).
    + unfold occurs in Hoj. rewrite drop_app_ge in Hoj by lia.
      set (k := j - List.length yielded) in *.
      assert (Hk : k < idx) by (unfold k; lia).
      rewrite drop_app_le in Hoj by lia.
      apply (Hmin k Hk). unfold occurs.
      apply (prefix_of_app_short _ _ _ Hoj).
      destruct Hocc as [tail Htail].
      apply (f_equal (@List.length ascii)) in Htail.
      rewrite length_app, !length_drop in *. lia.
Qed.

Lemma readFrom_single (w : chars) (datas : list chars) :
  forall yielded lastFragment,
    settled w yielded -> clear w lastFragment ->
    yielded ++ concat (readFrom [w] lastFragment datas)
    = truncated [w] (yielded ++ lastFragment ++ concat datas).
Proof.
  induction datas as [|data later IH]; intros yielded lastFragment Hset Hclear.
  - cbn [readFrom concat]. rewrite !app_nil_r.
    symmetry. apply truncated_clear, settled_clear; assumption.
  - cbn [readFrom concat scanStopWords].
    rewrite (app_assoc lastFragment data).
    set (fragment := lastFragment ++ data).
    destruct (indexOf fragment w) as [idx|] eqn:Hidx.
    + cbn [concat]. rewrite app_nil_r.
      unfold truncated. rewrite firstStop_single.
      rewrite (indexOf_settled _ _ _ _ _ Hset Hidx).
      rewrite take_app_add.
      rewrite take_app_le by (eapply indexOf_le; exact Hidx).
      reflexivity.
    + destruct (suffixOverlapsPrefix fragment w) eqn:Hover.
      * apply IH; [exact Hset|].
        intros i _. apply (proj1 (indexOf_None fragment w) Hidx).
      * cbn [concat]. rewrite !app_assoc.
        specialize (IH (yielded ++ fragment) []). cbn [app] in IH.
        apply IH; [|apply clear_nil].
        apply settled_app; assumption.
Qed.

(** X1: with one stop word, what [read] yields, put together, is the whole
    content cut immediately before the first occurrence of the stop word
    (the whole content when it does not occur), however the content is
    split into chunks. *)
Theorem read_single_stop_word (w : chars) (datas : list chars) :
  readAll [w] datas = truncated [w] (wholeContent datas).
Proof.
  unfold readAll, wholeContent, read.
  rewrite !fold_left_app_concat.
  apply (readFrom_single w datas [] []); [apply settled_nil|apply clear_nil].
Qed.

(** A stop word split over two chunks is held back and cut. *)
Example stop_word_across_chunks :
  read [str "Kira:"] (str <$> ["Hello "; "Ki"; "ra: how"; " are you"])
  = str <$> ["Hello "; ""].
Proof. reflexivity. Qed.

(** A false alarm is released with the next chunk. *)
Example overlap_released :
  read [str "Kira:"] (str <$> ["Hello Ki"; "ss"; " me"])
  = str <$> ["Hello Kiss"; " me"; ""].
Proof. reflexivity. Qed.

(** C4 (where the code departs from it): with the stop words ["Kira:"] and
    ["kira:"], in this order, and the one chunk ["ok kira: hi Kira: bye"],
    [read] cuts at the stop word it tries first, not at the one that occurs
    first: it yields ["ok kira: hi "], which holds the complete stop word
    ["kira:"], where the content cut before the first occurrence of any stop
    word is ["ok "]. *)
Theorem read_leaks_earlier_stop_word :
  let stopWords := [str "Kira:"; str "kira:"] in
  let datas := [str "ok kira: hi Kira: bye"] in
  read stopWords datas = [str "ok kira: hi "] /\
  readAll stopWords datas = str "ok kira: hi " /\
  truncated stopWords (wholeContent datas) = str "ok " /\
  leaks stopWords (readAll stopWords datas) = true.
Proof. repeat split; reflexivity. Qed.

(** ** [read] with several stop words *)

Lemma occurs_fits (w s : chars) (i : nat) :
  w <> [] -> occurs w s i -> (i < List.length s)%nat.
Proof.
  intros Hne Hocc. destruct (decide (i < List.length s)%nat) as [Hlt|Hge]; [exact Hlt|].
  unfold occurs in Hocc. rewrite drop_ge in Hocc by lia.
  apply prefix_nil_inv in Hocc. contradiction.
Qed.

(** An occurrence makes [indexOf] find one, no later. *)
Lemma indexOf_found (s w : chars) (i : nat) :
  occurs w s i -> exists j, indexOf s w = Some j /\ (j <= i)%nat.
Proof.
  intros Hocc. destruct (indexOf s w) as [j|] eqn:Hidx.
  - exists j. split; [reflexivity|].
    destruct (decide (j <= i)%nat) as [Hle|Hgt]; [exact Hle|].
    apply indexOf_Some in Hidx as [_ Hmin]. exfalso. apply (Hmin i); [lia|exact Hocc].
  - exfalso. apply (proj1 (indexOf_None s w) Hidx i), Hocc.
Qed.

Lemma firstStop_found (stopWords : list chars) (s w : chars) (j : nat) :
  w ∈ stopWords -> indexOf s w = Some j ->
  exists m, firstStop stopWords s = Some m /\ (m <= j)%nat.
Proof.
  induction stopWords as [|v vs IH]; intros Hin Hidx; [inversion Hin|].
  cbn [firstStop fold_right]. fold (firstStop vs s).
  apply elem_of_cons in Hin as [->|Hin].
  - rewrite Hidx. destruct (firstStop vs s) as [k|]; eexists; (split; [reflexivity|lia]).
  - destruct (IH Hin Hidx) as (m & Hm & Hle). rewrite Hm.
    destruct (indexOf s v) as [i|]; eexists; (split; [reflexivity|lia]).
Qed.

Lemma firstStop_none (stopWords : list chars) (s : chars) :
  firstStop stopWords s = None <-> forall w, w ∈ stopWords -> indexOf s w = None.
Proof.
  induction stopWords as [|v vs IH]; cbn [firstStop fold_right].
  - split; [intros _ w Hw; inversion Hw|reflexivity].
  - fold (firstStop vs s). split.
    + intros Hnone w Hw.
      destruct (indexOf s v) as [i|] eqn:Hv;
        [destruct (firstStop vs s); discriminate|].
      apply elem_of_cons in Hw as [->|Hw]; [exact Hv|]. apply IH; assumption.
    + intros Hall. rewrite (Hall v) by (apply elem_of_cons; left; reflexivity).
      apply IH. intros w Hw. apply Hall. apply elem_of_cons. right. exact Hw.
Qed.

(** The stop word [scanStopWords] cuts at. *)
Lemma scanStopWords_cut (stopWords : list chars) (lastFragment : chars) :
  forall hasOverlap idx,
    scanStopWords stopWords lastFragment hasOverlap = inl idx ->
    exists w, w ∈ stopWords /\ indexOf lastFragment w = Some idx.
Proof.
  induction stopWords as [|v vs IH]; intros hasOverlap idx Hscan; [discriminate|].
  cbn [scanStopWords] in Hscan.
  destruct (indexOf lastFragment v) as [i|] eqn:Hv.
  - inversion Hscan; subst. exists v. split; [apply elem_of_cons; left; reflexivity|exact Hv].
  - destruct (IH _ _ Hscan) as (w & Hw & Hidx). exists w.
    split; [apply elem_of_cons; right; exact Hw|exact Hidx].
Qed.

(** A fragment [scanStopWords] lets through holds no stop word and ends
    on no beginning of one. *)
Lemma scanStopWords_through (stopWords : list chars) (lastFragment : chars) :
  forall hasOverlap over,
    scanStopWords stopWords lastFragment hasOverlap = inr over ->
    (forall w, w ∈ stopWords -> indexOf lastFragment w = None) /\
    (over = false ->
     hasOverlap = false /\
     forall w, w ∈ stopWords -> suffixOverlapsPrefix lastFragment w = false).
Proof.
  induction stopWords as [|v vs IH]; intros hasOverlap over Hscan.
  - cbn in Hscan. inversion Hscan; subst.
    split; [intros w Hw; inversion Hw|]. intros ->. split; [reflexivity|].
    intros w Hw. inversion Hw.
  - cbn [scanStopWords] in Hscan.
    destruct (indexOf lastFragment v) as [i|] eqn:Hv; [discriminate|].
    destruct (IH _ _ Hscan) as [Hnone Hover]. split.
    + intros w Hw. apply elem_of_cons in Hw as [->|Hw]; [exact Hv|apply Hnone, Hw].
    + intros Hfalse. destruct (Hover Hfalse) as [Hflag Hall].
      destruct (suffixOverlapsPrefix lastFragment v) eqn:Hov; [discriminate|].
      split; [exact Hflag|].
      intros w Hw. apply elem_of_cons in Hw as [->|Hw]; [exact Hov|apply Hall, Hw].
Qed.

Lemma take_prefix_le (s : chars) (m n : nat) :
  (m <= n)%nat -> take m s `prefix_of` take n s.
Proof.
  intros Hle. replace (take m s) with (take m (take n s)); [apply prefix_take|].
  rewrite take_take. f_equal. lia.
Qed.

Lemma truncated_prefix (stopWords : list chars) (s : chars) :
  truncated stopWords s `prefix_of` s.
Proof.
  unfold truncated. destruct (firstStop stopWords s); [apply prefix_take|reflexivity].
Qed.

Lemma readFrom_between (stopWords : list chars) (datas : list chars) :
  forall yielded lastFragment,
    let whole := yielded ++ lastFragment ++ concat datas in
    let out := yielded ++ concat (readFrom stopWords lastFragment datas) in
    truncated stopWords whole `prefix_of` out /\ out `prefix_of` whole.
Proof.
  induction datas as [|data later IH]; intros yielded lastFragment; cbv zeta.
  - cbn [readFrom concat]. rewrite !app_nil_r.
    split; [apply truncated_prefix|reflexivity].
  - cbn [readFrom concat]. rewrite (app_assoc lastFragment data).
    set (fragment := lastFragment ++ data).
    destruct (scanStopWords stopWords fragment false) as [idx|[|]] eqn:Hscan.
    + cbn [concat]. rewrite app_nil_r.
      destruct (scanStopWords_cut _ _ _ _ Hscan) as (w & Hw & Hidx).
      pose proof (indexOf_le _ _ _ Hidx) as Hle.
      assert (Hout : yielded ++ take idx fragment
                     = take (List.length yielded + idx) (yielded ++ fragment ++ concat later)).
      { rewrite take_app_add, take_app_le by exact Hle. reflexivity. }
      rewrite Hout. split; [|apply prefix_take].
      assert (Hocc : occurs w (yielded ++ fragment ++ concat later)
                            (List.length yielded + idx)).
      { unfold occurs. rewrite drop_app_add, drop_app_le by exact Hle.
        apply prefix_app_r. apply indexOf_Some in Hidx. apply Hidx. }
      destruct (indexOf_found _ _ _ Hocc) as (j & Hj & Hji).
      destruct (firstStop_found stopWords _ w j Hw Hj) as (m & Hm & Hmj).
      unfold truncated. rewrite Hm. apply take_prefix_le. lia.
    + apply IH.
    + cbn [concat]. rewrite !app_assoc.
      specialize (IH (yielded ++ fragment) []). cbn [app] in IH. exact IH.
Qed.

Lemma readAll_concat (stopWords : list chars) (datas : list chars) :
  readAll stopWords datas = concat (read stopWords datas).
Proof. unfold readAll. rewrite fold_left_app_concat. reflexivity. Qed.

Lemma wholeContent_concat (datas : list chars) : wholeContent datas = concat datas.
Proof. unfold wholeContent. rewrite fold_left_app_concat. reflexivity. Qed.

(** X13: whatever the stop words and the chunks, what [read] yields, put
    together, is a beginning of the content of the stream that includes
    everything before the first occurrence of any stop word: [read] makes
    up nothing and cuts nothing too early.  When no stop word occurs in the
    content, it yields all of it. *)
Theorem read_cuts_no_earlier (stopWords : list chars) (datas : list chars) :
  truncated stopWords (wholeContent datas) `prefix_of` readAll stopWords datas /\
  readAll stopWords datas `prefix_of` wholeContent datas /\
  ((forall w, w ∈ stopWords -> indexOf (wholeContent datas) w = None) ->
   readAll stopWords datas = wholeContent datas).
Proof.
  rewrite readAll_concat, wholeContent_concat.
  destruct (readFrom_between stopWords datas [] []) as [Hlow Hhigh].
  cbn [app] in Hlow, Hhigh. fold (read stopWords datas) in Hlow, Hhigh.
  split; [exact Hlow|]. split; [exact Hhigh|].
  intros Hnone. apply firstStop_none in Hnone.
  unfold truncated in Hlow. rewrite Hnone in Hlow.
  symmetry. apply prefix_length_eq; [exact Hlow|].
  apply prefix_length, Hhigh.
Qed.

Lemma scanStopWords_overlap (stopWords : list chars) (lastFragment : chars) :
  forall over, scanStopWords stopWords lastFragment true = inr over -> over = true.
Proof.
  induction stopWords as [|v vs IH]; intros over Hscan.
  - cbn in Hscan. inversion Hscan. reflexivity.
  - cbn [scanStopWords] in Hscan. destruct (indexOf lastFragment v); [discriminate|].
    destruct (suffixOverlapsPrefix lastFragment v); apply IH, Hscan.
Qed.

Lemma clear_take (w s : chars) (idx : nat) :
  (forall j, (j < idx)%nat -> ~ occurs w s j) -> clear w (take idx s).
Proof.
  intros Hmin j Hj Hocc. rewrite length_take in Hj. apply (Hmin j); [lia|].
  unfold occurs in *. etrans; [exact Hocc|].
  rewrite <- (take_drop idx s) at 2. rewrite drop_app_le by (rewrite length_take; lia).
  apply prefix_app_r. reflexivity.
Qed.

Lemma readFrom_first (w : chars) (stopWords : list chars) (datas : list chars) :
  forall yielded lastFragment,
    settled w yielded -> clear w lastFragment ->
    clear w (yielded ++ concat (readFrom (w :: stopWords) lastFragment datas)).
Proof.
  induction datas as [|data later IH]; intros yielded lastFragment Hset Hclear.
  - cbn [readFrom concat]. rewrite app_nil_r. apply settled_clear; assumption.
  - cbn [readFrom concat scanStopWords].
    set (fragment := lastFragment ++ data).
    destruct (indexOf fragment w) as [idx|] eqn:Hidx.
    + cbn [concat]. rewrite app_nil_r. apply settled_clear; [exact Hset|].
      apply clear_take. apply indexOf_Some in Hidx. apply Hidx.
    + assert (Hnone : forall j, ~ occurs w fragment j)
        by (apply indexOf_None, Hidx).
      destruct (suffixOverlapsPrefix fragment w) eqn:Hover.
      * destruct (scanStopWords stopWords fragment true) as [idx|over] eqn:Hscan.
        -- cbn [concat]. rewrite app_nil_r. apply settled_clear; [exact Hset|].
           apply clear_take. intros j _. apply Hnone.
        -- rewrite (scanStopWords_overlap _ _ _ Hscan).
           apply IH; [exact Hset|]. intros j _. apply Hnone.
      * destruct (scanStopWords stopWords fragment false) as [idx|[|]] eqn:Hscan.
        -- cbn [concat]. rewrite app_nil_r. apply settled_clear; [exact Hset|].
           apply clear_take. intros j _. apply Hnone.
        -- apply IH; [exact Hset|]. intros j _. apply Hnone.
        -- cbn [concat]. rewrite app_assoc. apply IH; [|apply clear_nil].
           apply settled_app; assumption.
Qed.

(** X14: the stop word that comes first in the list never shows in what
    [read] yields: whatever the other stop words and the chunks, the text
    yielded, put together, holds no occurrence of it, even one that the
    chunks split. *)
Theorem read_hides_first_stop_word
  (w : chars) (stopWords : list chars) (datas : list chars) :
  w <> [] -> indexOf (readAll (w :: stopWords) datas) w = None.
Proof.
  intros Hne. rewrite readAll_concat. apply indexOf_None. intros i Hocc.
  pose proof (readFrom_first w stopWords datas [] [] (settled_nil w) (clear_nil w))
    as Hclear.
  cbn [app] in Hclear. fold (read (w :: stopWords) datas) in Hclear.
  apply (Hclear i); [|exact Hocc]. apply (occurs_fits w); assumption.
Qed.

Lemma read_hides_first_stop_word_witness :
  indexOf (readAll [str "Kira:"; str "kira:"] [str "ok kira: hi Ki"; str "ra: bye"])
          (str "Kira:") = None.
Proof. apply read_hides_first_stop_word. discriminate. Defined.

(** ** [splitStream] and [readInner] *)

(** [s.split(sep)] for a separator that is not empty: the parts of [s]
    between the occurrences of [sep], found from the left.  Every round
    consumes a character at least, so [length s] rounds are enough. *)
Fixpoint splitRounds (rounds : nat) (sep s : chars) : list chars :=
  match indexOf s sep, rounds with
  | Some i, S rounds' =>
      take i s :: splitRounds rounds' sep (drop (i + List.length sep) s)
  | _, _ => [s]
  end.

Definition split (sep s : chars) : list chars := splitRounds (List.length s) sep s.

(** The separator of server-sent events: two line feeds. *)
Definition eventSeparator : chars := ["010"; "010"]%char.

(** A chunk of the body as the reader hands it out: bytes. *)
Definition Uint8Array : Type := list Byte.byte.

Section SplitStream.

(** [new TextDecoder().decode(value)]: the text of the bytes of one chunk,
    decoded on their own by a decoder made for that chunk. *)
Variable decode : Uint8Array -> chars.

(** [splitStream], given the chunks the reader hands out before it is
    done: what it yields. *)
Fixpoint splitStreamFrom (lastFragment : chars) (values : list Uint8Array) : list chars :=
  match values with
  | [] => if decide (lastFragment <> []) then [lastFragment] else []
  | value :: later =>
      let data := decode value in
      let lastFragment := lastFragment ++ data in
      let parts := split eventSeparator lastFragment in
      take (List.length parts - 1) parts
      ++ splitStreamFrom (default [] (parts !! (List.length parts - 1)%nat)) later
  end.

Definition splitStream (values : list Uint8Array) : list chars :=
  splitStreamFrom [] values.

End SplitStream.

(** The parts of a text as events: all of them, but for an empty last
    one. *)
Definition flushed (parts : list chars) : list chars :=
  take (List.length parts - 1) parts
  ++ match parts !! (List.length parts - 1)%nat with
     | Some lastPart => if decide (lastPart <> []) then [lastPart] else []
     | None => []
     end.

(** The events of a whole text. *)
Definition events (s : chars) : list chars := flushed (split eventSeparator s).

Section ReadInner.

(** [JSON.parse(text).choices[0].delta.content]: [None] when the text is
    not JSON, when the path does not exist (both throw inside the [try]) or
    when there is no content. *)
Variable deltaContent : chars -> option chars.

(** [new TextDecoder().decode(value)], as in [splitStream]. *)
Variable decode : Uint8Array -> chars.

(** [readInner], given what [splitStream] yields. *)
Definition readInner (datas : list chars) : list chars :=
  datas ≫= (fun data =>
    if bool_decide (str "data: " `prefix_of` data) then
      match deltaContent (drop (List.length (str "data: ")) data) with
      | Some content => if decide (content <> []) then [content] else []
      | None => []
      end
    else []).

(** [readAll] on the body of a response. *)
Definition readAllBody (stopWords : list chars) (values : list Uint8Array) : chars :=
  readAll stopWords (readInner (splitStream decode values)).

End ReadInner.

Lemma indexOf_fits (s w : chars) (i : nat) :
  indexOf s w = Some i -> (i + List.length w <= List.length s)%nat.
Proof.
  intros Hidx. pose proof (indexOf_le _ _ _ Hidx) as Hle.
  apply indexOf_Some in Hidx as [Hocc _]. apply prefix_length in Hocc.
  rewrite length_drop in Hocc. lia.
Qed.

Lemma indexOf_nil (sep : chars) : sep <> [] -> indexOf [] sep = None.
Proof.
  intros Hsep. cbn [indexOf]. rewrite bool_decide_eq_false_2; [reflexivity|].
  intros Hp. apply prefix_nil_inv in Hp. contradiction.
Qed.

Lemma splitRounds_enough (sep : chars) :
  sep <> [] ->
  forall r1 r2 s,
    (List.length s <= r1)%nat -> (List.length s <= r2)%nat ->
    splitRounds r1 sep s = splitRounds r2 sep s.
Proof.
  intros Hsep. assert (Hlen : (1 <= List.length sep)%nat)
    by (destruct sep; [congruence|cbn; lia]).
  induction r1 as [|r1 IH]; intros r2 s H1 H2.
  - destruct s; [|cbn in H1; lia].
    destruct r2; cbn [splitRounds]; rewrite (indexOf_nil sep Hsep); reflexivity.
  - cbn [splitRounds]. destruct (indexOf s sep) as [i|] eqn:Hidx;
      [|destruct r2; cbn [splitRounds]; rewrite Hidx; reflexivity].
    pose proof (indexOf_fits _ _ _ Hidx) as Hfit.
    destruct r2 as [|r2]; [lia|]. cbn [splitRounds]. rewrite Hidx. f_equal.
    apply IH; rewrite length_drop; lia.
Qed.

(** [split], one separator at a time. *)
Lemma split_unfold (sep s : chars) :
  sep <> [] ->
  split sep s = match indexOf s sep with
                | Some i => take i s :: split sep (drop (i + List.length sep) s)
                | None => [s]
                end.
Proof.
  intros Hsep. unfold split. destruct (indexOf s sep) as [i|] eqn:Hidx.
  - pose proof (indexOf_fits _ _ _ Hidx) as Hfit.
    assert (Hlen : (1 <= List.length sep)%nat)
      by (destruct sep; [congruence|cbn; lia]).
    destruct (List.length s) as [|n] eqn:Hn; [lia|].
    cbn [splitRounds]. rewrite Hidx. f_equal.
    apply splitRounds_enough; [exact Hsep| |lia]. rewrite length_drop. lia.
  - destruct (List.length s); cbn [splitRounds]; rewrite Hidx; reflexivity.
Qed.

Lemma split_not_nil (sep s : chars) : sep <> [] -> split sep s <> [].
Proof.
  intros Hsep. rewrite split_unfold by exact Hsep.
  destruct (indexOf s sep); discriminate.
Qed.

(** An occurrence of the separator inside [s] is found at the same place
    in [s] followed by more text. *)
Lemma indexOf_app (s more w : chars) (i : nat) :
  indexOf s w = Some i -> indexOf (s ++ more) w = Some i.
Proof.
  intros Hidx. pose proof (indexOf_fits _ _ _ Hidx) as Hfit.
  apply indexOf_Some in Hidx as [Hocc Hmin]. apply indexOf_Some. split.
  - unfold occurs in *. rewrite drop_app_le by lia. apply prefix_app_r, Hocc.
  - intros j Hj Hoj. apply (Hmin j Hj). unfold occurs in *.
    rewrite drop_app_le in Hoj by lia.
    apply (prefix_of_app_short _ _ _ Hoj). rewrite length_drop. lia.
Qed.

(** All the parts but the last, and the last. *)
Definition front (parts : list chars) : list chars :=
  take (List.length parts - 1) parts.

Definition back (parts : list chars) : chars :=
  default [] (parts !! (List.length parts - 1)%nat).

Lemma front_cons (part : chars) (parts : list chars) :
  parts <> [] -> front (part :: parts) = part :: front parts.
Proof.
  intros Hne. unfold front. destruct parts as [|p ps]; [congruence|].
  cbn [List.length]. replace (S (S (List.length ps)) - 1)%nat
    with (S (S (List.length ps) - 1)) by lia. reflexivity.
Qed.

Lemma back_cons (part : chars) (parts : list chars) :
  parts <> [] -> back (part :: parts) = back parts.
Proof.
  intros Hne. unfold back. destruct parts as [|p ps]; [congruence|].
  cbn [List.length]. replace (S (S (List.length ps)) - 1)%nat
    with (S (S (List.length ps) - 1)) by lia. reflexivity.
Qed.

(** The text after the last separator holds no separator. *)
Lemma back_split (sep : chars) :
  sep <> [] ->
  forall n s, (List.length s <= n)%nat -> indexOf (back (split sep s)) sep = None.
Proof.
  intros Hsep. assert (Hlen : (1 <= List.length sep)%nat)
    by (destruct sep; [congruence|cbn; lia]).
  induction n as [|n IH]; intros s Hn; rewrite split_unfold by exact Hsep.
  - destruct (indexOf s sep) as [i|] eqn:Hidx; [|exact Hidx].
    pose proof (indexOf_fits _ _ _ Hidx). lia.
  - destruct (indexOf s sep) as [i|] eqn:Hidx; [|exact Hidx].
    pose proof (indexOf_fits _ _ _ Hidx) as Hfit.
    rewrite back_cons by (apply split_not_nil, Hsep).
    apply IH. rewrite length_drop. lia.
Qed.

(** Splitting a text that goes on: the parts found so far stay, but the
    last, which goes on. *)
Lemma split_app (sep : chars) :
  sep <> [] ->
  forall n s more,
    (List.length s <= n)%nat ->
    split sep (s ++ more)
    = front (split sep s) ++ split sep (back (split sep s) ++ more).
Proof.
  intros Hsep. assert (Hlen : (1 <= List.length sep)%nat)
    by (destruct sep; [congruence|cbn; lia]).
  induction n as [|n IH]; intros s more Hn.
  - destruct s; [|cbn in Hn; lia].
    rewrite (split_unfold sep []) by exact Hsep.
    rewrite (indexOf_nil sep Hsep). reflexivity.
  - rewrite (split_unfold sep s) by exact Hsep.
    destruct (indexOf s sep) as [i|] eqn:Hidx; [|reflexivity].
    pose proof (indexOf_fits _ _ _ Hidx) as Hfit.
    rewrite front_cons, back_cons by (apply split_not_nil, Hsep).
    rewrite (split_unfold sep (s ++ more)) by exact Hsep.
    rewrite (indexOf_app _ more _ _ Hidx).
    rewrite take_app_le, drop_app_le by lia. cbn [app]. f_equal.
    apply IH. rewrite length_drop. lia.
Qed.

Lemma eventSeparator_not_nil : eventSeparator <> [].
Proof. discriminate. Qed.

Lemma flushed_app (parts more : list chars) :
  more <> [] -> flushed (parts ++ more) = parts ++ flushed more.
Proof.
  intros Hne. destruct more as [|p ps]; [congruence|]. unfold flushed.
  unfold chars in *. rewrite !length_app. cbn [List.length].
  replace (List.length parts + S (List.length ps) - 1)%nat
    with (List.length parts + List.length ps)%nat by lia.
  replace (S (List.length ps) - 1)%nat with (List.length ps) by lia.
  rewrite take_app_add, <- app_assoc. do 2 f_equal.
  rewrite lookup_app_r by (unfold chars; lia).
  replace (List.length parts + List.length ps - List.length parts)%nat
    with (List.length ps) by (unfold chars; lia).
  reflexivity.
Qed.

Lemma splitStreamFrom_events (decode : Uint8Array -> chars) (values : list Uint8Array) :
  forall lastFragment,
    indexOf lastFragment eventSeparator = None ->
    splitStreamFrom decode lastFragment values
    = events (lastFragment ++ concat (decode <$> values)).
Proof.
  induction values as [|value later IH]; intros lastFragment Hnone.
  - cbn [splitStreamFrom concat fmap list_fmap]. rewrite app_nil_r. unfold events, flushed.
    rewrite split_unfold by exact eventSeparator_not_nil. rewrite Hnone. reflexivity.
  - cbn [splitStreamFrom concat fmap list_fmap]. cbv zeta. rewrite app_assoc.
    set (fragment := lastFragment ++ decode value).
    fold (front (split eventSeparator fragment)).
    fold (back (split eventSeparator fragment)).
    rewrite IH by (apply (back_split _ eventSeparator_not_nil (List.length fragment));
                   reflexivity).
    unfold events.
    rewrite (split_app _ eventSeparator_not_nil (List.length fragment) fragment)
      by reflexivity.
    rewrite flushed_app by (apply split_not_nil, eventSeparator_not_nil).
    reflexivity.
Qed.

(** X15: [splitStream] decodes every chunk on its own and yields the parts
    of the concatenation of the decoded texts between the separators (two
    line feeds), in order, but for an empty last part.  So an event that
    arrives in several chunks is yielded whole, and two streams whose
    chunks decode to the same text overall yield the same.  Two ways of
    cutting the same bytes yield the same when in both the chunks decode to
    the text of the whole, which a cut inside a character of several bytes
    need not give. *)
Theorem splitStream_yields_decoded_events
  (decode : Uint8Array -> chars) (values : list Uint8Array) :
  splitStream decode values = events (concat (decode <$> values)) /\
  (forall values',
      concat (decode <$> values') = concat (decode <$> values) ->
      splitStream decode values' = splitStream decode values) /\
  (forall values',
      concat values' = concat values ->
      concat (decode <$> values) = decode (concat values) ->
      concat (decode <$> values') = decode (concat values') ->
      splitStream decode values' = splitStream decode values).
Proof.
  assert (H : forall vs, splitStream decode vs = events (concat (decode <$> vs))).
  { intros vs. apply (splitStreamFrom_events decode vs []). reflexivity. }
  split; [apply H|]. split.
  - intros values' Heq. rewrite !H, Heq. reflexivity.
  - intros values' Hbytes Hwhole Hwhole'. rewrite !H, Hwhole, Hwhole', Hbytes.
    reflexivity.
Qed.

(** X16: [readInner] never yields an empty chunk, and what [readAll]
    returns for a response body depends on the concatenation of the texts
    its chunks decode to, each on its own: two bodies whose chunks decode to
    the same text overall give the same. *)
Theorem readAllBody_of_decoded_text
  (deltaContent : chars -> option chars) (decode : Uint8Array -> chars)
  (stopWords : list chars) (values values' : list Uint8Array) :
  ([] ∉ readInner deltaContent (splitStream decode values)) /\
  (concat (decode <$> values') = concat (decode <$> values) ->
   readAllBody deltaContent decode stopWords values'
   = readAllBody deltaContent decode stopWords values).
Proof.
  split.
  - unfold readInner. intros Hin. apply list_elem_of_bind in Hin as (data & Hin & _).
    destruct (bool_decide _); [|inversion Hin].
    destruct (deltaContent _) as [content|]; [|inversion Hin].
    destruct (decide (content <> [])) as [Hne|]; [|inversion Hin].
    apply list_elem_of_singleton in Hin. congruence.
  - intros Heq. unfold readAllBody, splitStream.
    rewrite (splitStreamFrom_events decode values' []),
      (splitStreamFrom_events decode values []) by reflexivity.
    cbn [app]. rewrite Heq. reflexivity.
Qed.

(** ** [fetchEmbeddingBatch] and [fetchEmbedding] *)

(** An element of [json.data], and what [fetchEmbeddingBatch] reads of the
    JSON of the response. *)
Record EmbeddingDatum : Type := mkDatum { index : Z; embedding : list R }.

Record CreateEmbeddingResponse : Type :=
  mkEmbeddings { data : list EmbeddingDatum; total_tokens : Z }.

(** What [fetchEmbeddingBatch] returns. *)
Record EmbeddingBatch : Type := mkBatch {
  embeddings : list (list R); usage : Z; batchRetries : nat; batchMs : Z }.

(** [array.sort(compareFn)]: the sort is stable, so it is the list that
    inserting the elements one by one, from the last to the first, each
    before the first element it need not follow, builds. *)
Fixpoint insertSorted {A : Type} (compareFn : A -> A -> Z) (a : A) (sorted : list A)
  : list A :=
  match sorted with
  | [] => [a]
  | b :: later =>
      if (compareFn a b <=? 0)%Z then a :: b :: later
      else b :: insertSorted compareFn a later
  end.

Definition sort {A : Type} (compareFn : A -> A -> Z) (l : list A) : list A :=
  fold_right (insertSorted compareFn) [] l.

(** [(a, b) => b.index - a.index]. *)
Definition byIndexDescending (a b : EmbeddingDatum) : Z := (index b - index a)%Z.

(** What [fetchEmbeddingBatch] does with the JSON [retryWithBackoff]
    returned. *)
Definition embeddingBatch (texts : list string) (json : CreateEmbeddingResponse)
           (retries : nat) (ms : Z) : result EmbeddingBatch :=
  if decide (List.length (data json) <> List.length texts)
  then Throw "Unexpected number of embeddings"
  else
    let allembeddings := sort byIndexDescending (data json) in
    Ok {| embeddings := embedding <$> allembeddings;
          usage := total_tokens json;
          batchRetries := retries;
          batchMs := ms |}.

(** What [fetch] resolved to, as far as [fetchEmbeddingBatch] looks at
    it. *)
Record EmbeddingReply : Type :=
  mkEmbeddingReply { replyStatus : Z; replyText : string; replyJson : CreateEmbeddingResponse }.

(** The callback [fetchEmbeddingBatch] hands to [retryWithBackoff]. *)
Definition embeddingAttempt (r : EmbeddingReply)
  : CreateEmbeddingResponse + Thrown ChatError :=
  if negb ((200 <=? replyStatus r)%Z && (replyStatus r <=? 299)%Z) then
    inr (RetryError ((replyStatus r =? 429)%Z || (500 <=? replyStatus r)%Z)
                    (Some (FailedWithCode (replyStatus r) (replyText r))))
  else inl (replyJson r).

(** How a call of [fetchEmbeddingBatch] or [fetchEmbedding] ends. *)
Inductive Fetched (A : Type) : Type :=
| Fetched_ok (a : A)
| Fetched_threw (e : Thrown ChatError)
| Fetched_error (message : string).
Arguments Fetched_ok {A} a.
Arguments Fetched_threw {A} e.
Arguments Fetched_error {A} message.

(** The test of [checkForAPIKey], [!process.env.OPENAI_API_KEY]: the
    variable is not set, or is the empty string. *)
Definition missingAPIKey (key : option string) : bool :=
  match key with
  | None => true
  | Some EmptyString => true
  | Some _ => false
  end.

Section FetchEmbedding.

Context {W : Type}.

(** [process.env.OPENAI_API_KEY]. *)
Variable apiKey : option string.

(** [fetch] on the embeddings endpoint, for the request made of the texts
    (their line feeds replaced by spaces), [Date.now()] and the wait. *)
Variable fetchEmbeddings : list string -> W -> EmbeddingReply * W.
Variable dateNow : W -> Z.
Variable wait : Z -> W -> W.

Definition fetchEmbeddingBatch (texts : list string) (w : W)
  : Fetched EmbeddingBatch * W :=
  if missingAPIKey apiKey
  then (Fetched_error "Missing OPENAI_API_KEY in environment variables.", w)
  else
    let '(_, ending, w') :=
      retryWithBackoff
        (fun w => let '(r, w') := fetchEmbeddings texts w in (embeddingAttempt r, w'))
        dateNow wait w in
    match ending with
    | Returned json retries ms =>
        match embeddingBatch texts json retries ms with
        | Ok batch => (Fetched_ok batch, w')
        | Throw message => (Fetched_error message, w')
        end
    | Threw e => (Fetched_threw e, w')
    | Unreachable => (Fetched_error "Unreachable", w')
    end.

(** [fetchEmbedding]: [embeddings[0]] of the batch of the one text
    ([None] is [undefined]), with the statistics. *)
Definition fetchEmbedding (text : string) (w : W)
  : Fetched (option (list R) * Z * nat * Z) * W :=
  match fetchEmbeddingBatch [text] w with
  | (Fetched_ok batch, w') =>
      (Fetched_ok (embeddings batch !! 0%nat, usage batch, batchRetries batch, batchMs batch), w')
  | (Fetched_threw e, w') => (Fetched_threw e, w')
  | (Fetched_error message, w') => (Fetched_error message, w')
  end.

End FetchEmbedding.

Lemma insertSorted_perm {A : Type} (compareFn : A -> A -> Z) (a : A) (sorted : list A) :
  insertSorted compareFn a sorted ≡ₚ a :: sorted.
Proof.
  induction sorted as [|b later IH]; cbn [insertSorted]; [reflexivity|].
  destruct (compareFn a b <=? 0)%Z; [reflexivity|].
  rewrite IH. apply Permutation_swap.
Qed.

Lemma sort_perm {A : Type} (compareFn : A -> A -> Z) (l : list A) :
  sort compareFn l ≡ₚ l.
Proof.
  induction l as [|a l IH]; [reflexivity|].
  cbn [sort fold_right]. fold (sort compareFn l).
  rewrite insertSorted_perm, IH. reflexivity.
Qed.

(** The order [byIndexDescending] sorts into. *)
Definition indexNotBelow (a b : EmbeddingDatum) : Prop := (index b <= index a)%Z.

Lemma insertSorted_sorted (a : EmbeddingDatum) (sorted : list EmbeddingDatum) :
  StronglySorted indexNotBelow sorted ->
  StronglySorted indexNotBelow (insertSorted byIndexDescending a sorted).
Proof.
  induction 1 as [|b later Hs IH Hall]; cbn [insertSorted].
  - constructor; constructor.
  - unfold byIndexDescending at 1.
    destruct (Z.leb_spec (index b - index a) 0) as [Hle|Hgt].
    + constructor; [constructor; assumption|].
      constructor; [unfold indexNotBelow; lia|].
      eapply Forall_impl; [exact Hall|]. intros c Hc. unfold indexNotBelow in *. lia.
    + constructor; [exact IH|].
      rewrite insertSorted_perm. constructor; [unfold indexNotBelow; lia|exact Hall].
Qed.

Lemma sort_sorted (l : list EmbeddingDatum) :
  StronglySorted indexNotBelow (sort byIndexDescending l).
Proof.
  induction l as [|a l IH]; [constructor|].
  cbn [sort fold_right]. apply insertSorted_sorted, IH.
Qed.

Lemma sorted_indices (l : list EmbeddingDatum) :
  StronglySorted indexNotBelow l ->
  StronglySorted (fun a b => (b <= a)%Z) (index <$> l).
Proof.
  induction 1 as [|a l Hs IH Hall]; [constructor|].
  cbn [fmap list_fmap]. constructor; [exact IH|].
  apply Forall_fmap. exact Hall.
Qed.

(** The indices [n - 1, ..., 1, 0]. *)
Definition countdown (n : nat) : list Z := Z.of_nat <$> rev (seq 0 n).

Lemma countdown_S (n : nat) : countdown (S n) = Z.of_nat n :: countdown n.
Proof. unfold countdown. rewrite seq_S, rev_app_distr. reflexivity. Qed.

Lemma countdown_bound (n : nat) : Forall (fun i => (i < Z.of_nat n)%Z) (countdown n).
Proof.
  induction n as [|n IH]; [constructor|]. rewrite countdown_S.
  constructor; [lia|]. eapply Forall_impl; [exact IH|]. intros i Hi. cbn in Hi. lia.
Qed.

Lemma countdown_sorted (n : nat) : StronglySorted (fun a b => (b <= a)%Z) (countdown n).
Proof.
  induction n as [|n IH]; [constructor|]. rewrite countdown_S.
  constructor; [exact IH|].
  eapply Forall_impl; [apply countdown_bound|]. intros i Hi. cbn in Hi. lia.
Qed.

Lemma countdown_lookup (n k : nat) :
  (k < n)%nat -> countdown n !! k = Some (Z.of_nat (n - 1 - k)).
Proof.
  revert k. induction n as [|n IH]; intros k Hk; [lia|]. rewrite countdown_S.
  destruct k as [|k]; cbn.
  - do 2 f_equal. lia.
  - rewrite IH by lia. do 2 f_equal. lia.
Qed.

Lemma countdown_perm (n : nat) : countdown n ≡ₚ Z.of_nat <$> seq 0 n.
Proof. unfold countdown. apply fmap_Permutation. symmetry. apply Permutation_rev. Qed.

(** X17: [fetchEmbeddingBatch] throws when the response does not hold one
    embedding per text; otherwise the embeddings it returns are those of the
    response, each once, ordered by decreasing [index]
    ([(a, b) => b.index - a.index]).  So when the response numbers its
    embeddings 0 to [n - 1] after the texts they belong to, the embedding
    returned at position [k] is the one of the text [n - 1 - k]: the
    embeddings come back in the reverse order of the texts. *)
Theorem embeddingBatch_descending
  (texts : list string) (json : CreateEmbeddingResponse) (retries : nat) (ms : Z) :
  (List.length (data json) <> List.length texts ->
   embeddingBatch texts json retries ms = Throw "Unexpected number of embeddings") /\
  (List.length (data json) = List.length texts ->
   exists allembeddings,
     embeddingBatch texts json retries ms
     = Ok {| embeddings := embedding <$> allembeddings; usage := total_tokens json;
             batchRetries := retries; batchMs := ms |} /\
     allembeddings ≡ₚ data json /\
     StronglySorted (fun a b => (index b <= index a)%Z) allembeddings /\
     (index <$> data json ≡ₚ Z.of_nat <$> seq 0 (List.length texts) ->
      forall k d,
        allembeddings !! k = Some d ->
        index d = Z.of_nat (List.length texts - 1 - k))).
Proof.
  unfold embeddingBatch. split.
  - intros Hne. rewrite decide_True by exact Hne. reflexivity.
  - intros Heq. rewrite decide_False by (intros Hne; contradiction).
    exists (sort byIndexDescending (data json)).
    split; [reflexivity|]. split; [apply sort_perm|]. split; [apply sort_sorted|].
    intros Hnumbered k d Hk.
    assert (Hlist : index <$> sort byIndexDescending (data json)
                    = countdown (List.length texts)).
    { assert (Hanti : AntiSymm eq (fun a b : Z => (b <= a)%Z))
        by (intros a b Hab Hba; lia).
      apply (@StronglySorted_unique _ (fun a b => (b <= a)%Z) Hanti).
      - apply sorted_indices, sort_sorted.
      - apply countdown_sorted.
      - rewrite countdown_perm, <- Hnumbered. apply fmap_Permutation, sort_perm. }
    assert (Hkn : (k < List.length texts)%nat).
    { apply lookup_lt_Some in Hk.
      rewrite (Permutation_length (sort_perm _ _)) in Hk. lia. }
    apply (f_equal (fun l => l !! k)) in Hlist.
    rewrite list_lookup_fmap, Hk, countdown_lookup in Hlist by exact Hkn.
    cbn in Hlist. inversion Hlist. reflexivity.
Qed.

Example embeddings_come_back_reversed :
  embeddingBatch ["first"; "second"; "third"]
    {| data := [ {| index := 0; embedding := [1%R] |};
                 {| index := 1; embedding := [2%R] |};
                 {| index := 2; embedding := [3%R] |} ];
       total_tokens := 9 |} 0 5
  = Ok {| embeddings := [[3%R]; [2%R]; [1%R]]; usage := 9; batchRetries := 0; batchMs := 5 |}.
Proof. reflexivity. Qed.

Lemma embeddingBatch_descending_witness :
  exists allembeddings,
    embeddingBatch ["first"; "second"]
      {| data := [ {| index := 0; embedding := [1%R] |};
                   {| index := 1; embedding := [2%R] |} ];
         total_tokens := 9 |} 0 5
    = Ok {| embeddings := embedding <$> allembeddings; usage := 9;
            batchRetries := 0; batchMs := 5 |} /\
    forall k d, allembeddings !! k = Some d -> index d = Z.of_nat (2 - 1 - k).
Proof.
  destruct (embeddingBatch_descending ["first"; "second"]
              {| data := [ {| index := 0; embedding := [1%R] |};
                           {| index := 1; embedding := [2%R] |} ];
                 total_tokens := 9 |} 0 5) as [_ H].
  destruct H as (allembeddings & Hrun & _ & _ & Horder); [reflexivity|].
  exists allembeddings. split; [exact Hrun|]. apply Horder. reflexivity.
Defined.

(** X18: without an API key [fetchEmbedding] throws before any request is
    made.  Otherwise it asks for the batch of its one text.  When the
    request succeeds (after retries or not) and the response holds exactly
    one embedding, it returns that embedding, whatever its [index], with the
    usage, the number of retries and the duration of the last call; when
    the response holds no embedding or several, it throws; when the request
    fails for good, the error of [retryWithBackoff] propagates; and the
    [Unreachable] error is never thrown. *)
Theorem fetchEmbedding_single
  {W : Type} (apiKey : option string)
  (fetchEmbeddings : list string -> W -> EmbeddingReply * W)
  (dateNow : W -> Z) (wait : Z -> W -> W) (text : string) (w : W) :
  let attempt :=
    fun w => let '(r, w') := fetchEmbeddings [text] w in (embeddingAttempt r, w') in
  if missingAPIKey apiKey then
    fetchEmbedding apiKey fetchEmbeddings dateNow wait text w
    = (Fetched_error "Missing OPENAI_API_KEY in environment variables.", w)
  else
    let '(_, ending, w') := retryWithBackoff attempt dateNow wait w in
    match ending with
    | Returned json retries ms =>
        match data json with
        | [d] =>
            fetchEmbedding apiKey fetchEmbeddings dateNow wait text w
            = (Fetched_ok (Some (embedding d), total_tokens json, retries, ms), w')
        | _ =>
            fetchEmbedding apiKey fetchEmbeddings dateNow wait text w
            = (Fetched_error "Unexpected number of embeddings", w')
        end
    | Threw e =>
        fetchEmbedding apiKey fetchEmbeddings dateNow wait text w = (Fetched_threw e, w')
    | Unreachable => False
    end.
Proof.
  cbv zeta. unfold fetchEmbedding, fetchEmbeddingBatch.
  destruct (missingAPIKey apiKey); [reflexivity|].
  pose proof (retryWithBackoff_spec
                (fun w => let '(r, w') := fetchEmbeddings [text] w in (embeddingAttempt r, w'))
                dateNow wait w) as Hspec.
  destruct (retryWithBackoff _ dateNow wait w) as [[events ending] w'].
  destruct ending as [json retries ms|e|].
  - unfold embeddingBatch. destruct (data json) as [|d [|d' more]] eqn:Hdata.
    + rewrite decide_True by (cbn; lia). reflexivity.
    + rewrite decide_False by (cbn; lia). reflexivity.
    + rewrite decide_True by (cbn; lia). reflexivity.
  - reflexivity.
  - destruct Hspec as (_ & _ & _ & _ & Hend). exact Hend.
Qed.

End OpenAI.

(* ===================================================================== *)
(** * convex/engine/gameTable.ts (in src/convex/crons.ts): [GameTable] *)
(* ===================================================================== *)

Module GameTable.

(** ** Objects

    Rows are JavaScript objects: the cache, the handles [lookup] returns and
    the nested objects of a row all refer to them, so they live in a store
    of their own, each under its identity. *)

Definition loc : Type := positive.

Inductive val : Type :=
| Num (n : R)
| Str (s : string)
| Bool (b : bool)
| Null
| Undefined
| Ref (l : loc).

(** An object: its own properties. *)
Definition obj : Type := gmap string val.

(** A write the proxy of [lookup] traps: [set], [deleteProperty] and
    [defineProperty] (of a data property). *)
Inductive Mutation : Type :=
| SetProperty (prop : string) (value : val)
| DeleteProperty (prop : string)
| DefineProperty (key : string) (value : val).

(** [Reflect.set], [Reflect.deleteProperty] and [Reflect.defineProperty] on
    a plain object: they succeed. *)
Definition reflect (m : Mutation) (o : obj) : obj :=
  match m with
  | SetProperty prop value => <[prop := value]> o
  | DeleteProperty prop => delete prop o
  | DefineProperty key value => <[key := value]> o
  end.

Section Table.

(** [Id<T>]. *)
Context {Id : Type} `{Countable Id}.

(** [isActive(doc)], from the properties of the row. *)
Variable isActive : obj -> bool.

(** A call on [this.db]. *)
Inductive DbCall : Type :=
| DbInsert (row : obj)
| DbGet (id : Id)
| DbDelete (id : Id)
| DbReplace (id : Id) (row : obj).

(** The table: the objects, [data], [modified] and [deleted], and what it
    did to the outside so far, the calls on the store and the warnings on
    the console.  (The calls of one [save] are listed in the order of
    [elements]; nothing below depends on their order.) *)
Record GameTable : Type := mkTable {
  objects : gmap loc obj;
  data : gmap Id loc;
  modified : gset Id;
  deleted : gset Id;
  dbCalls : list DbCall;
  console : list string }.

(** The proxy [lookup] returns, and the proxies its [get] trap returns for
    nested objects: the id they mark, and the object they wrap. *)
Record Handle : Type := mkHandle { handleId : Id; target : loc }.

(** The object at [l] ([{}] if there is none). *)
Definition objectAt (t : GameTable) (l : loc) : obj := default ∅ (objects t !! l).

(** [this.data.get(id)]. *)
Definition row (t : GameTable) (id : Id) : option obj :=
  objectAt t <$> data t !! id.

(** [new GameTable(rows)], the rows being the objects at [rows] of the
    store [objects0]. *)
Definition construct (objects0 : gmap loc obj) (rows : list (Id * loc)) : GameTable :=
  {| objects := objects0;
     data := fold_left (fun d r => <[r.1 := r.2]> d) rows ∅;
     modified := ∅; deleted := ∅; dbCalls := []; console := [] |}.

(** [insert(row)]: the store answers with the id [id] and the document
    [withSystemFields], a fresh object at [l]. *)
Definition insert (r : obj) (id : Id) (withSystemFields : option obj) (l : loc)
           (t : GameTable) : GameTable * result Id :=
  let called := dbCalls t ++ [DbInsert r; DbGet id] in
  match withSystemFields with
  | None =>
      ({| objects := objects t; data := data t; modified := modified t;
          deleted := deleted t; dbCalls := called; console := console t |},
       Throw "Failed to db.get() inserted row")
  | Some doc =>
      ({| objects := <[l := doc]> (objects t); data := <[id := l]> (data t);
          modified := modified t; deleted := deleted t;
          dbCalls := called; console := console t |},
       Ok id)
  end.

(** [delete(id)]. *)
Definition delete (id : Id) (t : GameTable) : GameTable :=
  if bool_decide (is_Some (data t !! id)) then
    {| objects := objects t; data := base.delete id (data t);
       modified := modified t; deleted := deleted t ∪ {[ id ]};
       dbCalls := dbCalls t; console := console t |}
  else t.

(** [markModified(id)]. *)
Definition markModified (id : Id) (t : GameTable) : GameTable :=
  match row t id with
  | None =>
      {| objects := objects t; data := data t; modified := modified t;
         deleted := deleted t; dbCalls := dbCalls t;
         console := console t ++ ["Modifying deleted id"] |}
  | Some doc =>
      if isActive doc then
        {| objects := objects t; data := data t; modified := modified t ∪ {[ id ]};
           deleted := deleted t; dbCalls := dbCalls t; console := console t |}
      else
        {| objects := objects t; data := data t; modified := modified t;
           deleted := deleted t; dbCalls := dbCalls t;
           console := console t ++ ["Modifying inactive id"] |}
  end.

(** [lookup(id)]. *)
Definition lookup (id : Id) (t : GameTable) : result Handle :=
  match data t !! id with
  | None => Throw "Invalid ID"
  | Some l =>
      if isActive (objectAt t l) then Ok {| handleId := id; target := l |}
      else Throw "ID is inactive"
  end.

(** The traps [set], [deleteProperty] and [defineProperty] of a handle:
    [this.markModified(id)], then the write on the target. *)
Definition mutate (h : Handle) (m : Mutation) (t : GameTable) : GameTable :=
  let t := markModified (handleId h) t in
  {| objects := <[target h := reflect m (objectAt t (target h))]> (objects t);
     data := data t; modified := modified t; deleted := deleted t;
     dbCalls := dbCalls t; console := console t |}.

(** The trap [get] of a handle: a nested object comes back wrapped in a
    handle with the same handlers ([typeof null] is ['object'] too, and
    [new Proxy(null, ...)] throws). *)
Definition get (h : Handle) (prop : string) (t : GameTable) : result (val + Handle) :=
  match objectAt t (target h) !! prop with
  | Some (Ref l) => Ok (inr {| handleId := handleId h; target := l |})
  | Some Null => Throw "TypeError: Cannot create proxy with a non-object as target or handler"
  | Some value => Ok (inl value)
  | None => Ok (inl Undefined)
  end.

(** [allIds()]. *)
Definition allIds (t : GameTable) : list Id :=
  List.filter
    (fun id => match row t id with Some doc => isActive doc | None => false end)
    (map_to_list (data t)).*1.

(** The loop of [save] over [this.modified]: the calls made, and the id
    without a row at which it threw, if any. *)
Fixpoint replaceAll (t : GameTable) (ids : list Id) : list DbCall * option Id :=
  match ids with
  | [] => ([], None)
  | id :: later =>
      match row t id with
      | None => ([], Some id)
      | Some doc =>
          let '(called, thrown) := replaceAll t later in
          (DbReplace id doc :: called, thrown)
      end
  end.

(** The calls [save()] makes on the store: a delete for every id of
    [this.deleted], then the replaces. *)
Definition saveCalls (t : GameTable) : list DbCall :=
  (DbDelete <$> elements (deleted t)) ++ (replaceAll t (elements (modified t))).1.

(** [save()]. *)
Definition save (t : GameTable) : GameTable * result unit :=
  match (replaceAll t (elements (modified t))).2 with
  | Some id =>
      ({| objects := objects t; data := data t; modified := modified t;
          deleted := deleted t; dbCalls := dbCalls t ++ saveCalls t;
          console := console t |},
       Throw "Invalid modified id")
  | None =>
      ({| objects := objects t; data := data t; modified := ∅; deleted := ∅;
          dbCalls := dbCalls t ++ saveCalls t; console := console t |},
       Ok tt)
  end.

(** What a transaction does with a table. *)
Inductive Op : Type :=
| OpInsert (r : obj) (id : Id) (withSystemFields : option obj) (l : loc)
| OpDelete (id : Id)
| OpMutate (h : Handle) (m : Mutation)
| OpSave.

Definition step (t : GameTable) (op : Op) : GameTable :=
  match op with
  | OpInsert r id doc l => (insert r id doc l t).1
  | OpDelete id => delete id t
  | OpMutate h m => mutate h m t
  | OpSave => (save t).1
  end.

Definition run (ops : list Op) (t : GameTable) : GameTable := fold_left step ops t.

(** [id] was in the cache when one of the [delete(id)] of [ops] ran. *)
Definition deletedWhilePresent (ops : list Op) (t0 : GameTable) (id : Id) : Prop :=
  exists before after,
    ops = before ++ OpDelete id :: after /\ is_Some (data (run before t0) !! id).

(** ** Verification of [delete] and [save] *)

Lemma replaceAll_no_delete (t : GameTable) (ids : list Id) (id : Id) :
  DbDelete id ∉ (replaceAll t ids).1.
Proof.
  induction ids as [|i ids IH]; cbn [replaceAll]; [apply not_elem_of_nil|].
  destruct (row t i); [|apply not_elem_of_nil].
  destruct (replaceAll t ids) as [called thrown]. cbn in *.
  rewrite not_elem_of_cons. split; [discriminate|exact IH].
Qed.

Lemma saveCalls_delete (t : GameTable) (id : Id) :
  DbDelete id ∈ saveCalls t <-> id ∈ deleted t.
Proof.
  unfold saveCalls. rewrite elem_of_app, list_elem_of_fmap. split.
  - intros [(i & Hi & Hin)|Hr].
    + inversion Hi; subst. apply elem_of_elements, Hin.
    + exfalso. eapply replaceAll_no_delete, Hr.
  - intros Hin. left. exists id. split; [reflexivity|apply elem_of_elements, Hin].
Qed.

Lemma save_dbCalls (t : GameTable) : dbCalls (save t).1 = dbCalls t ++ saveCalls t.
Proof. unfold save. destruct (replaceAll _ _).2; reflexivity. Qed.

Lemma save_deleted (t : GameTable) (id : Id) :
  id ∈ deleted (save t).1 -> id ∈ deleted t.
Proof.
  unfold save. destruct (replaceAll _ _).2; cbn; [auto|]. set_solver.
Qed.

Lemma deletedWhilePresent_snoc (ops : list Op) (op : Op) (t0 : GameTable) (id : Id) :
  deletedWhilePresent ops t0 id -> deletedWhilePresent (ops ++ [op]) t0 id.
Proof.
  intros (before & after & -> & Hin). exists before, (after ++ [op]).
  split; [|exact Hin]. rewrite <- app_assoc. reflexivity.
Qed.

Lemma run_snoc (ops : list Op) (op : Op) (t : GameTable) :
  run (ops ++ [op]) t = step (run ops t) op.
Proof. unfold run. rewrite fold_left_app. reflexivity. Qed.

(** Every id marked deleted, and every id a store delete was issued for,
    was in the cache when its [delete] ran. *)
Lemma run_deleted_present (t0 : GameTable) :
  deleted t0 = ∅ -> (forall id, DbDelete id ∉ dbCalls t0) ->
  forall ops id,
    (id ∈ deleted (run ops t0) \/ DbDelete id ∈ dbCalls (run ops t0)) ->
    deletedWhilePresent ops t0 id.
Proof.
  intros Hd0 Hc0 ops. induction ops as [|op ops IH] using rev_ind; intros id Hid.
  - cbn in Hid. destruct Hid as [Hid|Hid].
    + rewrite Hd0 in Hid. set_solver.
    + exfalso. eapply Hc0, Hid.
  - rewrite run_snoc in Hid.
    destruct op as [r i doc l|i|h m|]; cbn [step] in Hid.
    + apply deletedWhilePresent_snoc, IH.
      unfold insert in Hid. destruct doc; cbn in Hid;
        (destruct Hid as [Hid|Hid]; [left; exact Hid|right]);
        rewrite elem_of_app in Hid; destruct Hid as [Hid|Hid]; try exact Hid;
        repeat (apply elem_of_cons in Hid as [Hid|Hid]; [discriminate|]);
        exfalso; eapply not_elem_of_nil, Hid.
    + unfold delete in Hid. case_bool_decide as Hpresent.
      * cbn in Hid. destruct Hid as [Hid|Hid].
        -- apply elem_of_union in Hid as [Hid|Hid].
           ++ apply deletedWhilePresent_snoc, IH. left. exact Hid.
           ++ apply elem_of_singleton in Hid. subst i.
              exists ops, []. split; [reflexivity|exact Hpresent].
        -- apply deletedWhilePresent_snoc, IH. right. exact Hid.
      * apply deletedWhilePresent_snoc, IH. exact Hid.
    + apply deletedWhilePresent_snoc, IH.
      unfold mutate, markModified in Hid.
      destruct (row (run ops t0) (handleId h)) as [d|];
        [destruct (isActive d)|]; cbn in Hid; exact Hid.
    + apply deletedWhilePresent_snoc, IH.
      destruct Hid as [Hid|Hid].
      * left. apply save_deleted, Hid.
      * rewrite save_dbCalls, elem_of_app in Hid. destruct Hid as [Hid|Hid].
        -- right. exact Hid.
        -- left. apply saveCalls_delete, Hid.
Qed.

(** C10: [delete(id)] of an id that is not in the cache returns the table
    as it was; the id is not added to [deleted], and unless an earlier
    [delete] had put it there, the following [save()] issues no store delete
    for it; and whatever a transaction does with a table from its
    construction on, every store delete ever issued is for an id that was in
    the cache when its [delete] ran. *)
Theorem delete_absent_unchanged :
  (forall (t : GameTable) (id : Id),
      data t !! id = None ->
      delete id t = t /\
      (id ∉ deleted t ->
       (id ∉ deleted (delete id t)) /\
       (DbDelete id ∉ saveCalls (delete id t)) /\
       (DbDelete id ∉ drop (List.length (dbCalls t)) (dbCalls (save (delete id t)).1)))) /\
  (forall (objects0 : gmap loc obj) (rows : list (Id * loc)) (ops : list Op) (id : Id),
      DbDelete id ∈ dbCalls (run ops (construct objects0 rows)) ->
      deletedWhilePresent ops (construct objects0 rows) id).
Proof.
  split.
  - intros t id Habsent.
    assert (Hsame : delete id t = t).
    { unfold delete. rewrite Habsent.
      rewrite bool_decide_eq_false_2 by (intros [? ?]; discriminate). reflexivity. }
    split; [exact Hsame|]. rewrite Hsame. intros Hnew.
    split; [exact Hnew|].
    assert (Hcalls : DbDelete id ∉ saveCalls t).
    { intros Hin. apply Hnew, saveCalls_delete, Hin. }
    split; [exact Hcalls|].
    rewrite save_dbCalls, drop_app_length. exact Hcalls.
  - intros objects0 rows ops id Hin.
    apply run_deleted_present; [reflexivity| |right; exact Hin].
    intros i. cbn. apply not_elem_of_nil.
Qed.

(** ** Verification of [lookup] *)

Lemma markModified_modified (id : Id) (t : GameTable) :
  modified (markModified id t)
  = match row t id with
    | Some doc => if isActive doc then modified t ∪ {[ id ]} else modified t
    | None => modified t
    end.
Proof.
  unfold markModified. destruct (row t id) as [doc|]; [destruct (isActive doc)|];
    reflexivity.
Qed.

Lemma mutate_keeps_modified (h : Handle) (m : Mutation) (t : GameTable) :
  modified t ⊆ modified (mutate h m t).
Proof.
  unfold mutate. cbn [modified]. rewrite markModified_modified.
  destruct (row t (handleId h)) as [doc|]; [destruct (isActive doc)|]; set_solver.
Qed.

Lemma markModified_objects (id : Id) (t : GameTable) (l : loc) :
  objectAt (markModified id t) l = objectAt t l.
Proof.
  unfold markModified, objectAt.
  destruct (row t id) as [doc|]; [destruct (isActive doc)|]; reflexivity.
Qed.

(** A run of writes through handles. *)
Definition writes (ws : list (Handle * Mutation)) (t : GameTable) : GameTable :=
  fold_left (fun t w => mutate w.1 w.2 t) ws t.

Lemma writes_keep_modified (ws : list (Handle * Mutation)) :
  forall t, modified t ⊆ modified (writes ws t).
Proof.
  induction ws as [|w ws IH]; intros t; [reflexivity|].
  cbn [writes fold_left]. etrans; [apply mutate_keeps_modified|apply IH].
Qed.

(** C9, as the code has it: [lookup(id)] throws when the id is not in the
    cache or its document is inactive.  A handle it returns carries the id,
    and so does every handle [get] returns for a nested object.  Every write
    through such a handle takes place on its target, after
    [markModified(id)]: this adds the id to [modified] when, at that moment,
    the id is in the cache and its document is active, and otherwise logs a
    warning and leaves [modified] as it was.  So after writes through the
    handle that follow the lookup directly, the id is in [modified]. *)
Theorem lookup_write_observing (t : GameTable) (id : Id) :
  (data t !! id = None -> lookup id t = Throw "Invalid ID") /\
  (forall doc, row t id = Some doc -> isActive doc = false ->
               lookup id t = Throw "ID is inactive") /\
  (forall h, lookup id t = Ok h ->
     handleId h = id /\
     (exists doc, row t id = Some doc /\ isActive doc = true) /\
     (forall t' h' prop nested,
         handleId h' = id -> get h' prop t' = Ok (inr nested) -> handleId nested = id) /\
     (forall t' h' m,
         handleId h' = id ->
         objects (mutate h' m t') !! target h'
         = Some (reflect m (objectAt t' (target h'))) /\
         match row t' id with
         | Some doc =>
             if isActive doc
             then modified (mutate h' m t') = modified t' ∪ {[ id ]} /\
                  console (mutate h' m t') = console t'
             else modified (mutate h' m t') = modified t' /\
                  console (mutate h' m t') = console t' ++ ["Modifying inactive id"]
         | None =>
             modified (mutate h' m t') = modified t' /\
             console (mutate h' m t') = console t' ++ ["Modifying deleted id"]
         end) /\
     (forall ws,
         ws <> [] -> Forall (fun w => handleId w.1 = id) ws ->
         id ∈ modified (writes ws t))).
Proof.
  split; [|split].
  - intros Habsent. unfold lookup. rewrite Habsent. reflexivity.
  - intros doc Hrow Hinactive. unfold lookup, row in *.
    destruct (data t !! id) as [l|]; [|discriminate].
    cbn in Hrow. inversion Hrow; subst. rewrite Hinactive. reflexivity.
  - intros h Hlookup. unfold lookup in Hlookup.
    destruct (data t !! id) as [l|] eqn:Hdata; [|discriminate].
    destruct (isActive (objectAt t l)) eqn:Hactive; [|discriminate].
    inversion Hlookup; subst h. cbn [handleId].
    assert (Hrow : row t id = Some (objectAt t l)).
    { unfold row. rewrite Hdata. reflexivity. }
    split; [reflexivity|]. split; [eauto|]. split; [|split].
    + intros t' h' prop nested Hid Hget. unfold get in Hget.
      destruct (objectAt t' (target h') !! prop) as [[| | | | |l']|];
        inversion Hget; subst; reflexivity.
    + intros t' h' m Hid. split.
      * unfold mutate. cbn [objects]. rewrite lookup_insert_eq.
        rewrite markModified_objects. reflexivity.
      * unfold mutate. cbn [modified console]. rewrite Hid.
        unfold markModified.
        destruct (row t' id) as [doc|]; [destruct (isActive doc)|];
          split; reflexivity.
    + intros ws Hne Hall. destruct ws as [|[h' m] ws]; [congruence|].
      apply Forall_cons in Hall as [Hid _]. cbn in Hid.
      cbn [writes fold_left]. apply (writes_keep_modified ws).
      unfold mutate. cbn [modified]. rewrite markModified_modified.
      cbn [fst]. rewrite Hid, Hrow, Hactive. set_solver.
Qed.

(** ** [allIds], [allDocuments], [filter] and [find] *)

(** [allDocuments()]: [this.allIds().map((id) => this.lookup(id))]. *)
Fixpoint lookupAll (t : GameTable) (ids : list Id) : result (list Handle) :=
  match ids with
  | [] => Ok []
  | id :: later =>
      match lookup id t with
      | Throw message => Throw message
      | Ok doc =>
          match lookupAll t later with
          | Throw message => Throw message
          | Ok docs => Ok (doc :: docs)
          end
      end
  end.

Definition allDocuments (t : GameTable) : result (list Handle) :=
  lookupAll t (allIds t).

(** The loop of [filter(f)] over [this.allIds()], for a callback [f] that
    reads the document it is given. *)
Fixpoint filterFrom (f : obj -> bool) (t : GameTable) (ids : list Id) (out : list Handle)
  : result (list Handle) :=
  match ids with
  | [] => Ok out
  | id :: later =>
      match lookup id t with
      | Throw message => Throw message
      | Ok doc =>
          filterFrom f t later (if f (objectAt t (target doc)) then out ++ [doc] else out)
      end
  end.

Definition filter (f : obj -> bool) (t : GameTable) : result (list Handle) :=
  filterFrom f t (allIds t) [].

(** The loop of [find(f)]: [Ok None] is [null]. *)
Fixpoint findFrom (f : obj -> bool) (t : GameTable) (ids : list Id) : result (option Handle) :=
  match ids with
  | [] => Ok None
  | id :: later =>
      match lookup id t with
      | Throw message => Throw message
      | Ok doc => if f (objectAt t (target doc)) then Ok (Some doc) else findFrom f t later
      end
  end.

Definition find (f : obj -> bool) (t : GameTable) : result (option Handle) :=
  findFrom f t (allIds t).

Lemma lookup_Ok (id : Id) (t : GameTable) (h : Handle) :
  lookup id t = Ok h <->
  exists l, data t !! id = Some l /\ isActive (objectAt t l) = true /\
            h = {| handleId := id; target := l |}.
Proof.
  unfold lookup. destruct (data t !! id) as [l|].
  - destruct (isActive (objectAt t l)) eqn:Hactive; split.
    + intros Heq. inversion Heq. eauto.
    + intros (l' & Hl & _ & ->). inversion Hl. reflexivity.
    + discriminate.
    + intros (l' & Hl & Ha & _). inversion Hl; subst. congruence.
  - split; [discriminate|]. intros (l & Hl & _). discriminate.
Qed.

Lemma allIds_lookup (t : GameTable) (id : Id) :
  id ∈ allIds t <-> exists h, lookup id t = Ok h.
Proof.
  unfold allIds. rewrite list_elem_of_In, filter_In, <- list_elem_of_In.
  rewrite list_elem_of_fmap. split.
  - intros [([id' l] & -> & Hin) Hactive]. cbn in *.
    apply elem_of_map_to_list in Hin. unfold row in Hactive. rewrite Hin in Hactive.
    cbn in Hactive. eexists. apply lookup_Ok. eauto.
  - intros [h Hh]. apply lookup_Ok in Hh as (l & Hl & Hactive & _). split.
    + exists (id, l). split; [reflexivity|]. apply elem_of_map_to_list, Hl.
    + unfold row. rewrite Hl. exact Hactive.
Qed.

Lemma lookupAll_Ok (t : GameTable) (ids : list Id) :
  (forall id, id ∈ ids -> exists h, lookup id t = Ok h) ->
  exists docs, lookupAll t ids = Ok docs /\ handleId <$> docs = ids /\
               Forall (fun doc => lookup (handleId doc) t = Ok doc) docs.
Proof.
  induction ids as [|id later IH]; intros Hall.
  - exists []. repeat split. constructor.
  - destruct (Hall id) as [h Hh]; [apply elem_of_cons; left; reflexivity|].
    destruct IH as (docs & Hdocs & Hids & Hok).
    { intros i Hi. apply Hall. apply elem_of_cons. right. exact Hi. }
    exists (h :: docs). cbn [lookupAll]. rewrite Hh, Hdocs.
    assert (Hid : handleId h = id).
    { apply lookup_Ok in Hh as (l & _ & _ & ->). reflexivity. }
    split; [reflexivity|]. split; [cbn; rewrite Hid, Hids; reflexivity|].
    constructor; [rewrite Hid; exact Hh|exact Hok].
Qed.

Lemma filterFrom_spec (f : obj -> bool) (t : GameTable) (ids : list Id) :
  forall docs out,
    lookupAll t ids = Ok docs ->
    filterFrom f t ids out
    = Ok (out ++ List.filter (fun doc => f (objectAt t (target doc))) docs).
Proof.
  induction ids as [|id later IH]; intros docs out Hdocs.
  - cbn in Hdocs. inversion Hdocs. cbn. rewrite app_nil_r. reflexivity.
  - cbn [lookupAll] in Hdocs. cbn [filterFrom].
    destruct (lookup id t) as [doc|]; [|discriminate].
    destruct (lookupAll t later) as [docs'|]; [|discriminate].
    inversion Hdocs; subst docs. rewrite (IH docs') by reflexivity.
    cbn [List.filter]. destruct (f (objectAt t (target doc))).
    + rewrite <- app_assoc. reflexivity.
    + reflexivity.
Qed.

Lemma findFrom_spec (f : obj -> bool) (t : GameTable) (ids : list Id) :
  forall docs,
    lookupAll t ids = Ok docs ->
    findFrom f t ids
    = Ok (head (List.filter (fun doc => f (objectAt t (target doc))) docs)).
Proof.
  induction ids as [|id later IH]; intros docs Hdocs.
  - cbn in Hdocs. inversion Hdocs. reflexivity.
  - cbn [lookupAll] in Hdocs. cbn [findFrom].
    destruct (lookup id t) as [doc|]; [|discriminate].
    destruct (lookupAll t later) as [docs'|]; [|discriminate].
    inversion Hdocs; subst docs. cbn [List.filter].
    destruct (f (objectAt t (target doc))); [reflexivity|].
    apply IH. reflexivity.
Qed.

(** X19: [allIds()] lists, each once, exactly the ids [lookup] accepts
    (in the cache, with an active document).  So [allDocuments()],
    [filter(f)] and [find(f)] never throw: [allDocuments()] returns the
    handle of every such id, [filter(f)] those whose document satisfies
    [f], in the same order, and [find(f)] the first of them, or [null]
    when there is none. *)
Theorem allIds_are_the_active_ids (t : GameTable) (f : obj -> bool) :
  NoDup (allIds t) /\
  (forall id, id ∈ allIds t <-> exists h, lookup id t = Ok h) /\
  exists docs,
    allDocuments t = Ok docs /\
    handleId <$> docs = allIds t /\
    Forall (fun doc => lookup (handleId doc) t = Ok doc) docs /\
    filter f t = Ok (List.filter (fun doc => f (objectAt t (target doc))) docs) /\
    find f t = Ok (head (List.filter (fun doc => f (objectAt t (target doc))) docs)).
Proof.
  split; [|split; [apply allIds_lookup|]].
  - unfold allIds. apply NoDup_ListNoDup, List.NoDup_filter, NoDup_ListNoDup.
    apply NoDup_fst_map_to_list.
  - destruct (lookupAll_Ok t (allIds t)) as (docs & Hdocs & Hids & Hok).
    { intros id Hid. apply allIds_lookup, Hid. }
    exists docs. split; [exact Hdocs|]. split; [exact Hids|]. split; [exact Hok|].
    split.
    + unfold filter. rewrite (filterFrom_spec f t _ docs []) by exact Hdocs. reflexivity.
    + unfold find. apply findFrom_spec. exact Hdocs.
Qed.

(** ** [save] *)

Lemma row_data (t : GameTable) (id : Id) : is_Some (row t id) <-> is_Some (data t !! id).
Proof.
  unfold row. destruct (data t !! id); cbn; split; intros [? ?]; eauto; discriminate.
Qed.

Lemma replaceAll_thrown (t : GameTable) (ids : list Id) :
  ((replaceAll t ids).2 = None <-> forall id, id ∈ ids -> is_Some (data t !! id)) /\
  (forall id, (replaceAll t ids).2 = Some id -> id ∈ ids /\ data t !! id = None).
Proof.
  induction ids as [|i ids [IH1 IH2]]; cbn [replaceAll].
  - split; [|discriminate]. split; [intros _ id Hid; inversion Hid|reflexivity].
  - destruct (row t i) as [doc|] eqn:Hrow.
    + destruct (replaceAll t ids) as [called thrown]. cbn [snd] in *. split.
      * rewrite IH1. split.
        -- intros Hall id Hid. apply elem_of_cons in Hid as [->|Hid]; [|auto].
           apply row_data. rewrite Hrow. eauto.
        -- intros Hall id Hid. apply Hall. apply elem_of_cons. right. exact Hid.
      * intros id Hid. destruct (IH2 id Hid) as [Hin Hnone].
        split; [apply elem_of_cons; right; exact Hin|exact Hnone].
    + cbn [snd]. assert (Hnone : data t !! i = None).
      { destruct (data t !! i) eqn:Hd; [|reflexivity].
        unfold row in Hrow. rewrite Hd in Hrow. discriminate. }
      split.
      * split; [discriminate|]. intros Hall.
        destruct (Hall i) as [l Hl]; [apply elem_of_cons; left; reflexivity|].
        congruence.
      * intros id Hid. inversion Hid; subst.
        split; [apply elem_of_cons; left; reflexivity|exact Hnone].
Qed.

Lemma replaceAll_calls (t : GameTable) (ids : list Id) :
  (replaceAll t ids).2 = None ->
  (replaceAll t ids).1
  = omap (fun id => DbReplace id <$> row t id) ids /\
  List.length (replaceAll t ids).1 = List.length ids.
Proof.
  induction ids as [|i ids IH]; cbn [replaceAll]; [intros _; split; reflexivity|].
  destruct (row t i) as [doc|] eqn:Hrow; [|discriminate].
  destruct (replaceAll t ids) as [called thrown]. cbn [fst snd] in *.
  intros Hnone. destruct (IH Hnone) as [Hcalls Hlen]. clear IH.
  split; [|cbn [List.length]; rewrite Hlen; reflexivity].
  change (omap (fun id => DbReplace id <$> row t id) (i :: ids))
    with (match DbReplace i <$> row t i with
          | Some call => call :: omap (fun id => DbReplace id <$> row t id) ids
          | None => omap (fun id => DbReplace id <$> row t id) ids
          end).
  rewrite Hrow, Hcalls. reflexivity.
Qed.

(** What [save()] does when an id marked modified has no row. *)
Lemma save_throws_on_missing_row (t : GameTable) (id : Id) :
  id ∈ modified t -> data t !! id = None ->
  (save t).2 = Throw "Invalid modified id" /\
  (forall i, i ∈ deleted t -> DbDelete i ∈ dbCalls (save t).1) /\
  modified (save t).1 = modified t /\ deleted (save t).1 = deleted t.
Proof.
  intros Hid Habsent.
  destruct (replaceAll_thrown t (elements (modified t))) as [Hnone Hsome].
  destruct ((replaceAll t (elements (modified t))).2) as [thrown|] eqn:Hthrown.
  - unfold save. rewrite Hthrown. cbn [fst snd dbCalls modified deleted].
    split; [reflexivity|]. split; [|split; reflexivity].
    intros i Hi. apply elem_of_app. right. apply saveCalls_delete, Hi.
  - exfalso. destruct (proj1 Hnone eq_refl id) as [l Hl];
      [apply elem_of_elements, Hid|congruence].
Qed.

(** X20: [save()] succeeds exactly when every id marked modified is still
    in the cache.  Then it has issued one store delete per id marked
    deleted and, after them, one store replace per id marked modified, with
    the document the cache holds for it; it has emptied both marks and left
    the cache as it was, so that a second [save()] issues nothing.  When an
    id marked modified is no longer in the cache it throws, after having
    issued the store deletes, and keeps both marks. *)
Theorem save_commits_marks (t : GameTable) :
  ((forall id, id ∈ modified t -> is_Some (data t !! id)) ->
   (save t).2 = Ok tt /\
   dbCalls (save t).1
   = dbCalls t ++ (DbDelete <$> elements (deleted t))
       ++ omap (fun id => DbReplace id <$> row t id) (elements (modified t)) /\
   List.length (saveCalls t) = size (deleted t) + size (modified t) /\
   modified (save t).1 = ∅ /\ deleted (save t).1 = ∅ /\
   data (save t).1 = data t /\ objects (save t).1 = objects t /\
   saveCalls (save t).1 = []) /\
  ((exists id, id ∈ modified t /\ data t !! id = None) ->
   (save t).2 = Throw "Invalid modified id" /\
   (forall id, id ∈ deleted t -> DbDelete id ∈ dbCalls (save t).1) /\
   modified (save t).1 = modified t /\ deleted (save t).1 = deleted t).
Proof.
  destruct (replaceAll_thrown t (elements (modified t))) as [Hnone Hsome].
  split.
  - intros Hall.
    assert (Hok : (replaceAll t (elements (modified t))).2 = None).
    { apply Hnone. intros id Hid. apply Hall, elem_of_elements, Hid. }
    destruct (replaceAll_calls t _ Hok) as [Hcalls Hlen].
    unfold save. rewrite Hok. cbn [fst snd dbCalls modified deleted data objects].
    split; [reflexivity|]. split; [unfold saveCalls; rewrite Hcalls; reflexivity|].
    split; [unfold saveCalls; rewrite length_app, length_fmap, Hlen; reflexivity|].
    repeat (split; [reflexivity|]).
    unfold saveCalls. cbn [deleted modified]. rewrite !elements_empty. reflexivity.
  - intros (id & Hid & Habsent). apply (save_throws_on_missing_row t id); assumption.
Qed.

(** X21: a row written through its handle and deleted before the next
    [save()] makes that [save()] throw: the write marks the id modified,
    [delete] takes the row out of the cache and leaves the mark, and
    [save()] finds no row for the id. *)
Theorem write_then_delete_breaks_save
  (t : GameTable) (id : Id) (h : Handle) (m : Mutation) :
  lookup id t = Ok h ->
  (save (delete id (mutate h m t))).2 = Throw "Invalid modified id" /\
  DbDelete id ∈ dbCalls (save (delete id (mutate h m t))).1.
Proof.
  intros Hlookup. apply lookup_Ok in Hlookup as (l & Hl & Hactive & ->).
  set (t1 := mutate {| handleId := id; target := l |} m t).
  assert (Hmod : id ∈ modified t1).
  { unfold t1, mutate. cbn [modified handleId]. rewrite markModified_modified.
    unfold row. rewrite Hl. cbn. rewrite Hactive. set_solver. }
  assert (Hdata : data t1 = data t).
  { unfold t1, mutate, markModified. cbn [data handleId].
    destruct (row t id) as [doc|]; [destruct (isActive doc)|]; reflexivity. }
  assert (Hdel : delete id t1
                 = {| objects := objects t1; data := base.delete id (data t1);
                      modified := modified t1; deleted := deleted t1 ∪ {[ id ]};
                      dbCalls := dbCalls t1; console := console t1 |}).
  { unfold delete. rewrite Hdata, Hl.
    rewrite bool_decide_eq_true_2 by eauto. reflexivity. }
  destruct (save_throws_on_missing_row (delete id t1) id) as (Hthrow & Hcalls & _).
  - rewrite Hdel. cbn [modified]. exact Hmod.
  - rewrite Hdel. cbn [data]. apply lookup_delete_eq.
  - split; [exact Hthrow|]. apply Hcalls. rewrite Hdel. cbn [deleted]. set_solver.
Qed.

(** X22: a row that [insert] has stored can be looked up: when the store
    hands back the document, [insert] returns the id, the cache holds the
    document under it, [lookup(id)] returns a handle on it and [allIds()]
    lists the id if the document is active, and [lookup(id)] throws if it
    is not.  [insert] marks nothing, so the next [save()] does not write the
    new row again.  When the store has no document for the new id,
    [insert] throws after the store insert and caches nothing. *)
Theorem insert_then_lookup (t : GameTable) (r : obj) (id : Id) (doc : obj) (l : loc) :
  let t' := (insert r id (Some doc) l t).1 in
  ((insert r id (Some doc) l t).2 = Ok id /\
   row t' id = Some doc /\
   lookup id t' = (if isActive doc then Ok {| handleId := id; target := l |}
                   else Throw "ID is inactive") /\
   (id ∈ allIds t' <-> isActive doc = true) /\
   modified t' = modified t /\ deleted t' = deleted t /\
   (forall other, other <> id -> data t' !! other = data t !! other)) /\
  ((insert r id None l t).2 = Throw "Failed to db.get() inserted row" /\
   data (insert r id None l t).1 = data t /\
   objects (insert r id None l t).1 = objects t /\
   dbCalls (insert r id None l t).1 = dbCalls t ++ [DbInsert r; DbGet id]).
Proof.
  cbv zeta. unfold insert. cbn [fst snd data objects modified deleted dbCalls].
  split; [|repeat split].
  assert (Hrow : row {| objects := <[l:=doc]> (objects t); data := <[id:=l]> (data t);
                        modified := modified t; deleted := deleted t;
                        dbCalls := dbCalls t ++ [DbInsert r; DbGet id];
                        console := console t |} id = Some doc).
  { unfold row, objectAt. cbn [data objects]. rewrite lookup_insert_eq. cbn.
    rewrite lookup_insert_eq. reflexivity. }
  assert (Hlookup : lookup id {| objects := <[l:=doc]> (objects t); data := <[id:=l]> (data t);
                                 modified := modified t; deleted := deleted t;
                                 dbCalls := dbCalls t ++ [DbInsert r; DbGet id];
                                 console := console t |}
                    = (if isActive doc then Ok {| handleId := id; target := l |}
                       else Throw "ID is inactive")).
  { unfold lookup, objectAt. cbn [data objects]. rewrite !lookup_insert_eq. reflexivity. }
  split; [reflexivity|]. split; [exact Hrow|]. split; [exact Hlookup|].
  split; [|split; [reflexivity|split; [reflexivity|]]].
  - rewrite allIds_lookup, Hlookup. destruct (isActive doc).
    + split; [reflexivity|eauto].
    + split; [intros [h Hh]; discriminate|discriminate].
  - intros other Hother. apply lookup_insert_ne. congruence.
Qed.

End Table.

(** A table of players, by number: a row is active when its [active]
    property is [true]. *)
Definition playerActive (o : obj) : bool :=
  match o !! "active" with
  | Some (Bool true) => true
  | _ => false
  end.

Definition ann : obj := {[ "active" := Bool true; "name" := Str "Ann" ]}.

Definition players : @GameTable nat _ _ := construct {[ 1%positive := ann ]} [(7%nat, 1%positive)].

Definition annHandle : @Handle nat := {| handleId := 7%nat; target := 1%positive |}.

Example lookup_ann : lookup playerActive 7%nat players = Ok annHandle.
Proof. reflexivity. Qed.

Example write_marks_ann :
  modified (mutate playerActive annHandle (SetProperty "name" (Str "Bob")) players)
  = {[ 7%nat ]}.
Proof. reflexivity. Qed.

(** C9, as stated, fails: a handle taken by [lookup], used after
    [delete] of its id, writes to the row (the name changes) and the id is
    not in [modified]; only the console hears of it. *)
Lemma write_after_delete_counterexample :
  lookup playerActive 7%nat players = Ok annHandle /\
  let t := mutate playerActive annHandle (SetProperty "name" (Str "Bob"))
                  (delete 7%nat players) in
  objects t !! target annHandle
  = Some (<["name" := Str "Bob"]> ann) /\
  objects t !! target annHandle <> objects players !! target annHandle /\
  (7%nat ∉ modified t) /\
  console t = ["Modifying deleted id"].
Proof.
  split; [reflexivity|]. cbn zeta.
  assert (Hobj : objects (mutate playerActive annHandle (SetProperty "name" (Str "Bob"))
                                 (delete 7%nat players)) !! target annHandle
                 = Some (<["name" := Str "Bob"]> ann)) by reflexivity.
  split; [exact Hobj|]. split; [|split].
  - rewrite Hobj. intros Heq.
    assert (Hname : (<["name" := Str "Bob"]> ann : obj) !! "name" = ann !! "name").
    { apply (f_equal (fun o => (default ∅ o : obj) !! "name")) in Heq. exact Heq. }
    vm_compute in Hname. discriminate.
  - assert (Hmod : modified (mutate playerActive annHandle (SetProperty "name" (Str "Bob"))
                                    (delete 7%nat players)) = ∅) by reflexivity.
    rewrite Hmod. apply not_elem_of_empty.
  - reflexivity.
Qed.

(** The other silent write: the row is deactivated through the handle
    (which marks it), the table is saved (which clears the marks), and a
    further write through the same handle changes the cached row without
    marking it. *)
Example write_after_deactivation :
  let deactivated := mutate playerActive annHandle (SetProperty "active" (Bool false)) players in
  let saved := (save deactivated).1 in
  let t := mutate playerActive annHandle (SetProperty "name" (Str "Bob")) saved in
  modified deactivated = {[ 7%nat ]} /\
  modified saved = ∅ /\
  data t !! 7%nat = Some (target annHandle) /\
  objects t !! target annHandle
  = Some (<["name" := Str "Bob"]> (<["active" := Bool false]> ann)) /\
  modified t = ∅ /\
  console t = ["Modifying inactive id"].
Proof. repeat split; reflexivity. Qed.

Lemma delete_absent_unchanged_witness :
  delete 8%nat players = players /\
  (DbDelete 8%nat ∉ saveCalls (delete 8%nat players)).
Proof.
  destruct (@delete_absent_unchanged nat _ _ playerActive) as [Habsent _].
  destruct (Habsent players 8%nat) as [Hsame Hnew]; [reflexivity|].
  split; [exact Hsame|].
  destruct Hnew as (_ & Hcalls & _); [|exact Hcalls].
  apply not_elem_of_empty.
Defined.

Lemma save_commits_marks_witness :
  let written := mutate playerActive annHandle (SetProperty "name" (Str "Bob")) players in
  (save written).2 = Ok tt /\
  dbCalls (save written).1 = [DbReplace 7%nat (<["name" := Str "Bob"]> ann)] /\
  modified (save written).1 = ∅.
Proof.
  cbv zeta.
  destruct (save_commits_marks
              (mutate playerActive annHandle (SetProperty "name" (Str "Bob")) players))
    as [Hcommit _].
  destruct Hcommit as (Hok & Hcalls & _ & Hmod & _).
  - intros id Hid.
    assert (Hseven : id = 7%nat).
    { change (id ∈ ({[7%nat]} : gset nat)) in Hid. set_solver. }
    subst id. eexists. reflexivity.
  - split; [exact Hok|]. split; [|exact Hmod].
    rewrite Hcalls. reflexivity.
Defined.

Lemma write_then_delete_breaks_save_witness :
  (save (delete 7%nat
           (mutate playerActive annHandle (SetProperty "name" (Str "Bob")) players))).2
  = Throw "Invalid modified id".
Proof.
  apply (write_then_delete_breaks_save playerActive players 7%nat annHandle).
  reflexivity.
Defined.

End GameTable.

(* ===================================================================== *)
(** * convex/game/pathfinding.ts (src/unnamed/part_002) *)
(* ===================================================================== *)

Module Pathfinding.

Import Geometry.

Local Open Scope R_scope.

(** [COLLISION_THRESHOLD] of convex/constants.ts. *)
Definition COLLISION_THRESHOLD : R := 0.75.

(** [Id<...>]: the ids of the store are strings. *)
Definition Id : Type := string.

(** What the pathfinder reads of [Doc<'players'>]. *)
Record Player : Type := mkPlayer { _id : Id; locationId : Id }.

(** [Doc<'locations'>]; where a [Point] is asked for, its [x] and [y] are
    read. *)
Module Location.
Record t : Type := mk { x : R; y : R; dx : R; dy : R; velocity : R }.
Definition toPoint (l : t) : Point := {| Geometry.x := x l; Geometry.y := y l |}.
End Location.

(** What the pathfinder reads of [Doc<'maps'>]. *)
Record MapDoc : Type :=
  mkMap { width : R; height : R; objectTiles : list (list Z) }.

(** What the pathfinder reads of [AiTown]: [game.players.allDocuments()],
    [game.locations.lookup(now, id)] (of the historical table, which is not
    among the sources: any function of the time and the id) and
    [game.map]. *)
Record AiTown : Type := mkGame {
  players : list Player;
  locations : R -> Id -> Location.t;
  map : MapDoc }.

#[warnings="-register-all"]
Inductive PathCandidate : Type := mkCandidate {
  position : Point;
  facing : Vector;
  t : R;
  length : R;
  cost : R;
  prev : option PathCandidate }.

(** The three reasons [blockedWithPositions] gives. *)
Inductive Blocked : Type := OutOfBounds | WorldBlocked | PlayerBlocked.

(** [blockedWithPositions]: [None] is [null].  A row of tiles that does
    not exist makes the read of its cell throw; a cell that does not exist
    is [undefined], which is not [-1]. *)
Definition blockedWithPositions (position : Point) (otherPositions : list Point)
           (map : MapDoc) : result (option Blocked) :=
  if decide (x position < 0 \/ y position < 0 \/
             x position >= width map \/ y position >= height map)
  then Ok (Some OutOfBounds)
  else
    match objectTiles map !! Z.to_nat (Int_part (y position)) with
    | None => Throw "TypeError: Cannot read properties of undefined"
    | Some tiles =>
        match tiles !! Z.to_nat (Int_part (x position)) with
        | Some (-1)%Z =>
            if existsb
                 (fun otherPosition =>
                    bool_decide (distance otherPosition position < COLLISION_THRESHOLD))
                 otherPositions
            then Ok (Some PlayerBlocked)
            else Ok None
        | _ => Ok (Some WorldBlocked)
        end
    end.

(** [blocked]. *)
Definition blocked (game : AiTown) (now : R) (pos : Point) (playerId : option Id)
  : result (option Blocked) :=
  let otherPositions :=
    (fun p => Location.toPoint (locations game now (locationId p)))
      <$> filter (fun p => Some (_id p) <> playerId) (players game) in
  blockedWithPositions pos otherPositions (map game).

(** [minDistances]: the candidates stored under [position.y] and
    [position.x], the latest first. *)
Definition MinDistances : Type := list (Point * PathCandidate).

Fixpoint minDistanceAt (minDistances : MinDistances) (p : Point) : option PathCandidate :=
  match minDistances with
  | [] => None
  | (q, candidate) :: older =>
      if decide (y q = y p /\ x q = x p) then Some candidate
      else minDistanceAt older p
  end.

(** How a computation that loops ends: with a value, with an exception, or
    short of fuel. *)
Inductive Outcome (A : Type) : Type :=
| Done (a : A)
| Threw (message : string)
| OutOfFuel.
Arguments Done {A} a.
Arguments Threw {A} message.
Arguments OutOfFuel {A}.

(** What [findRoute] returns when it does not return [null]. *)
Record Route : Type := mkRoute { path : Path; newDestination : option Point }.

(** The placeholder [null] at index 0 of the heap. *)
Definition nullCandidate : PathCandidate :=
  {| position := {| x := 0; y := 0 |}; facing := {| dx := 0; dy := 0 |};
     t := 0; length := 0; cost := 0; prev := None |}.

(** [(p0, p1) => p0.cost > p1.cost]. *)
Definition costGreater (p0 p1 : PathCandidate) : bool :=
  bool_decide (cost p0 > cost p1).

(** The loop that builds [densePath], from [current] back to the start. *)
Fixpoint densePathFrom (current : PathCandidate) (facing0 : Vector) : Path :=
  {| Geometry.position := position current; Geometry.facing := facing0;
     Geometry.t := t current |}
  :: match prev current with
     | Some previous => densePathFrom previous (facing current)
     | None => []
     end.

(** How the search loop of [findRoute] ends: [current] (no candidate when
    the heap ran empty) and [bestCandidate]; and, for the statements below
    only, the candidates the loop took as [current], in order. *)
Record SearchEnd : Type := mkSearchEnd {
  current : option PathCandidate;
  bestCandidate : PathCandidate;
  explored : list PathCandidate }.

Section FindRoute.

(** [movementSpeed] of data/characters.ts, which is not among the
    sources. *)
Variable movementSpeed : R.

Variable game : AiTown.
Variable now : R.
Variable player : Player.
Variable destination : Point.

(** The neighbours [explore] tries around a candidate. *)
Definition neighbors (current : PathCandidate) : list (Point * Vector) :=
  let cx := x (position current) in
  let cy := y (position current) in
  (if decide (cx <> floor cx)
   then [ ({| x := floor cx; y := cy |}, {| dx := -1; dy := 0 |});
          ({| x := floor cx + 1; y := cy |}, {| dx := 1; dy := 0 |}) ]
   else [])
  ++ (if decide (cy <> floor cy)
      then [ ({| x := cx; y := floor cy |}, {| dx := 0; dy := -1 |});
             ({| x := cx; y := floor cy + 1 |}, {| dx := 0; dy := 1 |}) ]
      else [])
  ++ (if decide (cx = floor cx /\ cy = floor cy)
      then [ ({| x := cx + 1; y := cy |}, {| dx := 1; dy := 0 |});
             ({| x := cx - 1; y := cy |}, {| dx := -1; dy := 0 |});
             ({| x := cx; y := cy + 1 |}, {| dx := 0; dy := 1 |});
             ({| x := cx; y := cy - 1 |}, {| dx := 0; dy := -1 |}) ]
      else []).

(** The candidate [explore] builds for a neighbour. *)
Definition candidateTo (current : PathCandidate) (position0 : Point) (facing0 : Vector)
  : PathCandidate :=
  let segmentLength := distance (position current) position0 in
  let length0 := length current + segmentLength in
  let remaining := manhattanDistance position0 destination in
  {| position := position0;
     facing := facing0;
     t := t current + (segmentLength / movementSpeed) * 1000;
     length := length0;
     cost := length0 + remaining;
     prev := Some current |}.

(** The loop of [explore] over the neighbours: [next] and [minDistances]
    as it leaves them. *)
Fixpoint exploreNeighbors (current : PathCandidate) (ns : list (Point * Vector))
         (minDistances : MinDistances) (next : list PathCandidate)
  : result (list PathCandidate * MinDistances) :=
  match ns with
  | [] => Ok (next, minDistances)
  | (position0, facing0) :: ns' =>
      match blocked game now position0 (Some (_id player)) with
      | Throw e => Throw e
      | Ok (Some _) => exploreNeighbors current ns' minDistances next
      | Ok None =>
          let path := candidateTo current position0 facing0 in
          if match minDistanceAt minDistances position0 with
             | Some existingMin => bool_decide (cost existingMin <= cost path)
             | None => false
             end
          then exploreNeighbors current ns' minDistances next
          else exploreNeighbors current ns'
                 ((position0, path) :: minDistances) (next ++ [path])
      end
  end.

Definition explore (minDistances : MinDistances) (current : PathCandidate)
  : result (list PathCandidate * MinDistances) :=
  exploreNeighbors current (neighbors current) minDistances [].

(** The loop [while (current)] of [findRoute]. *)
Fixpoint search (fuel : nat) (current0 : PathCandidate) (bestCandidate0 : PathCandidate)
         (minDistances : MinDistances) (minheap : MinHeap.heap (T := PathCandidate))
         (explored0 : list PathCandidate) : Outcome SearchEnd :=
  match fuel with
  | O => OutOfFuel
  | S fuel' =>
      let explored1 := explored0 ++ [current0] in
      if pointsEqual (position current0) destination then
        Done {| current := Some current0; bestCandidate := bestCandidate0;
                explored := explored1 |}
      else
        let bestCandidate1 :=
          if decide (manhattanDistance (position current0) destination
                     < manhattanDistance (position bestCandidate0) destination)
          then current0 else bestCandidate0 in
        match explore minDistances current0 with
        | Throw e => Threw e
        | Ok (candidates, minDistances1) =>
            let minheap1 :=
              fold_left (fun h candidate => MinHeap.push costGreater nullCandidate candidate h)
                        candidates minheap in
            match MinHeap.pop costGreater nullCandidate minheap1 with
            | (None, _) =>
                Done {| current := None; bestCandidate := bestCandidate1;
                        explored := explored1 |}
            | (Some next, minheap2) =>
                search fuel' next bestCandidate1 minDistances1 minheap2 explored1
            end
        end
  end.

(** The candidate the search starts from. *)
Definition startingCandidate : PathCandidate :=
  let startingLocation := locations game now (locationId player) in
  let startingPosition :=
    {| x := Location.x startingLocation; y := Location.y startingLocation |} in
  {| position := startingPosition;
     facing := {| dx := Location.dx startingLocation; dy := Location.dy startingLocation |};
     t := now;
     length := 0;
     cost := manhattanDistance startingPosition destination;
     prev := None |}.

(** What [findRoute] does after the loop. *)
Definition route (ended : SearchEnd) : option Route :=
  match current ended with
  | Some current0 =>
      Some {| path := rev (densePathFrom current0 (facing current0));
              newDestination := None |}
  | None =>
      if decide (length (bestCandidate ended) = 0) then None
      else
        let current0 := bestCandidate ended in
        Some {| path := rev (densePathFrom current0 (facing current0));
                newDestination := Some (position current0) |}
  end.

(** [findRoute]: [Done None] is [null]. *)
Definition findRoute (fuel : nat) : Outcome (option Route) :=
  match search fuel startingCandidate startingCandidate []
               (MinHeap.empty nullCandidate) [] with
  | Done ended => Done (route ended)
  | Threw e => Threw e
  | OutOfFuel => OutOfFuel
  end.

(** [explore] as the specification words it: the candidate is tested
    against the other players' positions at its scheduled arrival time
    [path.t].  (Not the code: to compare it with.) *)
Fixpoint exploreNeighborsAtArrival (current : PathCandidate) (ns : list (Point * Vector))
         (minDistances : MinDistances) (next : list PathCandidate)
  : result (list PathCandidate * MinDistances) :=
  match ns with
  | [] => Ok (next, minDistances)
  | (position0, facing0) :: ns' =>
      let path := candidateTo current position0 facing0 in
      match blocked game (t path) position0 (Some (_id player)) with
      | Throw e => Throw e
      | Ok (Some _) => exploreNeighborsAtArrival current ns' minDistances next
      | Ok None =>
          if match minDistanceAt minDistances position0 with
             | Some existingMin => bool_decide (cost existingMin <= cost path)
             | None => false
             end
          then exploreNeighborsAtArrival current ns' minDistances next
          else exploreNeighborsAtArrival current ns'
                 ((position0, path) :: minDistances) (next ++ [path])
      end
  end.

Definition exploreAtArrival (minDistances : MinDistances) (current : PathCandidate)
  : result (list PathCandidate * MinDistances) :=
  exploreNeighborsAtArrival current (neighbors current) minDistances [].

(** ** Verification of the search *)

(** The Manhattan distance of a candidate to the destination. *)
Definition remainingFrom (c : PathCandidate) : R :=
  manhattanDistance (position c) destination.

Lemma search_spec :
  forall fuel c b minDistances minheap ex ended,
    (b = c \/ b ∈ ex) ->
    (forall e, e ∈ ex -> remainingFrom b <= remainingFrom e) ->
    search fuel c b minDistances minheap ex = Done ended ->
    match current ended with
    | None =>
        bestCandidate ended ∈ explored ended /\
        (forall e, e ∈ explored ended ->
                   remainingFrom (bestCandidate ended) <= remainingFrom e)
    | Some reached =>
        pointsEqual (position reached) destination = true /\
        last (explored ended) = Some reached
    end.
Proof.
  induction fuel as [|fuel IH]; intros c b md h ex ended Hb Hmin Hrun; [discriminate|].
  cbn [search] in Hrun.
  destruct (pointsEqual (position c) destination) eqn:Hreached.
  - inversion Hrun; subst ended; cbn [current explored].
    split; [exact Hreached|apply last_snoc].
  - set (b1 := if decide (manhattanDistance (position c) destination
                          < manhattanDistance (position b) destination)
               then c else b) in *.
    assert (Hb1 : b1 ∈ ex ++ [c]).
    { assert (Hc : c ∈ ex ++ [c])
        by (apply elem_of_app; right; apply list_elem_of_singleton; reflexivity).
      unfold b1. destruct (decide _); [exact Hc|].
      destruct Hb as [Hbc|Hbe]; [subst b; exact Hc|].
      apply elem_of_app. left. exact Hbe. }
    assert (Hmin1 : forall e, e ∈ ex ++ [c] -> remainingFrom b1 <= remainingFrom e).
    { intros e He. unfold b1, remainingFrom in *.
      apply elem_of_app in He as [He|He].
      - specialize (Hmin e He). case_decide; lra.
      - apply list_elem_of_singleton in He. subst e. case_decide; lra. }
    destruct (explore md c) as [[candidates md1]|msg]; [|discriminate].
    destruct (MinHeap.pop costGreater nullCandidate _) as [[next|] h2].
    + apply (IH _ _ _ _ _ _ (or_intror Hb1) Hmin1 Hrun).
    + inversion Hrun; subst ended; cbn [current bestCandidate explored].
      split; [exact Hb1|exact Hmin1].
Qed.


(** Every candidate [explore] hands out passed the test of [blocked] at the
    time [now]. *)
Lemma exploreNeighbors_tested (current0 : PathCandidate) :
  forall ns minDistances next candidates minDistances1,
    exploreNeighbors current0 ns minDistances next = Ok (candidates, minDistances1) ->
    forall c, c ∈ candidates ->
      c ∈ next \/
      (blocked game now (position c) (Some (_id player)) = Ok None /\
       exists position0 facing0,
         (position0, facing0) ∈ ns /\ c = candidateTo current0 position0 facing0).
Proof.
  induction ns as [|[position0 facing0] ns IH];
    intros md next candidates md1 Hrun c Hc.
  - cbn in Hrun. inversion Hrun; subst. left. exact Hc.
  - cbn [exploreNeighbors] in Hrun.
    destruct (blocked game now position0 (Some (_id player))) as [[reason|]|msg] eqn:Hb;
      [| |discriminate].
    + destruct (IH _ _ _ _ Hrun c Hc) as [Hn|(Ht & p & f & Hin & Heq)]; [left; exact Hn|].
      right. split; [exact Ht|]. exists p, f. split; [set_solver|exact Heq].
    + destruct (match minDistanceAt md position0 with
                | Some existingMin =>
                    bool_decide (cost existingMin
                                 <= cost (candidateTo current0 position0 facing0))
                | None => false
                end).
      * destruct (IH _ _ _ _ Hrun c Hc) as [Hn|(Ht & p & f & Hin & Heq)];
          [left; exact Hn|].
        right. split; [exact Ht|]. exists p, f. split; [set_solver|exact Heq].
      * destruct (IH _ _ _ _ Hrun c Hc) as [Hn|(Ht & p & f & Hin & Heq)].
        -- apply elem_of_app in Hn as [Hn|Hn]; [left; exact Hn|].
           apply list_elem_of_singleton in Hn. subst c. right.
           split; [exact Hb|]. exists position0, facing0. split; [set_solver|reflexivity].
        -- right. split; [exact Ht|]. exists p, f. split; [set_solver|exact Heq].
Qed.

End FindRoute.

(** Two games that differ only in where the players are at other times
    than [now] get the same verdicts from [blocked] at [now]. *)
Lemma blocked_agree (game game' : AiTown) (now : R) :
  players game' = players game -> map game' = map game ->
  (forall id, locations game' now id = locations game now id) ->
  forall pos playerId, blocked game' now pos playerId = blocked game now pos playerId.
Proof.
  intros Hp Hm Hl pos playerId. unfold blocked. rewrite Hp, Hm.
  f_equal. apply list_fmap_ext. intros ? p _. cbn. rewrite Hl. reflexivity.
Qed.

Lemma exploreNeighbors_agree (movementSpeed : R) (game game' : AiTown) (now : R)
      (player : Player) (destination : Point) (current0 : PathCandidate) :
  (forall pos playerId, blocked game' now pos playerId = blocked game now pos playerId) ->
  forall ns minDistances next,
    exploreNeighbors movementSpeed game' now player destination current0 ns minDistances next
    = exploreNeighbors movementSpeed game now player destination current0 ns minDistances next.
Proof.
  intros Hb. induction ns as [|[position0 facing0] ns IH]; intros md next; [reflexivity|].
  cbn [exploreNeighbors]. rewrite Hb.
  destruct (blocked game now position0 (Some (_id player))) as [[reason|]|msg];
    [apply IH| |reflexivity].
  destruct (match minDistanceAt md position0 with
            | Some existingMin => _
            | None => false
            end); apply IH.
Qed.

Lemma search_agree (movementSpeed : R) (game game' : AiTown) (now : R)
      (player : Player) (destination : Point) :
  (forall pos playerId, blocked game' now pos playerId = blocked game now pos playerId) ->
  forall fuel c b minDistances minheap ex,
    search movementSpeed game' now player destination fuel c b minDistances minheap ex
    = search movementSpeed game now player destination fuel c b minDistances minheap ex.
Proof.
  intros Hb. induction fuel as [|fuel IH]; intros c b md h ex; [reflexivity|].
  cbn [search]. destruct (pointsEqual (position c) destination); [reflexivity|].
  unfold explore. rewrite (exploreNeighbors_agree _ _ _ _ _ _ _ Hb).
  destruct (exploreNeighbors movementSpeed game now player destination c
              (neighbors c) md []) as [[candidates md1]|msg]; [|reflexivity].
  destruct (MinHeap.pop costGreater nullCandidate _) as [[next|] h2];
    [apply IH|reflexivity].
Qed.

(** C1, as the code has it: the test of [blocked] that [explore] applies
    to a neighbour reads the other players' positions at the query time
    [now], whatever the arrival time of the candidate.  Every candidate
    [explore] hands out is a candidate to one of the neighbours and is not
    blocked with the positions at [now]; and [findRoute] returns the same
    for any two games with the same players and map whose locations agree
    at [now], wherever the players are at the arrival times. *)
Theorem blocked_at_query_time
  (movementSpeed : R) (game : AiTown) (now : R) (player : Player) (destination : Point) :
  (forall minDistances current0 candidates minDistances1,
      explore movementSpeed game now player destination minDistances current0
      = Ok (candidates, minDistances1) ->
      forall c, c ∈ candidates ->
        blockedWithPositions
          (position c)
          ((fun p => Location.toPoint (locations game now (locationId p)))
             <$> filter (fun p => Some (_id p) <> Some (_id player)) (players game))
          (map game) = Ok None /\
        exists position0 facing0,
          (position0, facing0) ∈ neighbors current0 /\
          c = candidateTo movementSpeed destination current0 position0 facing0) /\
  (forall game' fuel,
      players game' = players game -> map game' = map game ->
      (forall id, locations game' now id = locations game now id) ->
      findRoute movementSpeed game' now player destination fuel
      = findRoute movementSpeed game now player destination fuel).
Proof.
  split.
  - intros md current0 candidates md1 Hrun c Hc.
    destruct (exploreNeighbors_tested _ _ _ _ _ _ _ _ _ _ _ Hrun c Hc) as [Hn|H].
    + exfalso. eapply not_elem_of_nil, Hn.
    + exact H.
  - intros game' fuel Hp Hm Hl. unfold findRoute, startingCandidate.
    rewrite Hl. rewrite (search_agree _ _ _ _ _ _ (blocked_agree _ _ _ Hp Hm Hl)).
    reflexivity.
Qed.


(** ** A lane of two tiles *)

Lemma Int_part_is (r : R) (z : Z) : IZR z <= r < IZR z + 1 -> Int_part r = z.
Proof. intros Hr. symmetry. apply Int_part_spec. lra. Qed.

Lemma floor_is (r : R) (z : Z) : IZR z <= r < IZR z + 1 -> floor r = IZR z.
Proof. intros Hr. unfold floor. rewrite (Int_part_is r z Hr). reflexivity. Qed.

(** The Euclidean distance along the first axis. *)
Lemma distance_along_x (p0 p1 : Point) :
  y p0 = y p1 -> distance p0 p1 = Rabs (x p0 - x p1).
Proof.
  intros Hy. unfold distance. rewrite Hy.
  replace ((x p0 - x p1) * (x p0 - x p1) + (y p1 - y p1) * (y p1 - y p1))
    with (Rsqr (x p0 - x p1)) by (unfold Rsqr; lra).
  apply sqrt_Rsqr_abs.
Qed.

Definition lane : MapDoc :=
  {| width := 2; height := 1; objectTiles := [[(-1)%Z; (-1)%Z]] |}.

Definition me : Player := {| _id := "me"; locationId := "here" |}.

Definition other : Player := {| _id := "other"; locationId := "there" |}.

(** The other player stands on the tile (1, 0) at time 0 and is far away
    at any other time; the player itself stands on (0, 0). *)
Definition passing (time : R) (id : Id) : Location.t :=
  if decide (id = "there") then
    if decide (time = 0)
    then {| Location.x := 1; Location.y := 0; Location.dx := 1; Location.dy := 0;
            Location.velocity := 0 |}
    else {| Location.x := 50; Location.y := 0; Location.dx := 1; Location.dy := 0;
            Location.velocity := 0 |}
  else {| Location.x := 0; Location.y := 0; Location.dx := 1; Location.dy := 0;
          Location.velocity := 0 |}.

Definition town : AiTown := {| players := [me; other]; locations := passing; map := lane |}.

Definition farEnd : Point := {| x := 1; y := 0 |}.

Definition start : PathCandidate := startingCandidate town 0 me farEnd.

Lemma others_of_me (time : R) :
  (fun p => Location.toPoint (locations town time (locationId p)))
    <$> filter (fun p => Some (_id p) <> Some (_id me)) (players town)
  = [Location.toPoint (passing time "there")].
Proof. reflexivity. Qed.

Lemma passing_here (time : R) :
  passing time "here"
  = {| Location.x := 0; Location.y := 0; Location.dx := 1; Location.dy := 0;
       Location.velocity := 0 |}.
Proof. reflexivity. Qed.

Lemma passing_there_now :
  passing 0 "there"
  = {| Location.x := 1; Location.y := 0; Location.dx := 1; Location.dy := 0;
       Location.velocity := 0 |}.
Proof.
  unfold passing. destruct (decide ("there" = "there")) as [_|Hne]; [|congruence].
  destruct (decide (0 = 0)) as [_|Hne]; [reflexivity|congruence].
Qed.

Lemma passing_there_later (time : R) :
  time <> 0 ->
  passing time "there"
  = {| Location.x := 50; Location.y := 0; Location.dx := 1; Location.dy := 0;
       Location.velocity := 0 |}.
Proof.
  intros Ht. unfold passing. destruct (decide ("there" = "there")) as [_|Hne]; [|congruence].
  destruct (decide (time = 0)) as [Heq|_]; [contradiction|reflexivity].
Qed.

Lemma start_is :
  start = {| position := {| x := 0; y := 0 |}; facing := {| dx := 1; dy := 0 |};
             t := 0; length := 0;
             cost := manhattanDistance {| x := 0; y := 0 |} farEnd; prev := None |}.
Proof. reflexivity. Qed.

(** Around a candidate on a grid point, the four neighbours. *)
Lemma neighbors_aligned (c : PathCandidate) (zx zy : Z) :
  x (position c) = IZR zx -> y (position c) = IZR zy ->
  neighbors c
  = [ ({| x := IZR zx + 1; y := IZR zy |}, {| dx := 1; dy := 0 |});
      ({| x := IZR zx - 1; y := IZR zy |}, {| dx := -1; dy := 0 |});
      ({| x := IZR zx; y := IZR zy + 1 |}, {| dx := 0; dy := 1 |});
      ({| x := IZR zx; y := IZR zy - 1 |}, {| dx := 0; dy := -1 |}) ].
Proof.
  intros Hx Hy. unfold neighbors. rewrite Hx, Hy, !floor_IZR.
  rewrite !(decide_False (P := _ <> _)) by (intros Hne; apply Hne; reflexivity).
  rewrite decide_True by (split; reflexivity). reflexivity.
Qed.

Lemma blocked_outside (game : AiTown) (now : R) (pos : Point) (playerId : option Id) :
  x pos < 0 \/ y pos < 0 \/ x pos >= width (map game) \/ y pos >= height (map game) ->
  blocked game now pos playerId = Ok (Some OutOfBounds).
Proof.
  intros Hout. unfold blocked, blockedWithPositions.
  rewrite decide_True by exact Hout. reflexivity.
Qed.

(** On the lane, only the other player can block. *)
Lemma blocked_on_lane (time : R) (pos : Point) :
  0 <= x pos < 2 -> 0 <= y pos < 1 ->
  blocked town time pos (Some "me")
  = if bool_decide (distance (Location.toPoint (passing time "there")) pos
                    < COLLISION_THRESHOLD)
    then Ok (Some PlayerBlocked) else Ok None.
Proof.
  intros Hx Hy. unfold blocked.
  change (Some "me") with (Some (_id me)). rewrite others_of_me.
  unfold blockedWithPositions. cbn [map town lane width height objectTiles].
  rewrite decide_False by lra.
  rewrite (Int_part_is (y pos) 0) by lra.
  destruct (Rlt_dec (x pos) 1) as [Hlow|Hhigh].
  - rewrite (Int_part_is (x pos) 0) by lra. cbn. rewrite orb_false_r. reflexivity.
  - rewrite (Int_part_is (x pos) 1) by lra. cbn. rewrite orb_false_r. reflexivity.
Qed.

(** On the way to the tile (1, 0), at the query time 0 and on arrival. *)
Definition toFarEnd : PathCandidate :=
  candidateTo 1 farEnd start {| x := 0 + 1; y := 0 |} {| dx := 1; dy := 0 |}.

Lemma toFarEnd_arrival : t toFarEnd = 1000.
Proof.
  unfold toFarEnd, candidateTo. cbn [t]. rewrite distance_along_x by reflexivity.
  rewrite start_is. cbn [position x y t].
  replace (0 - (0 + 1)) with (-1) by lra. rewrite Rabs_left by lra. lra.
Qed.

Lemma blocked_now :
  blocked town 0 {| x := 0 + 1; y := 0 |} (Some (_id me)) = Ok (Some PlayerBlocked).
Proof.
  change (_id me) with "me"%string.
  rewrite blocked_on_lane by (cbn; lra). rewrite passing_there_now.
  rewrite distance_along_x by reflexivity. cbn [Location.toPoint Location.x x].
  replace (1 - (0 + 1)) with 0 by lra. rewrite Rabs_R0.
  unfold COLLISION_THRESHOLD. rewrite bool_decide_eq_true_2 by lra. reflexivity.
Qed.

Lemma blocked_on_arrival :
  blocked town (t toFarEnd) {| x := 0 + 1; y := 0 |} (Some (_id me)) = Ok None.
Proof.
  change (_id me) with "me"%string.
  rewrite blocked_on_lane by (cbn; lra).
  rewrite passing_there_later by (rewrite toFarEnd_arrival; lra).
  rewrite distance_along_x by reflexivity. cbn [Location.toPoint Location.x x].
  replace (50 - (0 + 1)) with 49 by lra. rewrite Rabs_right by lra.
  unfold COLLISION_THRESHOLD. rewrite bool_decide_eq_false_2 by lra. reflexivity.
Qed.

Lemma start_neighbors :
  neighbors start
  = [ ({| x := 0 + 1; y := 0 |}, {| dx := 1; dy := 0 |});
      ({| x := 0 - 1; y := 0 |}, {| dx := -1; dy := 0 |});
      ({| x := 0; y := 0 + 1 |}, {| dx := 0; dy := 1 |});
      ({| x := 0; y := 0 - 1 |}, {| dx := 0; dy := -1 |}) ].
Proof. apply (neighbors_aligned start 0 0); reflexivity. Qed.

(** From the start, the code finds every neighbour blocked. *)
Lemma explore_start : explore 1 town 0 me farEnd [] start = Ok ([], []).
Proof.
  unfold explore. rewrite start_neighbors. cbn [exploreNeighbors].
  rewrite blocked_now.
  rewrite !blocked_outside by (cbn; lra).
  reflexivity.
Qed.

(** Tested on arrival, the tile (1, 0) is free. *)
Lemma exploreAtArrival_start :
  exploreAtArrival 1 town me farEnd [] start
  = Ok ([toFarEnd], [({| x := 0 + 1; y := 0 |}, toFarEnd)]).
Proof.
  unfold exploreAtArrival. rewrite start_neighbors. cbn [exploreNeighborsAtArrival].
  fold toFarEnd. rewrite blocked_on_arrival. cbn [minDistanceAt app].
  rewrite !blocked_outside by (cbn; lra).
  reflexivity.
Qed.

(** C1, as stated, fails: the other player stands on the tile (1, 0) at
    the query time 0 and has left it long before the player would arrive
    (at time 1000).  The code tests the tile against the positions at time
    0 and drops it; tested at its arrival time, as the claim has it, the
    tile is free and the candidate is kept. *)
Lemma blocked_at_arrival_counterexample :
  explore 1 town 0 me farEnd [] start = Ok ([], []) /\
  exploreAtArrival 1 town me farEnd [] start
  = Ok ([toFarEnd], [({| x := 0 + 1; y := 0 |}, toFarEnd)]) /\
  t toFarEnd = 1000 /\
  blocked town 0 (position toFarEnd) (Some (_id me)) = Ok (Some PlayerBlocked) /\
  blocked town (t toFarEnd) (position toFarEnd) (Some (_id me)) = Ok None /\
  explore 1 town 0 me farEnd [] start <> exploreAtArrival 1 town me farEnd [] start.
Proof.
  split; [exact explore_start|]. split; [exact exploreAtArrival_start|].
  split; [exact toFarEnd_arrival|]. split; [exact blocked_now|].
  split; [exact blocked_on_arrival|].
  rewrite explore_start, exploreAtArrival_start. discriminate.
Qed.

(** With the tile (1, 0) taken at the query time, the search from (0, 0)
    explores the start only and the open set runs empty. *)
Lemma search_on_blocked_lane :
  search 1 town 0 me farEnd 1 start start [] (MinHeap.empty nullCandidate) []
  = Done {| current := None; bestCandidate := start; explored := [start] |}.
Proof.
  cbn [search]. rewrite explore_start.
  assert (Hfar : pointsEqual (position start) farEnd = false).
  { rewrite start_is. unfold pointsEqual, farEnd. cbn [position x y].
    rewrite (bool_decide_eq_false_2 (0 = 1)) by lra. reflexivity. }
  rewrite Hfar. rewrite decide_False by lra. reflexivity.
Qed.

Example findRoute_no_route : findRoute 1 town 0 me farEnd 1 = Done None.
Proof.
  unfold findRoute. fold start. rewrite search_on_blocked_lane. unfold route.
  cbn [current bestCandidate]. rewrite decide_True by reflexivity. reflexivity.
Qed.

(** Five time units later the tile is free, and the destination is
    reached in one step: the route is the start, then the destination. *)
Definition laterStart : PathCandidate := startingCandidate town 5 me farEnd.

Definition arrived : PathCandidate :=
  candidateTo 1 farEnd laterStart {| x := 0 + 1; y := 0 |} {| dx := 1; dy := 0 |}.

Lemma blocked_later :
  blocked town 5 {| x := 0 + 1; y := 0 |} (Some (_id me)) = Ok None.
Proof.
  change (_id me) with "me"%string.
  rewrite blocked_on_lane by (cbn; lra).
  rewrite passing_there_later by lra.
  rewrite distance_along_x by reflexivity. cbn [Location.toPoint Location.x x].
  replace (50 - (0 + 1)) with 49 by lra. rewrite Rabs_right by lra.
  unfold COLLISION_THRESHOLD. rewrite bool_decide_eq_false_2 by lra. reflexivity.
Qed.

Lemma explore_laterStart :
  explore 1 town 5 me farEnd [] laterStart
  = Ok ([arrived], [({| x := 0 + 1; y := 0 |}, arrived)]).
Proof.
  unfold explore. rewrite (neighbors_aligned laterStart 0 0) by reflexivity.
  cbn [exploreNeighbors]. rewrite blocked_later. cbn [minDistanceAt app].
  rewrite !blocked_outside by (cbn; lra).
  reflexivity.
Qed.

Example findRoute_reaches_far_end :
  findRoute 1 town 5 me farEnd 2
  = Done (Some {| path :=
                    [ {| Geometry.position := {| x := 0; y := 0 |};
                         Geometry.facing := {| dx := 1; dy := 0 |};
                         Geometry.t := 5 |};
                      {| Geometry.position := {| x := 0 + 1; y := 0 |};
                         Geometry.facing := {| dx := 1; dy := 0 |};
                         Geometry.t := t arrived |} ];
                  newDestination := None |}).
Proof.
  unfold findRoute. fold laterStart. cbn [search].
  assert (Hfar : pointsEqual (position laterStart) farEnd = false).
  { unfold pointsEqual, farEnd, laterStart, startingCandidate.
    rewrite passing_here. cbn [position x y Location.x Location.y].
    rewrite (bool_decide_eq_false_2 (0 = 1)) by lra. reflexivity. }
  rewrite Hfar. rewrite decide_False by lra. rewrite explore_laterStart.
  cbn [fold_left].
  assert (Hpop : MinHeap.pop costGreater nullCandidate
                   (MinHeap.push costGreater nullCandidate arrived
                      (MinHeap.empty nullCandidate))
                 = (Some arrived,
                    {| MinHeap.tree := [nullCandidate; arrived]; MinHeap.endIndex := 1 |}))
    by reflexivity.
  rewrite Hpop.
  assert (Hnear : pointsEqual (position arrived) farEnd = true).
  { unfold pointsEqual, farEnd, arrived, candidateTo. cbn [position x y].
    rewrite (bool_decide_eq_true_2 (0 + 1 = 1)) by lra.
    rewrite (bool_decide_eq_true_2 (0 = 0)) by lra. reflexivity. }
  rewrite Hnear. reflexivity.
Qed.

(** A destination beyond the end of the lane cannot be reached: the search
    explores the start, the tile (1, 0) and the start again, and stops at
    the tile (1, 0), the closest it came. *)
Definition beyond : Point := {| x := 5; y := 0 |}.

Definition s0 : PathCandidate := startingCandidate town 5 me beyond.

Definition c1 : PathCandidate :=
  candidateTo 1 beyond s0 {| x := 0 + 1; y := 0 |} {| dx := 1; dy := 0 |}.

Definition c2 : PathCandidate :=
  candidateTo 1 beyond c1 {| x := 1 - 1; y := 0 |} {| dx := -1; dy := 0 |}.

Definition c3 : PathCandidate :=
  candidateTo 1 beyond c2 {| x := 0 + 1; y := 0 |} {| dx := 1; dy := 0 |}.

Lemma blocked_later_free (pos : Point) :
  0 <= x pos < 2 -> y pos = 0 ->
  blocked town 5 pos (Some (_id me)) = Ok None.
Proof.
  intros Hx Hy. change (_id me) with "me"%string.
  rewrite blocked_on_lane by lra.
  rewrite passing_there_later by lra.
  rewrite distance_along_x by (cbn; lra). cbn [Location.toPoint Location.x x].
  rewrite Rabs_right by lra.
  unfold COLLISION_THRESHOLD. rewrite bool_decide_eq_false_2 by lra. reflexivity.
Qed.

Lemma manhattan_to_beyond (p : Point) :
  x p <= 5 -> y p = 0 -> manhattanDistance p beyond = 5 - x p.
Proof.
  intros Hx Hy. unfold manhattanDistance, beyond. cbn [x y]. rewrite Hy.
  rewrite (Rabs_left1 (x p - 5)) by lra.
  replace (0 - 0) with 0 by lra. rewrite Rabs_R0. lra.
Qed.

Lemma step_along_x (a b : R) : distance {| x := a; y := 0 |} {| x := b; y := 0 |} = Rabs (a - b).
Proof. apply distance_along_x. reflexivity. Qed.

Lemma s0_is :
  s0 = {| position := {| x := 0; y := 0 |}; facing := {| dx := 1; dy := 0 |};
          t := 5; length := 0;
          cost := manhattanDistance {| x := 0; y := 0 |} beyond; prev := None |}.
Proof. reflexivity. Qed.

Lemma length_c1 : length c1 = 1.
Proof.
  unfold c1, candidateTo. cbn [length]. rewrite s0_is. cbn [position length].
  rewrite step_along_x. replace (0 - (0 + 1)) with (-1) by lra.
  rewrite Rabs_left by lra. lra.
Qed.

Lemma cost_c1 : cost c1 = 5.
Proof.
  pose proof length_c1 as Hl. unfold c1, candidateTo in *. cbn [length cost] in *.
  rewrite Hl. rewrite manhattan_to_beyond by (cbn; lra). cbn [x]. lra.
Qed.

Lemma length_c2 : length c2 = 2.
Proof.
  unfold c2, candidateTo. cbn [length]. rewrite length_c1.
  unfold c1, candidateTo. cbn [position]. rewrite step_along_x.
  replace (0 + 1 - (1 - 1)) with 1 by lra. rewrite Rabs_R1. lra.
Qed.

Lemma cost_c3 : cost c3 = 7.
Proof.
  unfold c3, candidateTo. cbn [cost]. rewrite length_c2.
  unfold c2, candidateTo. cbn [position]. rewrite step_along_x.
  replace (1 - 1 - (0 + 1)) with (-1) by lra. rewrite Rabs_left by lra.
  rewrite manhattan_to_beyond by (cbn; lra). cbn [x]. lra.
Qed.

Lemma explore_s0 :
  explore 1 town 5 me beyond [] s0 = Ok ([c1], [({| x := 0 + 1; y := 0 |}, c1)]).
Proof.
  unfold explore. rewrite (neighbors_aligned s0 0 0) by reflexivity.
  cbn [exploreNeighbors]. rewrite blocked_later_free by (cbn; lra).
  cbn [minDistanceAt app].
  rewrite !blocked_outside by (cbn; lra).
  reflexivity.
Qed.

Lemma explore_c1 :
  explore 1 town 5 me beyond [({| x := 0 + 1; y := 0 |}, c1)] c1
  = Ok ([c2], [({| x := 1 - 1; y := 0 |}, c2); ({| x := 0 + 1; y := 0 |}, c1)]).
Proof.
  unfold explore. rewrite (neighbors_aligned c1 1 0) by (cbn; lra).
  cbn [exploreNeighbors].
  rewrite (blocked_outside town 5 {| x := 1 + 1; y := 0 |}) by (cbn; lra).
  rewrite blocked_later_free by (cbn; lra).
  cbn [minDistanceAt x y]. rewrite decide_False by lra. cbn [app].
  rewrite !blocked_outside by (cbn; lra).
  reflexivity.
Qed.

Lemma explore_c2 :
  explore 1 town 5 me beyond
          [({| x := 1 - 1; y := 0 |}, c2); ({| x := 0 + 1; y := 0 |}, c1)] c2
  = Ok ([], [({| x := 1 - 1; y := 0 |}, c2); ({| x := 0 + 1; y := 0 |}, c1)]).
Proof.
  unfold explore. rewrite (neighbors_aligned c2 0 0) by (cbn; lra).
  cbn [exploreNeighbors].
  rewrite blocked_later_free by (cbn; lra).
  cbn [minDistanceAt x y]. rewrite decide_False by lra.
  rewrite decide_True by (split; reflexivity).
  fold c3. rewrite cost_c1, cost_c3. rewrite bool_decide_eq_true_2 by lra.
  rewrite !blocked_outside by (cbn; lra).
  reflexivity.
Qed.

Lemma search_beyond :
  search 1 town 5 me beyond 3 s0 s0 [] (MinHeap.empty nullCandidate) []
  = Done {| current := None; bestCandidate := c1; explored := [s0; c1; c2] |}.
Proof.
  assert (Hfar : forall c, x (position c) <> 5 -> pointsEqual (position c) beyond = false).
  { intros c Hc. unfold pointsEqual, beyond. cbn [x y].
    rewrite (bool_decide_eq_false_2 _ Hc). reflexivity. }
  assert (H0 : manhattanDistance (position s0) beyond = 5).
  { rewrite s0_is. rewrite manhattan_to_beyond by (cbn; lra). cbn. lra. }
  assert (H1 : manhattanDistance (position c1) beyond = 4).
  { rewrite manhattan_to_beyond by (cbn; lra). cbn. lra. }
  assert (H2 : manhattanDistance (position c2) beyond = 5).
  { rewrite manhattan_to_beyond by (cbn; lra). cbn. lra. }
  cbn [search].
  rewrite (Hfar s0) by (rewrite s0_is; cbn; lra). rewrite decide_False by lra.
  rewrite explore_s0. cbn [fold_left].
  change (MinHeap.pop costGreater nullCandidate
            (MinHeap.push costGreater nullCandidate c1 (MinHeap.empty nullCandidate)))
    with (Some c1, {| MinHeap.tree := [nullCandidate; c1]; MinHeap.endIndex := 1 |}).
  cbn iota beta.
  rewrite (Hfar c1) by (cbn; lra). rewrite H0, H1. rewrite decide_True by lra.
  rewrite explore_c1. cbn [fold_left].
  change (MinHeap.pop costGreater nullCandidate
            (MinHeap.push costGreater nullCandidate c2
               {| MinHeap.tree := [nullCandidate; c1]; MinHeap.endIndex := 1 |}))
    with (Some c2, {| MinHeap.tree := [nullCandidate; c2]; MinHeap.endIndex := 1 |}).
  cbn iota beta.
  rewrite (Hfar c2) by (cbn; lra). rewrite H1, H2. rewrite decide_False by lra.
  rewrite explore_c2. reflexivity.
Qed.

Example findRoute_stops_at_closest :
  findRoute 1 town 5 me beyond 3
  = Done (Some {| path :=
                    [ {| Geometry.position := {| x := 0; y := 0 |};
                         Geometry.facing := {| dx := 1; dy := 0 |};
                         Geometry.t := 5 |};
                      {| Geometry.position := {| x := 0 + 1; y := 0 |};
                         Geometry.facing := {| dx := 1; dy := 0 |};
                         Geometry.t := t c1 |} ];
                  newDestination := Some {| x := 0 + 1; y := 0 |} |}).
Proof.
  unfold findRoute. fold s0. rewrite search_beyond. unfold route.
  cbn [current bestCandidate]. rewrite length_c1. rewrite decide_False by lra.
  reflexivity.
Qed.


(** ** The routes [findRoute] returns *)

Lemma distance_along_y (p0 p1 : Point) :
  x p0 = x p1 -> distance p0 p1 = Rabs (y p0 - y p1).
Proof.
  intros Hx. unfold distance. rewrite Hx.
  replace ((x p1 - x p1) * (x p1 - x p1) + (y p0 - y p1) * (y p0 - y p1))
    with (Rsqr (y p0 - y p1)) by (unfold Rsqr; lra).
  apply sqrt_Rsqr_abs.
Qed.

Lemma costGreater_asym (a b : PathCandidate) :
  costGreater a b = true -> costGreater b a = false.
Proof.
  unfold costGreater. rewrite bool_decide_eq_true, bool_decide_eq_false. lra.
Qed.

Lemma costGreater_negtrans (a b c : PathCandidate) :
  costGreater a b = false -> costGreater b c = false -> costGreater a c = false.
Proof.
  unfold costGreater. rewrite !bool_decide_eq_false. lra.
Qed.

(** A step to a neighbour: at most one tile long, along the facing that
    comes with it, which is one of the four directions of the grid. *)
Lemma neighbors_step (c : PathCandidate) (p : Point) (f : Vector) :
  (p, f) ∈ neighbors c ->
  let d := distance (position c) p in
  0 < d <= 1 /\
  x p = x (position c) + d * dx f /\
  y p = y (position c) + d * dy f /\
  manhattanDistance (position c) p = d.
Proof.
  unfold neighbors. set (cx := x (position c)). set (cy := y (position c)).
  pose proof (floor_bounds cx) as Hfx. pose proof (floor_bounds cy) as Hfy.
  intros Hin. cbv zeta.
  assert (Hdx : forall px,
            distance (position c) {| x := px; y := cy |} = Rabs (cx - px))
    by (intros px; apply distance_along_x; reflexivity).
  assert (Hmx : forall px,
            manhattanDistance (position c) {| x := px; y := cy |} = Rabs (cx - px)).
  { intros px. unfold manhattanDistance. cbn [x y]. fold cx cy.
    replace (cy - cy) with 0 by lra. rewrite Rabs_R0. lra. }
  assert (Hdy : forall py,
            distance (position c) {| x := cx; y := py |} = Rabs (cy - py))
    by (intros py; apply distance_along_y; reflexivity).
  assert (Hmy : forall py,
            manhattanDistance (position c) {| x := cx; y := py |} = Rabs (cy - py)).
  { intros py. unfold manhattanDistance. cbn [x y]. fold cx cy.
    replace (cx - cx) with 0 by lra. rewrite Rabs_R0. lra. }
  rewrite !elem_of_app in Hin. destruct Hin as [Hin|[Hin|Hin]].
  - destruct (decide (cx <> floor cx)) as [Hne|]; [|inversion Hin].
    apply elem_of_cons in Hin as [Heq|Hin];
      [|apply list_elem_of_singleton in Hin as Heq]; inversion Heq; subst p f;
      rewrite Hdx, Hmx; cbn [x y dx dy]; fold cx cy.
    + rewrite Rabs_right by lra. repeat split; lra.
    + rewrite Rabs_left by lra. repeat split; lra.
  - destruct (decide (cy <> floor cy)) as [Hne|]; [|inversion Hin].
    apply elem_of_cons in Hin as [Heq|Hin];
      [|apply list_elem_of_singleton in Hin as Heq]; inversion Heq; subst p f;
      rewrite Hdy, Hmy; cbn [x y dx dy]; fold cx cy.
    + rewrite Rabs_right by lra. repeat split; lra.
    + rewrite Rabs_left by lra. repeat split; lra.
  - destruct (decide (cx = floor cx /\ cy = floor cy)) as [_|]; [|inversion Hin].
    repeat (apply elem_of_cons in Hin as [Heq|Hin];
            [inversion Heq; subst p f|]); [| | | |inversion Hin].
    + rewrite Hdx, Hmx; cbn [x y dx dy]; fold cx cy.
      rewrite Rabs_left by lra. repeat split; lra.
    + rewrite Hdx, Hmx; cbn [x y dx dy]; fold cx cy.
      rewrite Rabs_right by lra. repeat split; lra.
    + rewrite Hdy, Hmy; cbn [x y dx dy]; fold cx cy.
      rewrite Rabs_left by lra. repeat split; lra.
    + rewrite Hdy, Hmy; cbn [x y dx dy]; fold cx cy.
      rewrite Rabs_right by lra. repeat split; lra.
Qed.

Lemma manhattan_triangle (p q r : Point) :
  manhattanDistance p r <= manhattanDistance p q + manhattanDistance q r.
Proof.
  unfold manhattanDistance.
  replace (x p - x r) with ((x p - x q) + (x q - x r)) by ring.
  replace (y p - y r) with ((y p - y q) + (y q - y r)) by ring.
  pose proof (Rabs_triang (x p - x q) (x q - x r)).
  pose proof (Rabs_triang (y p - y q) (y q - y r)).
  lra.
Qed.

Section Route.

Variable movementSpeed : R.
Variable game : AiTown.
Variable now : R.
Variable player : Player.
Variable destination : Point.

(** The candidates the search can come by: the starting candidate, and
    the candidate [explore] builds for a neighbour of such a candidate that
    [blocked] lets through. *)
Inductive Reachable : PathCandidate -> Prop :=
| reach_start : Reachable (startingCandidate game now player destination)
| reach_step (c : PathCandidate) (p : Point) (f : Vector) :
    Reachable c -> (p, f) ∈ neighbors c ->
    blocked game now p (Some (_id player)) = Ok None ->
    Reachable (candidateTo movementSpeed destination c p f).

(** One step of a route, from the path point [a] to the next, [b]: it is
    at most one tile long, goes the way [a] faces, takes the time the
    movement speed gives it, and ends where [blocked] finds nothing at the
    time of the query. *)
Definition stepTo (a b : PathPoint) : Prop :=
  let d := distance (Geometry.position a) (Geometry.position b) in
  0 < d <= 1 /\
  x (Geometry.position b) = x (Geometry.position a) + d * dx (Geometry.facing a) /\
  y (Geometry.position b) = y (Geometry.position a) + d * dy (Geometry.facing a) /\
  Geometry.t b = Geometry.t a + d / movementSpeed * 1000 /\
  blocked game now (Geometry.position b) (Some (_id player)) = Ok None.

(** The books of a candidate: its cost is its length plus what remains,
    its time is the time of the query plus the time its length takes, and
    its length is no less than the Manhattan distance it covered. *)
Definition booked (c : PathCandidate) : Prop :=
  cost c = length c + manhattanDistance (position c) destination /\
  t c = now + length c / movementSpeed * 1000 /\
  manhattanDistance (position (startingCandidate game now player destination)) (position c)
  <= length c.

Lemma reachable_booked (c : PathCandidate) : Reachable c -> booked c.
Proof.
  induction 1 as [|c p f Hc (Hcost & Ht & Hlen) Hin Hfree].
  - unfold booked, startingCandidate. cbn [cost length t position]. split; [lra|].
    split; [unfold Rdiv; lra|].
    unfold manhattanDistance. cbn [x y].
    replace (Location.x (locations game now (locationId player))
             - Location.x (locations game now (locationId player))) with 0 by lra.
    replace (Location.y (locations game now (locationId player))
             - Location.y (locations game now (locationId player))) with 0 by lra.
    rewrite Rabs_R0. lra.
  - destruct (neighbors_step c p f Hin) as (Hd & _ & _ & Hman).
    unfold booked, candidateTo. cbn [cost length t position].
    split; [reflexivity|]. split; [rewrite Ht; unfold Rdiv; ring|].
    pose proof (manhattan_triangle
                  (position (startingCandidate game now player destination))
                  (position c) p) as Htri.
    lra.
Qed.

(** The cost of a candidate is no less than the cost of the candidate
    it was reached from. *)
Lemma candidateTo_cost (c : PathCandidate) (p : Point) (f : Vector) :
  booked c -> (p, f) ∈ neighbors c ->
  cost c <= cost (candidateTo movementSpeed destination c p f).
Proof.
  intros (Hcost & _) Hin. destruct (neighbors_step c p f Hin) as (_ & _ & _ & Hman).
  unfold candidateTo. cbn [cost]. rewrite Hcost.
  pose proof (manhattan_triangle (position c) p destination). lra.
Qed.

(** The path [findRoute] builds from a candidate back to the start. *)
Lemma reachable_path (c : PathCandidate) :
  Reachable c ->
  forall facing0,
    let path0 := rev (densePathFrom c facing0) in
    (exists facing1,
        path0 !! 0%nat
        = Some {| Geometry.position :=
                    position (startingCandidate game now player destination);
                  Geometry.facing := facing1; Geometry.t := now |}) /\
    last path0 = Some {| Geometry.position := position c; Geometry.facing := facing0;
                         Geometry.t := t c |} /\
    (forall i a b, path0 !! i = Some a -> path0 !! S i = Some b -> stepTo a b) /\
    (c <> startingCandidate game now player destination -> (2 <= List.length path0)%nat).
Proof.
  induction 1 as [|c p f Hc IH Hin Hfree]; intros facing0; cbv zeta.
  - cbn [densePathFrom startingCandidate prev rev app position t].
    split; [eexists; reflexivity|]. split; [reflexivity|]. split.
    + intros i a b _ Hb. destruct i; discriminate.
    + intros Hne. congruence.
  - destruct (IH f) as ((facing1 & Hfirst) & Hlast & Hsteps & _).
    set (path1 := rev (densePathFrom c f)) in *.
    assert (Hpath : rev (densePathFrom (candidateTo movementSpeed destination c p f) facing0)
                    = path1 ++ [{| Geometry.position := p; Geometry.facing := facing0;
                                   Geometry.t := t (candidateTo movementSpeed destination c p f) |}]).
    { reflexivity. }
    rewrite Hpath.
    assert (Hlen1 : (1 <= List.length path1)%nat).
    { apply lookup_lt_Some in Hfirst. lia. }
    split; [|split; [|split]].
    + exists facing1. rewrite lookup_app_l by lia. exact Hfirst.
    + rewrite last_snoc. reflexivity.
    + intros i a b Ha Hb.
      destruct (decide (S i < List.length path1)%nat) as [Hin1|Hend].
      * rewrite lookup_app_l in Ha, Hb by lia. apply (Hsteps i a b Ha Hb).
      * assert (Hi : S i = List.length path1).
        { apply lookup_lt_Some in Hb. rewrite length_app in Hb. cbn in Hb. lia. }
        rewrite lookup_app_l in Ha by lia.
        rewrite lookup_app_r in Hb by lia.
        replace (S i - List.length path1)%nat with 0%nat in Hb by lia.
        cbn in Hb. inversion Hb; subst b. clear Hb.
        rewrite last_lookup in Hlast.
        replace (Init.Nat.pred (List.length path1)) with i in Hlast by lia.
        rewrite Ha in Hlast. inversion Hlast; subst a. clear Hlast.
        destruct (neighbors_step c p f Hin) as (Hd & Hx & Hy & _).
        unfold stepTo. cbn [Geometry.position Geometry.facing Geometry.t].
        split; [exact Hd|]. split; [exact Hx|]. split; [exact Hy|].
        split; [reflexivity|exact Hfree].
    + intros _. rewrite length_app. cbn. lia.
Qed.

(** Steps that take time make the timestamps increase. *)
Lemma steps_increasing (path0 : Path) :
  0 < movementSpeed ->
  (forall i a b, path0 !! i = Some a -> path0 !! S i = Some b -> stepTo a b) ->
  increasing path0.
Proof.
  intros Hspeed. unfold increasing.
  induction path0 as [|a path0 IH]; intros Hsteps; [constructor|].
  constructor.
  - apply IH. intros i u v Hu Hv. apply (Hsteps (S i) u v); assumption.
  - destruct path0 as [|b path0]; constructor.
    destruct (Hsteps 0%nat a b eq_refl eq_refl) as (Hd & _ & _ & Ht & _).
    rewrite Ht.
    assert (0 < distance (Geometry.position a) (Geometry.position b) / movementSpeed).
    { apply Rdiv_lt_0_compat; lra. }
    lra.
Qed.

(** What the loop of [findRoute] keeps: the candidate in hand, the best
    one and those in the heap can be come by; none in the heap costs less
    than the one in hand; and the candidates taken in hand so far came in
    order of cost. *)
Lemma search_reachable :
  forall fuel c b minDistances minheap ex ended bag,
    Reachable c -> Reachable b ->
    MinHeap.holds costGreater nullCandidate minheap bag ->
    Forall Reachable bag ->
    Forall (fun e => cost c <= cost e) bag ->
    Forall Reachable ex ->
    Forall (fun e => cost e <= cost c) ex ->
    Sorted (fun a b => cost a <= cost b) ex ->
    search movementSpeed game now player destination fuel c b minDistances minheap ex
    = Done ended ->
    Reachable (bestCandidate ended) /\
    (forall reached, current ended = Some reached -> Reachable reached) /\
    Forall Reachable (explored ended) /\
    Sorted (fun a b => cost a <= cost b) (explored ended).
Proof.
  induction fuel as [|fuel IH];
    intros c b md h ex ended bag Hc Hb Hheld Hbag Hmin Hex Hbefore Hsorted Hrun;
    [discriminate|].
  cbn [search] in Hrun.
  assert (Hex1 : Forall Reachable (ex ++ [c])).
  { apply Forall_app. split; [exact Hex|]. constructor; [exact Hc|constructor]. }
  assert (Hsorted1 : Sorted (fun a b => cost a <= cost b) (ex ++ [c])).
  { clear -Hbefore Hsorted. induction ex as [|e ex IHex]; cbn.
    - constructor; constructor.
    - apply Forall_cons in Hbefore as [He Hbefore].
      inversion Hsorted as [|? ? Hs Hhd]; subst.
      constructor; [apply IHex; assumption|].
      destruct ex as [|e' ex]; cbn; constructor; [exact He|].
      inversion Hhd; assumption. }
  destruct (pointsEqual (position c) destination).
  - inversion Hrun; subst ended; cbn [current bestCandidate explored].
    split; [exact Hb|]. split; [intros r Hr; inversion Hr; subst; exact Hc|].
    split; assumption.
  - set (b1 := if decide (manhattanDistance (position c) destination
                          < manhattanDistance (position b) destination)
               then c else b) in *.
    assert (Hb1 : Reachable b1) by (unfold b1; destruct (decide _); assumption).
    destruct (explore movementSpeed game now player destination md c)
      as [[candidates md1]|msg] eqn:Hexplore; [|discriminate].
    assert (Hcands : Forall (fun e => Reachable e /\ cost c <= cost e) candidates).
    { apply Forall_forall. intros e He.
      destruct (exploreNeighbors_tested _ _ _ _ _ _ _ _ _ _ _ Hexplore e He)
        as [Hn|(Hfree & p & f & Hin & ->)]; [inversion Hn|].
      split.
      - apply reach_step; [exact Hc|exact Hin|].
        unfold candidateTo in Hfree. cbn [position] in Hfree. exact Hfree.
      - apply candidateTo_cost; [apply reachable_booked, Hc|exact Hin]. }
    assert (Hpushed :
              MinHeap.holds costGreater nullCandidate
                (fold_left (fun h candidate =>
                              MinHeap.push costGreater nullCandidate candidate h)
                           candidates h)
                (bag ++ candidates)).
    { clear -Hheld. revert h bag Hheld.
      induction candidates as [|e candidates IHc]; intros h bag Hheld.
      - rewrite app_nil_r. exact Hheld.
      - cbn [fold_left]. replace (bag ++ e :: candidates) with ((bag ++ [e]) ++ candidates)
          by (rewrite <- app_assoc; reflexivity).
        apply IHc.
        apply (MinHeap.holds_push costGreater nullCandidate
                 costGreater_asym costGreater_negtrans). exact Hheld. }
    pose proof (MinHeap.holds_pop costGreater nullCandidate
                  costGreater_asym costGreater_negtrans _ _ Hpushed) as Hpop.
    destruct (MinHeap.pop costGreater nullCandidate _) as [[next|] h2].
    + destruct Hpop as (bag' & Hperm & Hleast & Hheld').
      assert (Hall : Forall (fun e => Reachable e /\ cost c <= cost e) (bag ++ candidates)).
      { apply Forall_app. split; [|exact Hcands].
        apply Forall_forall. intros e He. split.
        - rewrite Forall_forall in Hbag. apply Hbag, He.
        - rewrite Forall_forall in Hmin. apply Hmin, He. }
      rewrite Hperm in Hall. apply Forall_cons in Hall as [[Hnext Hcost] Hall].
      apply (IH next b1 md1 h2 (ex ++ [c]) ended bag'); try assumption.
      * eapply Forall_impl; [exact Hall|]. intros e [He _]. exact He.
      * eapply Forall_impl; [exact Hleast|]. intros e He.
        unfold MinHeap.notGreater, costGreater in He.
        apply bool_decide_eq_false in He. lra.
      * apply Forall_app. split.
        -- eapply Forall_impl; [exact Hbefore|]. intros e He. cbn in He. lra.
        -- constructor; [exact Hcost|constructor].
    + inversion Hrun; subst ended; cbn [current bestCandidate explored].
      split; [exact Hb1|]. split; [discriminate|]. split; assumption.
Qed.

(** A step of a route, as far as it does not rest on the step having a
    length: at most one tile long, along the facing of [a], taking the time
    the movement speed gives it, ending where [blocked] finds nothing at the
    time of the query. *)
Definition walkable (a b : PathPoint) : Prop :=
  let d := distance (Geometry.position a) (Geometry.position b) in
  d <= 1 /\
  x (Geometry.position b) = x (Geometry.position a) + d * dx (Geometry.facing a) /\
  y (Geometry.position b) = y (Geometry.position a) + d * dy (Geometry.facing a) /\
  Geometry.t b = Geometry.t a + d / movementSpeed * 1000 /\
  blocked game now (Geometry.position b) (Some (_id player)) = Ok None.

Lemma stepTo_walkable (a b : PathPoint) : stepTo a b -> walkable a b.
Proof.
  intros (Hd & Hx & Hy & Ht & Hfree). unfold walkable. cbv zeta.
  split; [lra|]. split; [exact Hx|]. split; [exact Hy|]. split; [exact Ht|exact Hfree].
Qed.

Lemma increasing_never_decreases (path0 : Path) :
  increasing path0 -> Sorted (fun a b => Geometry.t a <= Geometry.t b) path0.
Proof.
  unfold increasing. induction 1 as [|a path0 _ IH Hhd]; constructor; [exact IH|].
  destruct Hhd; constructor. lra.
Qed.

(** X23: a route [findRoute] returns for a destination the player is not
    at yet.  Its path starts where the player is, at the time of the query,
    and has two points at least; every step from a point to the next is at
    most one tile long, goes the way the point faces, takes the time the
    movement speed gives it and ends on a position that [blocked] found free
    at the time of the query; and the timestamps never decrease along the
    path. *)
Theorem findRoute_route_is_walkable (fuel : nat) (r : Route) :
  0 < movementSpeed ->
  pointsEqual (position (startingCandidate game now player destination)) destination
  = false ->
  findRoute movementSpeed game now player destination fuel = Done (Some r) ->
  (exists facing1,
      path r !! 0%nat
      = Some {| Geometry.position :=
                  position (startingCandidate game now player destination);
                Geometry.facing := facing1; Geometry.t := now |}) /\
  (2 <= List.length (path r))%nat /\
  (forall i a b, path r !! i = Some a -> path r !! S i = Some b -> walkable a b) /\
  Sorted (fun a b => Geometry.t a <= Geometry.t b) (path r).
Proof.
  intros Hspeed Hfar Hrun. unfold findRoute in Hrun.
  set (start0 := startingCandidate game now player destination) in *.
  destruct (search movementSpeed game now player destination fuel start0 start0 []
                   (MinHeap.empty nullCandidate) []) as [ended| |] eqn:Hsearch;
    [|discriminate..].
  destruct (search_reachable fuel start0 start0 [] (MinHeap.empty nullCandidate) []
              ended [] reach_start reach_start (MinHeap.holds_empty _ _))
    as (Hbest & Hreached & _ & _); try (constructor; fail); [exact Hsearch|].
  pose proof (search_spec movementSpeed game now player destination fuel start0 start0 []
                (MinHeap.empty nullCandidate) [] ended (or_introl eq_refl)) as Hspec.
  assert (Hfrom : exists c,
             Reachable c /\ c <> start0 /\ path r = rev (densePathFrom c (facing c))).
  { inversion Hrun as [Hroute]. unfold route in Hroute.
    destruct (current ended) as [reached|] eqn:Hcur.
    - destruct Hspec as [Hat _]; [intros e He; inversion He|exact Hsearch|].
      inversion Hroute; subst r. exists reached.
      split; [apply Hreached; reflexivity|]. split; [|reflexivity].
      intros ->. congruence.
    - destruct (decide (length (bestCandidate ended) = 0)) as [|Hlen]; [discriminate|].
      inversion Hroute; subst r. exists (bestCandidate ended).
      split; [exact Hbest|]. split; [|reflexivity].
      intros Heq. apply Hlen. rewrite Heq. reflexivity. }
  destruct Hfrom as (c & Hc & Hne & Hpath).
  destruct (reachable_path c Hc (facing c)) as (Hfirst & _ & Hsteps & Hlen).
  rewrite <- Hpath in Hfirst, Hsteps, Hlen.
  pose proof (steps_increasing (path r) Hspeed Hsteps) as Hinc.
  split; [exact Hfirst|]. split; [exact (Hlen Hne)|]. split.
  - intros i a b Ha Hb. apply stepTo_walkable, (Hsteps i); assumption.
  - apply increasing_never_decreases, Hinc.
Qed.

(** X24: the search of [findRoute] takes candidates in hand in order of
    cost: the cost of each candidate it explores is no less than the cost of
    the one explored before it.  And the books of every candidate it
    explores are right: its cost is its length plus the Manhattan distance
    that remains, its time is the time of the query plus the time its
    length takes at the movement speed, and its length is no less than the
    Manhattan distance between the start and its position. *)
Theorem search_explores_by_cost (fuel : nat) (ended : SearchEnd) :
  let start0 := startingCandidate game now player destination in
  search movementSpeed game now player destination fuel start0 start0 []
         (MinHeap.empty nullCandidate) [] = Done ended ->
  Sorted (fun a b => cost a <= cost b) (explored ended) /\
  Forall (fun c =>
            cost c = length c + manhattanDistance (position c) destination /\
            t c = now + length c / movementSpeed * 1000 /\
            manhattanDistance (position start0) (position c) <= length c)
         (explored ended).
Proof.
  intros start0 Hsearch.
  destruct (search_reachable fuel start0 start0 [] (MinHeap.empty nullCandidate) []
              ended [] reach_start reach_start (MinHeap.holds_empty _ _))
    as (_ & _ & Hall & Hsorted); try (constructor; fail); [exact Hsearch|].
  split; [exact Hsorted|].
  eapply Forall_impl; [exact Hall|]. intros c Hc. apply (reachable_booked c Hc).
Qed.

(** X25: asked for a route to the position the player is at, [findRoute]
    returns (as soon as its loop runs once) a path of one point, the start,
    with no new destination; [pathPosition] throws on such a path, whatever
    the time. *)
Theorem findRoute_at_destination (fuel : nat) :
  let start0 := startingCandidate game now player destination in
  pointsEqual (position start0) destination = true ->
  findRoute movementSpeed game now player destination (S fuel)
  = Done (Some {| path := [ {| Geometry.position := position start0;
                               Geometry.facing := facing start0;
                               Geometry.t := now |} ];
                  newDestination := None |}) /\
  (forall time,
      pathPosition [ {| Geometry.position := position start0;
                        Geometry.facing := facing start0;
                        Geometry.t := now |} ] time
      = Throw "Invalid path").
Proof.
  intros start0 Hat. split; [|reflexivity].
  unfold findRoute. fold start0. cbn [search]. rewrite Hat. reflexivity.
Qed.

End Route.

Lemma findRoute_route_is_walkable_witness :
  exists r,
    findRoute 1 town 5 me farEnd 2 = Done (Some r) /\
    (2 <= List.length (path r))%nat /\
    Sorted (fun a b => Geometry.t a <= Geometry.t b) (path r).
Proof.
  assert (Hfar : pointsEqual (position (startingCandidate town 5 me farEnd)) farEnd = false).
  { unfold pointsEqual, farEnd, startingCandidate.
    rewrite passing_here. cbn [position x y Location.x Location.y].
    rewrite (bool_decide_eq_false_2 (0 = 1)) by lra. reflexivity. }
  assert (Hspeed : 0 < 1) by lra.
  eexists. split; [exact findRoute_reaches_far_end|].
  destruct (findRoute_route_is_walkable 1 town 5 me farEnd 2 _
              Hspeed Hfar findRoute_reaches_far_end)
    as (_ & Hlen & _ & Hsorted).
  split; [exact Hlen|exact Hsorted].
Defined.

Lemma search_explores_by_cost_witness :
  Sorted (fun a b => cost a <= cost b) [s0; c1; c2].
Proof.
  apply (search_explores_by_cost 1 town 5 me beyond 3
           {| current := None; bestCandidate := c1; explored := [s0; c1; c2] |}
           search_beyond).
Defined.

Lemma findRoute_at_destination_witness :
  findRoute 1 town 5 me {| x := 0; y := 0 |} 1
  = Done (Some {| path := [ {| Geometry.position := {| x := 0; y := 0 |};
                               Geometry.facing := {| dx := 1; dy := 0 |};
                               Geometry.t := 5 |} ];
                  newDestination := None |}).
Proof.
  apply (findRoute_at_destination 1 town 5 me {| x := 0; y := 0 |} 0).
  unfold pointsEqual, startingCandidate.
  rewrite passing_here. cbn [position x y Location.x Location.y].
  rewrite (bool_decide_eq_true_2 (0 = 0)) by lra. reflexivity.
Defined.

End Pathfinding.
